(** * ghostferry: binlog DML events and the replica catch-up wait

    A shallow embedding of [dml_events.go] and of the
    [WaitUntilReplicaIsCaughtUpToMaster] coordinator, with the properties
    the specification states about them.

    Conventions of the embedding.
    - A Go [string] and the contents of a Go [[]byte] are Rocq [string]s
      (sequences of 8-bit characters).  A [[]byte] value is an
      [option string]: [None] is the nil slice, [Some s] a non-nil slice
      with contents [s] (so [Some EmptyString] is the empty, non-nil slice).
    - Integers are [Z]; a conversion that can change the value
      ([uint64(v)] of a signed [v], ...) has its wrap-around written out.
      The platform types [int] and [uint] are 64 bits wide.
    - A Go function returning [(T, error)] returns a pair [T * option error];
      a function that can panic returns it inside [go].
    - A row ([RowData], [[]interface{}]) is a reference into a store of
      backing arrays; the functions that only read a row take its contents
      as a [list cell]. *)

From Stdlib Require Import ZArith String Ascii DecimalString List Lia ZifyNat.
From Stdlib Require Import DecimalN DecimalPos.
From stdpp Require Import gmap strings list.

Local Open Scope Z_scope.

Ltac Zify.zify_post_hook ::= Z.to_euclidean_division_equations.

(** ** Dynamic values: the cells of a row ([interface{}]) *)

Inductive cell : Type :=
| CNil                          (* the nil interface value *)
| CInt64 (v : Z)
| CInt32 (v : Z)
| CInt16 (v : Z)
| CInt8 (v : Z)
| CInt (v : Z)
| CUint64 (v : Z)
| CUint32 (v : Z)
| CUint16 (v : Z)
| CUint8 (v : Z)
| CUint (v : Z)
| CString (s : string)
| CBytes (b : option string)    (* []byte; None is the nil slice *)
| CBool (b : bool)
| CFloat64 (g : string)         (* a float64, carried as its 'g', -1, 64 text *)
| CFloat32 (g : string)         (* a float32, carried as the text of float64(v) *)
| CDecimal (s : string)         (* a decimal.Decimal, carried as its String() *)
| COther (typeName : string) (intValue : option Z).
    (* a value of any other dynamic type; [intValue] is its value when the
       kind of the type is a signed integer (a named type such as
       time.Duration), [None] for every other kind *)

#[global] Instance cell_eq_dec : EqDecision cell.
Proof. solve_decision. Defined.

(** Widths of the sized integer types; [Wint] is the platform [int]/[uint]. *)
Inductive width : Type := W8 | W16 | W32 | W64 | Wint.

Definition bits (w : width) : Z :=
  match w with W8 => 8 | W16 => 16 | W32 => 32 | W64 => 64 | Wint => 64 end.

Definition signedCell (w : width) (v : Z) : cell :=
  match w with
  | W8 => CInt8 v | W16 => CInt16 v | W32 => CInt32 v | W64 => CInt64 v
  | Wint => CInt v
  end.

Definition unsignedCell (w : width) (v : Z) : cell :=
  match w with
  | W8 => CUint8 v | W16 => CUint16 v | W32 => CUint32 v | W64 => CUint64 v
  | Wint => CUint v
  end.

(** ** Errors, panics and the result of a call *)

Inductive EventType : Type :=
| WRITE_ROWS_EVENTv1 | WRITE_ROWS_EVENTv2
| UPDATE_ROWS_EVENTv1 | UPDATE_ROWS_EVENTv2
| DELETE_ROWS_EVENTv1 | DELETE_ROWS_EVENTv2
| OTHER_EVENT (code : Z).

Inductive error : Type :=
| ErrColumnCount (schema name : string) (ncolumns nvalues : nat)
    (* "table %s.%s has %d columns but event has %d columns instead" *)
| ErrNotUnsigned (colIdx : Z)
    (* "expected position %d in row to contain an unsigned number" *)
| ErrSyntax (s : string)        (* strconv.ParseUint: invalid syntax *)
| ErrRange (s : string)         (* strconv.ParseUint: value out of range *)
| ErrUnrecognizedRowsEvent (t : EventType)
    (* "unrecognized rows event: %s" *)
| ErrSQL (msg : string).        (* an error of the database driver *)

Inductive panic : Type :=
| IndexOutOfRange (i : Z) (len : nat)
| ReflectValueInt (v : cell)    (* reflect: call of Value.Int on a non-int *)
| ZeroColumns (ntable nintersection : nat)
    (* "zero columns: table: %d, intersection: %d" *)
| UnsupportedType (v : cell)    (* "unsupported type %t" *)
| InterfaceConversion.          (* a failed type assertion x.(T) *)

Inductive go (A : Type) : Type :=
| Ret (a : A)
| Panic (p : panic).
Arguments Ret {A} a.
Arguments Panic {A} p.

#[global] Instance go_ret : MRet go := fun _ a => Ret a.
#[global] Instance go_bind : MBind go := fun _ _ f m =>
  match m with
  | Ret a => f a
  | Panic p => Panic p
  end.

(** [l[i]] with Go's bounds check. *)
Definition index {A : Type} (l : list A) (i : Z) : go A :=
  if i <? 0 then Panic (IndexOutOfRange i (length l))
  else match l !! Z.to_nat i with
       | Some x => Ret x
       | None => Panic (IndexOutOfRange i (length l))
       end.

(** ** The parts of [strconv] and [reflect] the code calls *)

Definition maxUint64 : Z := 2 ^ 64 - 1.

Definition digitValue (c : ascii) : option Z :=
  let n := Z.of_N (N_of_ascii c) in
  if (48 <=? n) && (n <=? 57) then Some (n - 48) else None.

(** The loop of [strconv.ParseUint(s, 10, 64)] over the bytes of [s],
    [n] being the value read so far and [s0] the whole input. *)
Fixpoint parseUintLoop (s0 : string) (n : Z) (s : string) : Z * option error :=
  match s with
  | EmptyString => (n, None)
  | String c rest =>
      match digitValue c with
      | None => (0, Some (ErrSyntax s0))
      | Some d =>
          if n >=? maxUint64 / 10 + 1 then (maxUint64, Some (ErrRange s0))
          else
            let n10 := (n * 10) mod 2 ^ 64 in
            let n1 := (n10 + d) mod 2 ^ 64 in
            if (n1 <? n10) || (n1 >? maxUint64)
            then (maxUint64, Some (ErrRange s0))
            else parseUintLoop s0 n1 rest
      end
  end.

Definition ParseUint (s : string) : Z * option error :=
  match s with
  | EmptyString => (0, Some (ErrSyntax s))
  | _ => parseUintLoop s 0 s
  end.

(** [strconv.AppendUint(buffer, u, 10)] and [strconv.AppendInt(buffer, i, 10)]. *)
Definition AppendUint (buffer : string) (u : Z) : string :=
  buffer +:+ NilZero.string_of_uint (N.to_uint (Z.to_N u)).

Definition AppendInt (buffer : string) (i : Z) : string :=
  buffer +:+ NilZero.string_of_int (Z.to_int i).

(** [reflect.ValueOf(x).Int()] goes by the kind of the value, not by its type:
    the value of a signed integer of any width, also of a named type whose
    kind is one, and a panic on a value of every other kind (the nil
    interface included). *)
Definition reflectInt (x : cell) : go Z :=
  match x with
  | CInt64 v | CInt32 v | CInt16 v | CInt8 v | CInt v => Ret v
  | COther _ (Some v) => Ret v
  | _ => Panic (ReflectValueInt x)
  end.

(** [string(b)] of a byte slice. *)
Definition stringOfBytes (b : option string) : string :=
  match b with
  | Some s => s
  | None => EmptyString
  end.

(** ** [RowData.GetUint64] *)

Definition GetUint64 (r : list cell) (colIdx : Z) : go (Z * option error) :=
  x ← index r colIdx;
  match x with
  | CBytes valueByteSlice =>
      let valueString := stringOfBytes valueByteSlice in
      let '(res, err) := ParseUint valueString in
      match err with
      | Some e => Ret (0, Some e)
      | None => Ret (res, None)
      end
  | _ =>
      signedInt ← reflectInt x;
      if signedInt <? 0 then Ret (0, Some (ErrNotUnsigned colIdx))
      else Ret (signedInt mod 2 ^ 64, None)
  end.

(** ** Table schemas ([schema.Table], [schema.TableColumn]) *)

Module TableColumn.
Record t : Type := mk { Name : string; IsUnsigned : bool }.
End TableColumn.

Module Table.
Record t : Type := mk {
  Schema : string;
  Name : string;
  Columns : list TableColumn.t;
  PKColumns : list Z
}.
End Table.

(** Modelled from the spec: [quoteField] and [QuotedTableNameFromString] are
    helpers of the repository defined outside [dml_events.go].  The spec:
    all identifiers are wrapped in backticks, any backtick inside an
    identifier is doubled, and the qualified name is [`schema`.`table`]. *)
Fixpoint doubleBackticks (s : string) : string :=
  match s with
  | EmptyString => EmptyString
  | String c rest =>
      if Ascii.eqb c "`" then String "`" (String "`" (doubleBackticks rest))
      else String c (doubleBackticks rest)
  end.

Definition quoteField (field : string) : string :=
  "`" +:+ doubleBackticks field +:+ "`".

Definition QuotedTableNameFromString (database table : string) : string :=
  quoteField database +:+ "." +:+ quoteField table.

(** ** Literal escaping *)

Definition isNilValue (value : cell) : bool :=
  match value with
  | CNil => true
  | CBytes None => true
  | _ => false
  end.

Definition Uint64Value (value : cell) : Z * bool :=
  match value with
  | CUint64 v => (v, true)
  | CUint32 v => (v, true)
  | CUint16 v => (v, true)
  | CUint8 v => (v, true)
  | CUint v => (v, true)
  | _ => (0, false)
  end.

Definition Int64Value (value : cell) : Z * bool :=
  match value with
  | CInt64 v => (v, true)
  | CInt32 v => (v, true)
  | CInt16 v => (v, true)
  | CInt8 v => (v, true)
  | CInt v => (v, true)
  | _ => (0, false)
  end.

(** The loop shared by [appendEscapedString] and [appendEscapedBuffer]:
    every single quote of [value] is appended twice. *)
Fixpoint appendQuoteDoubled (buffer value : string) : string :=
  match value with
  | EmptyString => buffer
  | String c rest =>
      if Ascii.eqb c "'" then appendQuoteDoubled (buffer +:+ "''") rest
      else appendQuoteDoubled (buffer +:+ String c EmptyString) rest
  end.

Definition appendEscapedString (buffer value : string) : string :=
  appendQuoteDoubled (buffer +:+ "'") value +:+ "'".

Definition appendEscapedBuffer (buffer value : string) : string :=
  appendQuoteDoubled (buffer +:+ "_binary'") value +:+ "'".

Definition appendEscapedValue (buffer : string) (value : cell) : go string :=
  if isNilValue value then Ret (buffer +:+ "NULL")
  else
    match Uint64Value value with
    | (uintv, true) => Ret (AppendUint buffer uintv)
    | _ =>
        match Int64Value value with
        | (intv, true) => Ret (AppendInt buffer intv)
        | _ =>
            match value with
            | CString v => Ret (appendEscapedString buffer v)
            | CBytes v => Ret (appendEscapedBuffer buffer (stringOfBytes v))
            | CBool v => if v then Ret (buffer +:+ "1") else Ret (buffer +:+ "0")
            | CFloat64 v => Ret (buffer +:+ v)
            | CFloat32 v => Ret (buffer +:+ v)
            | CDecimal v => Ret (appendEscapedString buffer v)
            | _ => Panic (UnsupportedType value)
            end
        end
    end.

(** The [for i, value := range values] loops of the three builders, [i]
    being the index of the head of [values]. *)
Fixpoint valuesLoop (i : nat) (values : list cell) (buffer : string) : go string :=
  match values with
  | [] => Ret buffer
  | value :: rest =>
      let buffer := if (0 <? i)%nat then buffer +:+ "," else buffer in
      buffer ← appendEscapedValue buffer value;
      valuesLoop (S i) rest buffer
  end.

Definition buildStringListForValues (values : list cell) : go string :=
  valuesLoop 0 values EmptyString.

Fixpoint whereLoop (columns : list string) (i : nat) (values : list cell)
    (buffer : string) : go string :=
  match values with
  | [] => Ret buffer
  | value :: rest =>
      let buffer := if (0 <? i)%nat then buffer +:+ " AND " else buffer in
      column ← index columns (Z.of_nat i);
      let buffer := buffer +:+ column in
      if isNilValue value then
        whereLoop columns (S i) rest (buffer +:+ " IS NULL")
      else
        buffer ← appendEscapedValue (buffer +:+ "=") value;
        whereLoop columns (S i) rest buffer
  end.

Definition buildStringMapForWhere (columns : list string) (values : list cell)
    : go string :=
  whereLoop columns 0 values EmptyString.

Fixpoint setLoop (columns : list string) (i : nat) (values : list cell)
    (buffer : string) : go string :=
  match values with
  | [] => Ret buffer
  | value :: rest =>
      let buffer := if (0 <? i)%nat then buffer +:+ "," else buffer in
      column ← index columns (Z.of_nat i);
      let buffer := buffer +:+ column in
      buffer ← appendEscapedValue (buffer +:+ "=") value;
      setLoop columns (S i) rest buffer
  end.

Definition buildStringMapForSet (columns : list string) (values : list cell)
    : go string :=
  setLoop columns 0 values EmptyString.

(** ** Rows and the store of their backing arrays *)

(** A [RowData] is a slice header: [None] is the nil slice, [Some p] a slice
    over the whole backing array at address [p].  The code never reslices a
    row, so a slice and its backing array have the same length. *)
Definition RowData : Type := option nat.

Abbreviation store := (gmap nat (list cell)).

Definition contents (h : store) (row : RowData) : list cell :=
  match row with
  | Some p => default [] (h !! p)
  | None => []
  end.

(** [row[i]] and [row[i] = v]. *)
Definition loadCell (h : store) (row : RowData) (i : nat) : go cell :=
  index (contents h row) (Z.of_nat i).

Definition storeCell (h : store) (row : RowData) (i : nat) (v : cell) : go store :=
  match row with
  | Some p =>
      if (i <? length (contents h row))%nat
      then Ret (<[p := <[i := v]> (contents h row)]> h)
      else Panic (IndexOutOfRange (Z.of_nat i) (length (contents h row)))
  | None => Panic (IndexOutOfRange (Z.of_nat i) 0)
  end.

(** [l[i] = x] on a slice held by value in the model. *)
Definition setIndex {A : Type} (l : list A) (i : nat) (x : A) : go (list A) :=
  if (i <? length l)%nat then Ret (<[i := x]> l)
  else Panic (IndexOutOfRange (Z.of_nat i) (length l)).

(** ** DML events *)

Module DMLEventBase.
Record t : Type := mk { table : Table.t }.
End DMLEventBase.

Inductive DMLEvent : Type :=
| BinlogInsertEvent (newValues : RowData) (base : DMLEventBase.t)
| BinlogUpdateEvent (oldValues newValues : RowData) (base : DMLEventBase.t)
| BinlogDeleteEvent (oldValues : RowData) (base : DMLEventBase.t).

Definition eventBase (e : DMLEvent) : DMLEventBase.t :=
  match e with
  | BinlogInsertEvent _ base => base
  | BinlogUpdateEvent _ _ base => base
  | BinlogDeleteEvent _ base => base
  end.

Definition Database (e : DMLEvent) : string :=
  Table.Schema (DMLEventBase.table (eventBase e)).

Definition Table (e : DMLEvent) : string :=
  Table.Name (DMLEventBase.table (eventBase e)).

Definition TableSchema (e : DMLEvent) : Table.t :=
  DMLEventBase.table (eventBase e).

Definition OldValues (e : DMLEvent) : RowData :=
  match e with
  | BinlogInsertEvent _ _ => None
  | BinlogUpdateEvent oldValues _ _ => oldValues
  | BinlogDeleteEvent oldValues _ => oldValues
  end.

Definition NewValues (e : DMLEvent) : RowData :=
  match e with
  | BinlogInsertEvent newValues _ => newValues
  | BinlogUpdateEvent _ newValues _ => newValues
  | BinlogDeleteEvent _ _ => None
  end.

Definition verifyValuesHasTheSameLengthAsColumns (table : Table.t)
    (values : list cell) : option error :=
  if bool_decide (length (Table.Columns table) ≠ length values)
  then Some (ErrColumnCount (Table.Schema table) (Table.Name table)
               (length (Table.Columns table)) (length values))
  else None.

Definition pkFromEventData (e : DMLEventBase.t) (rowData : list cell)
    : go (Z * option error) :=
  match verifyValuesHasTheSameLengthAsColumns (DMLEventBase.table e) rowData with
  | Some err => Ret (0, Some err)
  | None =>
      pkIndex ← index (Table.PKColumns (DMLEventBase.table e)) 0;
      GetUint64 rowData pkIndex
  end.

Definition PK (h : store) (e : DMLEvent) : go (Z * option error) :=
  match e with
  | BinlogInsertEvent newValues base => pkFromEventData base (contents h newValues)
  | BinlogUpdateEvent _ newValues base => pkFromEventData base (contents h newValues)
  | BinlogDeleteEvent oldValues base => pkFromEventData base (contents h oldValues)
  end.

(** ** Projection on the intersection of two schemas *)

(** The inner loop over [intersection.Columns]: on the first column with
    the name of [col], append and break. *)
Fixpoint targetLoop (colIdx : nat) (col : TableColumn.t)
    (targets : list TableColumn.t) (acc : list nat * list string)
    : list nat * list string :=
  match targets with
  | [] => acc
  | targetCol :: rest =>
      if String.eqb (TableColumn.Name col) (TableColumn.Name targetCol)
      then (acc.1 ++ [colIdx], acc.2 ++ [quoteField (TableColumn.Name col)])
      else targetLoop colIdx col rest acc
  end.

(** The outer loop over [table.Columns], [colIdx] being the index of the
    head of [columns]. *)
Fixpoint sourceLoop (intersection : Table.t) (colIdx : nat)
    (columns : list TableColumn.t) (acc : list nat * list string)
    : list nat * list string :=
  match columns with
  | [] => acc
  | col :: rest =>
      sourceLoop intersection (S colIdx) rest
        (targetLoop colIdx col (Table.Columns intersection) acc)
  end.

Fixpoint projectLoop (values : list cell) (intersectedColumns : list nat)
    (intersectedValues : list cell) : go (list cell) :=
  match intersectedColumns with
  | [] => Ret intersectedValues
  | colIdx :: rest =>
      v ← index values (Z.of_nat colIdx);
      projectLoop values rest (intersectedValues ++ [v])
  end.

Fixpoint verifyLoop (table : Table.t) (intersectedColumns : list nat)
    (valuesToVerify : list (list cell)) (intersectedValueList : list (list cell))
    : go (list (list cell) * option error) :=
  match valuesToVerify with
  | [] => Ret (intersectedValueList, None)
  | values :: rest =>
      match verifyValuesHasTheSameLengthAsColumns table values with
      | Some err => Ret ([], Some err)
      | None =>
          intersectedValues ← projectLoop values intersectedColumns [];
          verifyLoop table intersectedColumns rest
            (intersectedValueList ++ [intersectedValues])
      end
  end.

Definition loadColumnsAndValuesInIntersection (table intersection : Table.t)
    (valuesToVerify : list (list cell))
    : go (list string * list (list cell) * option error) :=
  if bool_decide (length (Table.Columns table) = 0%nat)
     || bool_decide (length (Table.Columns intersection) = 0%nat)
  then Panic (ZeroColumns (length (Table.Columns table))
                (length (Table.Columns intersection)))
  else
    let '(intersectedColumns, quotedNames) :=
      sourceLoop intersection 0 (Table.Columns table) ([], []) in
    '(intersectedValueList, err) ←
      verifyLoop table intersectedColumns valuesToVerify [];
    match err with
    | Some e => Ret ([], [], Some e)
    | None => Ret (quotedNames, intersectedValueList, None)
    end.

(** ** Rendering ([AsSQLString]) *)

Definition AsSQLString (h : store) (e : DMLEvent) (intersection : Table.t)
    : go (string * option error) :=
  match e with
  | BinlogInsertEvent newValues base =>
      '(columns, values, err) ←
        loadColumnsAndValuesInIntersection (DMLEventBase.table base) intersection
          [contents h newValues];
      match err with
      | Some er => Ret (EmptyString, Some er)
      | None =>
          values0 ← index values 0;
          valueList ← buildStringListForValues values0;
          Ret ("INSERT IGNORE INTO " +:+
               QuotedTableNameFromString (Table.Schema intersection)
                 (Table.Name intersection) +:+
               " (" +:+ String.concat "," columns +:+ ")" +:+
               " VALUES (" +:+ valueList +:+ ")", None)
      end
  | BinlogUpdateEvent oldValues newValues base =>
      '(columns, values, err) ←
        loadColumnsAndValuesInIntersection (DMLEventBase.table base) intersection
          [contents h oldValues; contents h newValues];
      match err with
      | Some er => Ret (EmptyString, Some er)
      | None =>
          values1 ← index values 1;
          setMap ← buildStringMapForSet columns values1;
          values0 ← index values 0;
          whereMap ← buildStringMapForWhere columns values0;
          Ret ("UPDATE " +:+
               QuotedTableNameFromString (Table.Schema intersection)
                 (Table.Name intersection) +:+
               " SET " +:+ setMap +:+
               " WHERE " +:+ whereMap, None)
      end
  | BinlogDeleteEvent oldValues base =>
      '(columns, values, err) ←
        loadColumnsAndValuesInIntersection (DMLEventBase.table base) intersection
          [contents h oldValues];
      match err with
      | Some er => Ret (EmptyString, Some er)
      | None =>
          values0 ← index values 0;
          whereMap ← buildStringMapForWhere columns values0;
          Ret ("DELETE FROM " +:+
               QuotedTableNameFromString (Table.Schema intersection)
                 (Table.Name intersection) +:+
               " WHERE " +:+ whereMap, None)
      end
  end.

(** ** Construction of the events of a rows event *)

Module RowsEvent.
Record t : Type := mk { Rows : list RowData }.
End RowsEvent.

Module BinlogEvent.
(** The dynamic type of [ev.Event]: a [*replication.RowsEvent] or another
    event. *)
Inductive payload : Type :=
| IsRowsEvent (rowsEvent : RowsEvent.t)
| IsOtherEvent.
Record t : Type := mk { Header_EventType : EventType; Event : payload }.
End BinlogEvent.

(** [make([]DMLEvent, n)]: [n] nil interface values. *)
Definition makeEvents (n : nat) : list (option DMLEvent) := replicate n None.

Fixpoint insertLoop (table : Table.t) (i : nat) (rows : list RowData)
    (insertEvents : list (option DMLEvent)) : go (list (option DMLEvent)) :=
  match rows with
  | [] => Ret insertEvents
  | row :: rest =>
      insertEvents ← setIndex insertEvents i
        (Some (BinlogInsertEvent row (DMLEventBase.mk table)));
      insertLoop table (S i) rest insertEvents
  end.

Definition NewBinlogInsertEvents (table : Table.t) (rowsEvent : RowsEvent.t)
    : go (list (option DMLEvent) * option error) :=
  insertEvents ← insertLoop table 0 (RowsEvent.Rows rowsEvent)
    (makeEvents (length (RowsEvent.Rows rowsEvent)));
  Ret (insertEvents, None).

(** The loop of [NewBinlogUpdateEvents]; [rows] is what remains of
    [rowsEvent.Rows] from index [i] on.  The composite literal on the right
    of the assignment, with its [rowsEvent.Rows[i+1]], is evaluated before
    the store into [updateEvents[i/2]]. *)
Fixpoint updateLoop (table : Table.t) (rowsEvent : RowsEvent.t) (i : nat)
    (rows : list RowData) (updateEvents : list (option DMLEvent))
    : go (list (option DMLEvent)) :=
  match rows with
  | [] => Ret updateEvents
  | row :: rest =>
      if (i mod 2 =? 1)%nat then updateLoop table rowsEvent (S i) rest updateEvents
      else
        newValues ← index (RowsEvent.Rows rowsEvent) (Z.of_nat (i + 1));
        updateEvents ← setIndex updateEvents (i / 2)
          (Some (BinlogUpdateEvent row newValues (DMLEventBase.mk table)));
        updateLoop table rowsEvent (S i) rest updateEvents
  end.

Definition NewBinlogUpdateEvents (table : Table.t) (rowsEvent : RowsEvent.t)
    : go (list (option DMLEvent) * option error) :=
  updateEvents ← updateLoop table rowsEvent 0 (RowsEvent.Rows rowsEvent)
    (makeEvents (length (RowsEvent.Rows rowsEvent) / 2));
  Ret (updateEvents, None).

Fixpoint deleteLoop (table : Table.t) (i : nat) (rows : list RowData)
    (deleteEvents : list (option DMLEvent)) : go (list (option DMLEvent)) :=
  match rows with
  | [] => Ret deleteEvents
  | row :: rest =>
      deleteEvents ← setIndex deleteEvents i
        (Some (BinlogDeleteEvent row (DMLEventBase.mk table)));
      deleteLoop table (S i) rest deleteEvents
  end.

Definition NewBinlogDeleteEvents (table : Table.t) (rowsEvent : RowsEvent.t)
    : go (list (option DMLEvent) * option error) :=
  deleteEvents ← deleteLoop table 0 (RowsEvent.Rows rowsEvent)
    (makeEvents (length (RowsEvent.Rows rowsEvent)));
  Ret (deleteEvents, None).

(** ** The dispatch entry point [NewBinlogDMLEvents] *)

(** The type switch on [row[i]] for an unsigned column: the cell to store,
    if any. *)
Definition unsignedOf (v : cell) : option cell :=
  match v with
  | CInt64 v => Some (CUint64 (v mod 2 ^ 64))
  | CInt32 v => Some (CUint32 (v mod 2 ^ 32))
  | CInt16 v => Some (CUint16 (v mod 2 ^ 16))
  | CInt8 v => Some (CUint8 (v mod 2 ^ 8))
  | CInt v => Some (CUint (v mod 2 ^ 64))
  | _ => None
  end.

(** [for i, col := range table.Columns] on one row, [i] being the index of
    the head of [columns]. *)
Fixpoint columnsLoop (row : RowData) (i : nat) (columns : list TableColumn.t)
    (h : store) : go store :=
  match columns with
  | [] => Ret h
  | col :: rest =>
      if TableColumn.IsUnsigned col then
        v ← loadCell h row i;
        match unsignedOf v with
        | Some u => h ← storeCell h row i u; columnsLoop row (S i) rest h
        | None => columnsLoop row (S i) rest h
        end
      else columnsLoop row (S i) rest h
  end.

(** [for _, row := range rowsEvent.Rows]: the width check and the
    normalization of each row, in place. *)
Fixpoint rowsLoop (table : Table.t) (rows : list RowData) (h : store)
    : go (option error * store) :=
  match rows with
  | [] => Ret (None, h)
  | row :: rest =>
      if bool_decide (length (contents h row) ≠ length (Table.Columns table))
      then Ret (Some (ErrColumnCount (Table.Schema table) (Table.Name table)
                        (length (Table.Columns table))
                        (length (contents h row))), h)
      else
        h ← columnsLoop row 0 (Table.Columns table) h;
        rowsLoop table rest h
  end.

(** The [switch ev.Header.EventType] at the end of [NewBinlogDMLEvents]. *)
Definition dispatchOnEventType (table : Table.t) (eventType : EventType)
    (rowsEvent : RowsEvent.t) : go (list (option DMLEvent) * option error) :=
  match eventType with
  | WRITE_ROWS_EVENTv1 | WRITE_ROWS_EVENTv2 =>
      NewBinlogInsertEvents table rowsEvent
  | DELETE_ROWS_EVENTv1 | DELETE_ROWS_EVENTv2 =>
      NewBinlogDeleteEvents table rowsEvent
  | UPDATE_ROWS_EVENTv1 | UPDATE_ROWS_EVENTv2 =>
      NewBinlogUpdateEvents table rowsEvent
  | _ => Ret ([], Some (ErrUnrecognizedRowsEvent eventType))
  end.

Definition NewBinlogDMLEvents (table : Table.t) (ev : BinlogEvent.t) (h : store)
    : go ((list (option DMLEvent) * option error) * store) :=
  match BinlogEvent.Event ev with
  | BinlogEvent.IsOtherEvent => Panic InterfaceConversion
  | BinlogEvent.IsRowsEvent rowsEvent =>
      '(err, h) ← rowsLoop table (RowsEvent.Rows rowsEvent) h;
      match err with
      | Some e => Ret (([], Some e), h)
      | None =>
          r ← dispatchOnEventType table (BinlogEvent.Header_EventType ev)
                rowsEvent;
          Ret (r, h)
      end
  end.

(** ** The replica catch-up coordinator *)

Module Position.
Record t : Type := mk { Name : string; Pos : Z }.
End Position.

(** Modelled from the spec: [mysql.Position.Compare] belongs to the go-mysql
    library and is not part of the sources.  The spec: binlog positions are
    totally ordered, lexicographically on the file name, then numerically on
    the offset; the result is negative, zero or positive. *)
Definition Compare (p o : Position.t) : Z :=
  match String.compare (Position.Name p) (Position.Name o) with
  | Gt => 1
  | Lt => -1
  | Eq =>
      if Position.Pos p >? Position.Pos o then 1
      else if Position.Pos p <? Position.Pos o then -1
      else 0
  end.

(** Modelled from the spec: [WithRetries] is a helper of the repository
    defined outside the sources at hand.  The spec: a bounded loop
    parameterized by the maximal number of attempts and the body, which stops
    at the first attempt without error and returns the last error on
    exhaustion.  [S] is the state the body acts on. *)
Fixpoint retryLoop {S : Type} (attempts : nat) (f : S → option error * S)
    (s : S) (last : option error) : option error * S :=
  match attempts with
  | O => (last, s)
  | Datatypes.S attempts' =>
      match f s with
      | (None, s') => (None, s')
      | (Some e, s') => retryLoop attempts' f s' (Some e)
      end
  end.

Definition WithRetries {S : Type} (maxRetries : nat) (f : S → option error * S)
    (s : S) : option error * S :=
  retryLoop maxRetries f s None.

Module WaitUntilReplicaIsCaughtUpToMaster.
(** [World] is the state of the replica database the fetcher queries;
    [ReplicatedMasterPositionFetcher] is its [Current] method, applied to
    [ReplicaDB]. *)
Record t (World : Type) : Type := mk {
  ReplicatedMasterPositionFetcher : World → (Position.t * option error) * World;
  targetMasterPos : Position.t
}.
Arguments ReplicatedMasterPositionFetcher {World} _ _.
Arguments targetMasterPos {World} _.
End WaitUntilReplicaIsCaughtUpToMaster.

(** The body passed to [WithRetries] by [IsCaughtUp]: it assigns the
    captured variable [currentReplicatedMasterPos] and returns the error. *)
Definition fetchAttempt {World : Type}
    (w : WaitUntilReplicaIsCaughtUpToMaster.t World)
    (s : Position.t * World) : option error * (Position.t * World) :=
  let '((pos, err), world) :=
    WaitUntilReplicaIsCaughtUpToMaster.ReplicatedMasterPositionFetcher w s.2 in
  (err, (pos, world)).

Definition IsCaughtUp {World : Type}
    (w : WaitUntilReplicaIsCaughtUpToMaster.t World) (world : World)
    : (bool * option error) * World :=
  let '(err, (currentReplicatedMasterPos, world)) :=
    WithRetries 100 (fetchAttempt w) (Position.mk EmptyString 0, world) in
  match err with
  | Some e => ((false, Some e), world)
  | None =>
      if Compare currentReplicatedMasterPos
           (WaitUntilReplicaIsCaughtUpToMaster.targetMasterPos w) >=? 0
      then ((true, None), world)
      else ((false, None), world)
  end.

(** ** The notions the specification is stated with *)

(** The lexicographic order on file names, byte by byte. *)
Inductive lexLt : string → string → Prop :=
| lexLt_nil c s : lexLt EmptyString (String c s)
| lexLt_head c d s t :
    (N_of_ascii c < N_of_ascii d)%N → lexLt (String c s) (String d t)
| lexLt_tail c s t : lexLt s t → lexLt (String c s) (String c t).

(** [positionLe p q]: [p ≤ q], lexicographically on the file name, then
    numerically on the offset; [p] is reached by [q]. *)
Definition positionLe (p q : Position.t) : Prop :=
  lexLt (Position.Name p) (Position.Name q)
  ∨ (Position.Name p = Position.Name q ∧ Position.Pos p <= Position.Pos q).

(** The literal of a cell, as [appendEscapedValue] appends it. *)
Definition literal (v : cell) : string :=
  match appendEscapedValue EmptyString v with
  | Ret s => s
  | Panic _ => EmptyString
  end.

(** The cells [appendEscapedValue] has a case for. *)
Definition supported (v : cell) : Prop :=
  match v with
  | COther _ _ => False
  | _ => True
  end.

Definition setFragment (column : string) (value : cell) : string :=
  column +:+ "=" +:+ literal value.

Definition whereFragment (column : string) (value : cell) : string :=
  if isNilValue value then column +:+ " IS NULL"
  else column +:+ "=" +:+ literal value.

(** What the spec calls NULL in its data model: an absent value, or an
    empty byte buffer (nil or not). *)
Definition nullOrEmptyBuffer (v : cell) : Prop :=
  v = CNil ∨ ∃ b, v = CBytes b ∧ stringOfBytes b = EmptyString.

(** Two cells that are equal, or NULL both. *)
Definition nilAlike (a b : cell) : Prop :=
  a = b ∨ (isNilValue a = true ∧ isNilValue b = true).

(** The row images [AsSQLString] hands to the projection. *)
Definition rowImages (h : store) (e : DMLEvent) : list (list cell) :=
  match e with
  | BinlogInsertEvent newValues _ => [contents h newValues]
  | BinlogUpdateEvent oldValues newValues _ =>
      [contents h oldValues; contents h newValues]
  | BinlogDeleteEvent oldValues _ => [contents h oldValues]
  end.

(** The matched columns of the spec: the pairs (source index, quoted name)
    of the source columns whose name appears in the intersection, in source
    order. *)
Definition matched (table intersection : Table.t) : list (nat * string) :=
  (λ ic, (ic.1, quoteField (TableColumn.Name ic.2))) <$>
  filter (λ ic : nat * TableColumn.t,
            TableColumn.Name ic.2 ∈ TableColumn.Name <$> Table.Columns intersection)
    (imap pair (Table.Columns table)).

(** A row reduced to the cells at the given indices. *)
Definition project (indices : list nat) (row : list cell) : list cell :=
  omap (λ i, row !! i) indices.

(** Normalization of a row, cell by cell: what the type switch stores in
    the cells of unsigned columns. *)
Definition normalizeCell (col : TableColumn.t) (v : cell) : cell :=
  if TableColumn.IsUnsigned col then default v (unsignedOf v) else v.

Definition normalizeRow (columns : list TableColumn.t) (row : list cell)
    : list cell :=
  zip_with normalizeCell columns row.

(** A literal with a leading minus sign. *)
Definition leadingMinus (s : string) : bool :=
  match s with
  | String c _ => Ascii.eqb c "-"
  | EmptyString => false
  end.

(** Every fragment preceded by the separator. *)
Definition sepBefore (sep : string) (fragments : list string) : string :=
  foldr (λ f acc, sep +:+ f +:+ acc) EmptyString fragments.

(** ** The scenarios of the specification *)

(** Columns [(id, name)] of [s.t]; the rows [(1, NULL)] at address 0 and
    [(1, 'a')] at address 1. *)
Definition tableIdName : Table.t :=
  Table.mk "s" "t"
    [TableColumn.mk "id" false; TableColumn.mk "name" false] [0].

Definition storeIdName : store :=
  <[0%nat := [CInt64 1; CNil]]> {[1%nat := [CInt64 1; CString "a"]]}.

(** Source columns [(a, b, c)], intersection [(a, c)]; the row [(1, 2, 3)]
    at address 0. *)
Definition tableABC : Table.t :=
  Table.mk "s" "t"
    [TableColumn.mk "a" false; TableColumn.mk "b" false;
     TableColumn.mk "c" false] [0].

Definition tableAC : Table.t :=
  Table.mk "s" "t" [TableColumn.mk "a" false; TableColumn.mk "c" false] [0].

Definition storeABC : store := {[0%nat := [CInt64 1; CInt64 2; CInt64 3]]}.

(** A column [id BIGINT UNSIGNED], the primary key; a rows event of one row,
    at address 0, which the parser filled with the signed [int64(v)]. *)
Definition tableUnsignedId : Table.t :=
  Table.mk "s" "t" [TableColumn.mk "id" true] [0].

Definition storeOfId (v : Z) : store := {[0%nat := [CInt64 v]]}.

Definition oneRowEvent (eventType : EventType) : BinlogEvent.t :=
  BinlogEvent.mk eventType (BinlogEvent.IsRowsEvent (RowsEvent.mk [Some 0%nat])).

(** A column [ratio DOUBLE UNSIGNED]; the one row of the event, at address
    0, holding the cell [v]. *)
Definition tableUnsignedRatio : Table.t :=
  Table.mk "s" "t" [TableColumn.mk "ratio" true] [0].

Definition storeOfCell (v : cell) : store := {[0%nat := [v]]}.

(** ** Notions for the further properties *)

(** The value of a string of decimal digits read after [acc]; [None] when a
    character is not a digit. *)
Fixpoint digitsValue (acc : Z) (s : string) : option Z :=
  match s with
  | EmptyString => Some acc
  | String c rest =>
      match digitValue c with
      | Some d => digitsValue (acc * 10 + d) rest
      | None => None
      end
  end.

(** The number a non-empty string of decimal digits denotes. *)
Definition decimalValue (s : string) : option Z :=
  match s with
  | EmptyString => None
  | _ => digitsValue 0 s
  end.

(** The inverse of the doubling of single quotes: every pair of single
    quotes becomes one. *)
Fixpoint undoubleQuotes (s : string) : string :=
  match s with
  | EmptyString => EmptyString
  | String c rest =>
      match rest with
      | String d rest' =>
          if Ascii.eqb c "'" && Ascii.eqb d "'"
          then String "'" (undoubleQuotes rest')
          else String c (undoubleQuotes rest)
      | EmptyString => String c EmptyString
      end
  end.

(** ** The rest of the coordinator *)

(** The body [MarkTargetMasterPosition] passes to [WithRetries]: it assigns
    [w.targetMasterPos], with or without error.  [showMasterStatus] stands
    for [ShowMasterStatusBinlogPosition] applied to [w.MasterDB], a helper of
    the repository outside the sources at hand, taken as a parameter. *)
Definition markAttempt {World : Type}
    (showMasterStatus : World → (Position.t * option error) * World)
    (s : WaitUntilReplicaIsCaughtUpToMaster.t World * World)
    : option error * (WaitUntilReplicaIsCaughtUpToMaster.t World * World) :=
  let '((pos, err), world) := showMasterStatus s.2 in
  (err,
   (WaitUntilReplicaIsCaughtUpToMaster.mk World
      (WaitUntilReplicaIsCaughtUpToMaster.ReplicatedMasterPositionFetcher s.1)
      pos,
    world)).

Definition MarkTargetMasterPosition {World : Type}
    (showMasterStatus : World → (Position.t * option error) * World)
    (w : WaitUntilReplicaIsCaughtUpToMaster.t World) (world : World)
    : option error * (WaitUntilReplicaIsCaughtUpToMaster.t World * World) :=
  WithRetries 100 (markAttempt showMasterStatus) (w, world).

(** The [for] loop of [Wait], followed for at most [polls] iterations:
    [None] when it is still running after them.  The sleep between two polls
    leaves no trace in the model. *)
Fixpoint waitLoop {World : Type} (polls : nat)
    (w : WaitUntilReplicaIsCaughtUpToMaster.t World) (world : World)
    : option (option error * World) :=
  match polls with
  | O => None
  | S polls' =>
      let '((isCaughtUp, err), world) := IsCaughtUp w world in
      match err with
      | Some e => Some (Some e, world)
      | None =>
          if isCaughtUp then Some (None, world)
          else waitLoop polls' w world
      end
  end.

Definition Wait {World : Type} (polls : nat)
    (showMasterStatus : World → (Position.t * option error) * World)
    (w : WaitUntilReplicaIsCaughtUpToMaster.t World) (world : World)
    : option (option error
              * (WaitUntilReplicaIsCaughtUpToMaster.t World * World)) :=
  let '(err, (w, world)) := MarkTargetMasterPosition showMasterStatus w world in
  match err with
  | Some e => Some (Some e, (w, world))
  | None =>
      match waitLoop polls w world with
      | Some (err, world) => Some (err, (w, world))
      | None => None
      end
  end.

(** * Properties *)

(** One step of a computation in [go]. *)
Ltac go_step := cbn [mbind go_bind mret go_ret].

(** ** Strings and literals *)

Lemma append_cons (x : ascii) (a b : string) :
  String x a +:+ b = String x (a +:+ b).
Proof. reflexivity. Qed.

Lemma append_nil_l (a : string) : EmptyString +:+ a = a.
Proof. reflexivity. Qed.

Lemma append_assoc (a b c : string) : (a +:+ b) +:+ c = a +:+ (b +:+ c).
Proof. induction a as [|x a IH]; [done|]. by rewrite !append_cons, IH. Qed.

Lemma append_nil_r (a : string) : a +:+ EmptyString = a.
Proof. induction a as [|x a IH]; [done|]. by rewrite append_cons, IH. Qed.

Lemma concat_sepBefore (sep f : string) (fs : list string) :
  String.concat sep (f :: fs) = f +:+ sepBefore sep fs.
Proof.
  revert f. induction fs as [|g fs IH]; intros f.
  - simpl. by rewrite append_nil_r.
  - change (String.concat sep (f :: g :: fs))
      with (f +:+ sep +:+ String.concat sep (g :: fs)).
    by rewrite IH.
Qed.

Lemma appendQuoteDoubled_append (a b value : string) :
  appendQuoteDoubled (a +:+ b) value = a +:+ appendQuoteDoubled b value.
Proof.
  revert b. induction value as [|c rest IH]; intros b; simpl; [done|].
  destruct (Ascii.eqb c "'"); rewrite append_assoc; apply IH.
Qed.

Lemma appendEscapedValue_literal (buffer : string) (v : cell) :
  supported v → appendEscapedValue buffer v = Ret (buffer +:+ literal v).
Proof.
  intros Hs. unfold literal.
  destruct v as [| | | | | | | | | | | |[b|]|[]| | | |]; try done;
    unfold appendEscapedValue; simpl;
    unfold AppendUint, AppendInt, appendEscapedString, appendEscapedBuffer;
    by rewrite ?append_nil_l, ?appendQuoteDoubled_append, ?append_assoc.
Qed.

Lemma index_lookup {A : Type} (l : list A) (i : nat) (x : A) :
  l !! i = Some x → index l (Z.of_nat i) = Ret x.
Proof.
  intros H. unfold index.
  destruct (Z.ltb_spec (Z.of_nat i) 0) as [?|_]; [lia|].
  by rewrite Nat2Z.id, H.
Qed.

Lemma index_0 {A : Type} (x : A) (l : list A) : index (x :: l) 0 = Ret x.
Proof. reflexivity. Qed.

Lemma index_1 {A : Type} (x y : A) (l : list A) :
  index (x :: y :: l) 1 = Ret y.
Proof. reflexivity. Qed.

Lemma index_out_of_range {A : Type} (l : list A) (i : nat) :
  (length l ≤ i)%nat →
  index l (Z.of_nat i) = Panic (IndexOutOfRange (Z.of_nat i) (length l)).
Proof.
  intros H. unfold index.
  destruct (Z.ltb_spec (Z.of_nat i) 0) as [?|_]; [lia|].
  rewrite Nat2Z.id. by rewrite (lookup_ge_None_2 l i).
Qed.

(** ** The three builders, as joins of per-column fragments *)

Lemma valuesLoop_step (values : list cell) (i : nat) (buffer : string) :
  Forall supported values →
  valuesLoop (S i) values buffer
  = Ret (buffer +:+ sepBefore "," (literal <$> values)).
Proof.
  revert i buffer. induction values as [|v rest IH]; intros i buffer Hs.
  - simpl. by rewrite append_nil_r.
  - inversion_clear Hs as [|?? Hv Hrest]. simpl.
    rewrite (appendEscapedValue_literal _ v Hv). simpl.
    rewrite (IH _ _ Hrest). by rewrite !append_assoc.
Qed.

Lemma buildStringListForValues_join (values : list cell) :
  Forall supported values →
  buildStringListForValues values
  = Ret (String.concat "," (literal <$> values)).
Proof.
  intros Hs. unfold buildStringListForValues.
  destruct values as [|v rest]; [done|].
  inversion_clear Hs as [|?? Hv Hrest].
  change (literal <$> v :: rest) with (literal v :: (literal <$> rest)).
  rewrite concat_sepBefore. simpl.
  rewrite (appendEscapedValue_literal _ v Hv). simpl.
  by rewrite (valuesLoop_step _ _ _ Hrest).
Qed.

Lemma whereLoop_step (columns : list string) (values : list cell) (i : nat)
    (buffer : string) :
  (length values ≤ length (drop (S i) columns))%nat →
  Forall supported values →
  whereLoop columns (S i) values buffer
  = Ret (buffer +:+
         sepBefore " AND " (zip_with whereFragment (drop (S i) columns) values)).
Proof.
  revert i buffer. induction values as [|v rest IH]; intros i buffer Hlen Hs.
  - simpl. destruct (drop (S i) columns); simpl; by rewrite append_nil_r.
  - inversion_clear Hs as [|?? Hv Hrest].
    destruct (drop (S i) columns) as [|c cs] eqn:Hdrop; [simpl in Hlen; lia|].
    assert (Hc : columns !! S i = Some c).
    { rewrite <- (Nat.add_0_r (S i)), <- lookup_drop, Hdrop. done. }
    assert (Hcs : drop (S (S i)) columns = cs).
    { rewrite (drop_S _ _ _ Hc) in Hdrop. by inversion Hdrop. }
    cbn [whereLoop]. change (0 <? S i)%nat with true. cbv iota.
    rewrite (index_lookup _ _ _ Hc). simpl.
    unfold whereFragment at 1.
    destruct (isNilValue v).
    + rewrite IH, Hcs; [|rewrite Hcs; simpl in Hlen; lia|done].
      by rewrite !append_assoc.
    + rewrite (appendEscapedValue_literal _ v Hv). simpl.
      rewrite IH, Hcs; [|rewrite Hcs; simpl in Hlen; lia|done].
      by rewrite !append_assoc.
Qed.

Lemma buildStringMapForWhere_join (columns : list string) (values : list cell) :
  (length values ≤ length columns)%nat →
  Forall supported values →
  buildStringMapForWhere columns values
  = Ret (String.concat " AND " (zip_with whereFragment columns values)).
Proof.
  intros Hlen Hs. unfold buildStringMapForWhere.
  destruct values as [|v rest]; [by destruct columns|].
  destruct columns as [|c cs]; [simpl in Hlen; lia|].
  inversion_clear Hs as [|?? Hv Hrest].
  cbn [zip_with]. rewrite concat_sepBefore.
  cbn [whereLoop]. change (0 <? 0)%nat with false. cbv iota.
  rewrite (index_lookup (c :: cs) 0 c eq_refl). simpl.
  unfold whereFragment at 1.
  destruct (isNilValue v).
  - rewrite whereLoop_step; change (drop 1 (c :: cs)) with cs;
      [|simpl in *; lia|done].
    by rewrite !append_assoc.
  - rewrite (appendEscapedValue_literal _ v Hv). simpl.
    rewrite whereLoop_step; change (drop 1 (c :: cs)) with cs;
      [|simpl in *; lia|done].
    by rewrite !append_assoc.
Qed.

Lemma setLoop_step (columns : list string) (values : list cell) (i : nat)
    (buffer : string) :
  (length values ≤ length (drop (S i) columns))%nat →
  Forall supported values →
  setLoop columns (S i) values buffer
  = Ret (buffer +:+
         sepBefore "," (zip_with setFragment (drop (S i) columns) values)).
Proof.
  revert i buffer. induction values as [|v rest IH]; intros i buffer Hlen Hs.
  - simpl. destruct (drop (S i) columns); simpl; by rewrite append_nil_r.
  - inversion_clear Hs as [|?? Hv Hrest].
    destruct (drop (S i) columns) as [|c cs] eqn:Hdrop; [simpl in Hlen; lia|].
    assert (Hc : columns !! S i = Some c).
    { rewrite <- (Nat.add_0_r (S i)), <- lookup_drop, Hdrop. done. }
    assert (Hcs : drop (S (S i)) columns = cs).
    { rewrite (drop_S _ _ _ Hc) in Hdrop. by inversion Hdrop. }
    cbn [setLoop]. change (0 <? S i)%nat with true. cbv iota.
    rewrite (index_lookup _ _ _ Hc). simpl.
    rewrite (appendEscapedValue_literal _ v Hv). simpl.
    rewrite IH, Hcs; [|rewrite Hcs; simpl in Hlen; lia|done].
    unfold setFragment. by rewrite !append_assoc.
Qed.

Lemma buildStringMapForSet_join (columns : list string) (values : list cell) :
  (length values ≤ length columns)%nat →
  Forall supported values →
  buildStringMapForSet columns values
  = Ret (String.concat "," (zip_with setFragment columns values)).
Proof.
  intros Hlen Hs. unfold buildStringMapForSet.
  destruct values as [|v rest]; [by destruct columns|].
  destruct columns as [|c cs]; [simpl in Hlen; lia|].
  inversion_clear Hs as [|?? Hv Hrest].
  cbn [zip_with]. rewrite concat_sepBefore.
  cbn [setLoop]. change (0 <? 0)%nat with false. cbv iota.
  rewrite (index_lookup (c :: cs) 0 c eq_refl). simpl.
  unfold setFragment at 1.
  rewrite (appendEscapedValue_literal _ v Hv). simpl.
  rewrite setLoop_step; change (drop 1 (c :: cs)) with cs;
    [|simpl in *; lia|done].
  by rewrite !append_assoc.
Qed.

(** ** Projection on the intersection *)

Lemma targetLoop_spec (colIdx : nat) (col : TableColumn.t)
    (targets : list TableColumn.t) (acc : list nat * list string) :
  targetLoop colIdx col targets acc
  = if decide (TableColumn.Name col ∈ TableColumn.Name <$> targets)
    then (acc.1 ++ [colIdx], acc.2 ++ [quoteField (TableColumn.Name col)])
    else acc.
Proof.
  induction targets as [|t rest IH]; [done|]. cbn [targetLoop].
  - destruct (String.eqb_spec (TableColumn.Name col) (TableColumn.Name t)) as [E|E].
    + rewrite decide_True; [done|]. rewrite E. apply list_elem_of_here.
    + rewrite IH.
      destruct (decide (TableColumn.Name col ∈ TableColumn.Name <$> rest))
        as [H|H].
      * rewrite decide_True; [done|]. by apply list_elem_of_further.
      * rewrite decide_False; [done|].
        intros [?|?]%elem_of_cons; done.
Qed.

(** The matched columns of the sources from index [i] on. *)
Lemma sourceLoop_spec (intersection : Table.t) (columns : list TableColumn.t)
    (i : nat) (acc : list nat * list string) :
  let m :=
    (λ ic : nat * TableColumn.t, (ic.1, quoteField (TableColumn.Name ic.2))) <$>
    filter (λ ic : nat * TableColumn.t,
              TableColumn.Name ic.2
              ∈ TableColumn.Name <$> Table.Columns intersection)
      (imap (λ j c, ((i + j)%nat, c)) columns) in
  sourceLoop intersection i columns acc = (acc.1 ++ m.*1, acc.2 ++ m.*2).
Proof.
  revert i acc. induction columns as [|col rest IH]; intros i acc; simpl.
  - rewrite !app_nil_r. by destruct acc.
  - rewrite IH, targetLoop_spec. rewrite filter_cons. simpl.
    rewrite Nat.add_0_r.
    assert (Hext : imap ((λ j c, ((i + j)%nat, c)) ∘ S) rest
                   = imap (λ j (c : TableColumn.t), ((S i + j)%nat, c)) rest).
    { apply imap_ext. intros j c _. simpl. f_equal. lia. }
    rewrite Hext.
    destruct (decide _); simpl; [|done].
    by rewrite <- !app_assoc.
Qed.

Lemma sourceLoop_matched (table intersection : Table.t) :
  sourceLoop intersection 0 (Table.Columns table) ([], [])
  = ((matched table intersection).*1, (matched table intersection).*2).
Proof. by rewrite sourceLoop_spec. Qed.

Lemma matched_in_range (table intersection : Table.t) :
  Forall (λ i, (i < length (Table.Columns table))%nat)
    (matched table intersection).*1.
Proof.
  apply Forall_forall. intros i Hi. unfold matched in Hi.
  apply list_elem_of_fmap in Hi as [[j q] [-> Hi]].
  apply list_elem_of_fmap in Hi as [[k c] [[= -> ->] Hi]].
  apply list_elem_of_filter in Hi as [_ Hi].
  apply elem_of_lookup_imap in Hi as (n & c' & [= -> ->] & Hn).
  simpl. by eapply lookup_lt_Some.
Qed.

Lemma projectLoop_spec (values : list cell) (indices : list nat)
    (acc : list cell) :
  Forall (λ i, (i < length values)%nat) indices →
  projectLoop values indices acc = Ret (acc ++ project indices values).
Proof.
  revert acc. induction indices as [|i rest IH]; intros acc Hin; simpl.
  - by rewrite app_nil_r.
  - inversion_clear Hin as [|?? Hi Hrest].
    destruct (lookup_lt_is_Some_2 values i Hi) as [v Hv].
    rewrite (index_lookup _ _ _ Hv). simpl.
    rewrite (IH _ Hrest). unfold project. simpl. rewrite Hv. simpl.
    by rewrite <- app_assoc.
Qed.

Lemma verify_same_length (table : Table.t) (values : list cell) :
  length values = length (Table.Columns table) →
  verifyValuesHasTheSameLengthAsColumns table values = None.
Proof.
  intros H. unfold verifyValuesHasTheSameLengthAsColumns.
  by rewrite bool_decide_false by congruence.
Qed.

Lemma verify_other_length (table : Table.t) (values : list cell) :
  length values ≠ length (Table.Columns table) →
  verifyValuesHasTheSameLengthAsColumns table values
  = Some (ErrColumnCount (Table.Schema table) (Table.Name table)
            (length (Table.Columns table)) (length values)).
Proof.
  intros H. unfold verifyValuesHasTheSameLengthAsColumns.
  by rewrite bool_decide_true by congruence.
Qed.

Lemma verifyLoop_spec (table : Table.t) (indices : list nat)
    (images acc : list (list cell)) :
  Forall (λ i, (i < length (Table.Columns table))%nat) indices →
  Forall (λ values, length values = length (Table.Columns table)) images →
  verifyLoop table indices images acc
  = Ret (acc ++ (project indices <$> images), None).
Proof.
  intros Hin. revert acc.
  induction images as [|values rest IH]; intros acc Hlen; simpl.
  - by rewrite app_nil_r.
  - inversion_clear Hlen as [|?? Hv Hrest].
    rewrite (verify_same_length _ _ Hv).
    rewrite projectLoop_spec by (by rewrite Hv). simpl.
    rewrite (IH _ Hrest). by rewrite <- app_assoc.
Qed.

Lemma verifyLoop_mismatch (table : Table.t) (indices : list nat)
    (images acc : list (list cell)) :
  Forall (λ i, (i < length (Table.Columns table))%nat) indices →
  Exists (λ values, length values ≠ length (Table.Columns table)) images →
  ∃ n, n ≠ length (Table.Columns table) ∧
    verifyLoop table indices images acc
    = Ret ([], Some (ErrColumnCount (Table.Schema table) (Table.Name table)
                       (length (Table.Columns table)) n)).
Proof.
  intros Hin. revert acc.
  induction images as [|values rest IH]; intros acc Hex.
  - by apply Exists_nil in Hex.
  - simpl.
    destruct (decide (length values = length (Table.Columns table))) as [Hv|Hv].
    + rewrite (verify_same_length _ _ Hv).
      rewrite projectLoop_spec by (by rewrite Hv). simpl.
      apply IH. apply Exists_cons in Hex as [?|?]; done.
    + rewrite (verify_other_length _ _ Hv). eauto.
Qed.

Lemma loadColumnsAndValuesInIntersection_spec (table intersection : Table.t)
    (images : list (list cell)) :
  Table.Columns table ≠ [] →
  Table.Columns intersection ≠ [] →
  Forall (λ values, length values = length (Table.Columns table)) images →
  loadColumnsAndValuesInIntersection table intersection images
  = Ret ((matched table intersection).*2,
         project (matched table intersection).*1 <$> images, None).
Proof.
  intros Ht Hi Hlen. unfold loadColumnsAndValuesInIntersection.
  rewrite !bool_decide_false by (by rewrite length_zero_iff_nil).
  simpl. rewrite sourceLoop_matched.
  rewrite verifyLoop_spec by (done || apply matched_in_range). done.
Qed.

Lemma loadColumnsAndValuesInIntersection_mismatch
    (table intersection : Table.t) (images : list (list cell)) :
  Table.Columns table ≠ [] →
  Table.Columns intersection ≠ [] →
  Exists (λ values, length values ≠ length (Table.Columns table)) images →
  ∃ n, n ≠ length (Table.Columns table) ∧
    loadColumnsAndValuesInIntersection table intersection images
    = Ret ([], [], Some (ErrColumnCount (Table.Schema table) (Table.Name table)
                           (length (Table.Columns table)) n)).
Proof.
  intros Ht Hi Hex. unfold loadColumnsAndValuesInIntersection.
  rewrite !bool_decide_false by (by rewrite length_zero_iff_nil).
  simpl. rewrite sourceLoop_matched.
  destruct (verifyLoop_mismatch table (matched table intersection).*1 images []
              (matched_in_range _ _) Hex) as (n & Hn & ->).
  eauto.
Qed.

Lemma loadColumnsAndValuesInIntersection_zero (table intersection : Table.t)
    (images : list (list cell)) :
  Table.Columns table = [] ∨ Table.Columns intersection = [] →
  loadColumnsAndValuesInIntersection table intersection images
  = Panic (ZeroColumns (length (Table.Columns table))
             (length (Table.Columns intersection))).
Proof.
  intros H. unfold loadColumnsAndValuesInIntersection.
  destruct H as [H|H]; rewrite H; simpl; [done|].
  by rewrite orb_true_r.
Qed.

(** ** The store: normalization in place *)

Section store_lemmas.
Local Open Scope nat_scope.

Lemma contents_insert_eq (h : store) (p : nat) (arr : list cell) :
  contents (<[p := arr]> h) (Some p) = arr.
Proof. unfold contents. by rewrite lookup_insert_eq. Qed.

Lemma contents_insert_ne (h : store) (p : nat) (arr : list cell) (r : RowData) :
  r ≠ Some p → contents (<[p := arr]> h) r = contents h r.
Proof.
  intros Hne. destruct r as [q|]; [|done]. unfold contents.
  rewrite lookup_insert_ne; [done|]. congruence.
Qed.

Lemma normalizeCell_idemp (col : TableColumn.t) (v : cell) :
  normalizeCell col (normalizeCell col v) = normalizeCell col v.
Proof. unfold normalizeCell. destruct (TableColumn.IsUnsigned col), v; done. Qed.

Lemma normalizeRow_idemp (columns : list TableColumn.t) (row : list cell) :
  normalizeRow columns (normalizeRow columns row) = normalizeRow columns row.
Proof.
  unfold normalizeRow. revert row.
  induction columns as [|col rest IH]; intros [|v row]; simpl; try done.
  by rewrite normalizeCell_idemp, IH.
Qed.

Lemma normalizeRow_length (columns : list TableColumn.t) (row : list cell) :
  length row = length columns →
  length (normalizeRow columns row) = length row.
Proof. intros H. unfold normalizeRow. by rewrite length_zip_with_r_eq. Qed.

Lemma normalizeRow_lookup (columns : list TableColumn.t) (row : list cell)
    (i : nat) (col : TableColumn.t) (v : cell) :
  columns !! i = Some col → row !! i = Some v →
  normalizeRow columns row !! i = Some (normalizeCell col v).
Proof.
  intros Hc Hv. unfold normalizeRow. rewrite lookup_zip_with, Hc. simpl.
  by rewrite Hv.
Qed.

Lemma columnsLoop_spec (row : RowData) (columns : list TableColumn.t) (i : nat)
    (h : store) :
  length (contents h row) = i + length columns →
  ∃ h', columnsLoop row i columns h = Ret h' ∧
    ∀ r, contents h' r
         = if decide (r = row)
           then take i (contents h row)
                ++ normalizeRow columns (drop i (contents h row))
           else contents h r.
Proof.
  revert i h. induction columns as [|col rest IH]; intros i h Hlen.
  - exists h. split; [done|]. intros r. case_decide as Hr; [|done].
    subst r. unfold normalizeRow. simpl. rewrite app_nil_r.
    rewrite take_ge; [done|]. simpl in Hlen. lia.
  - simpl in Hlen.
    destruct (lookup_lt_is_Some_2 (contents h row) i) as [v Hv]; [lia|].
    assert (Hnorm : ∀ arr u, length arr = length (contents h row) →
              arr !! i = Some u → take i arr = take i (contents h row) →
              drop (S i) arr = drop (S i) (contents h row) →
              normalizeCell col v = u →
              take (S i) arr ++ normalizeRow rest (drop (S i) arr)
              = take i (contents h row)
                ++ normalizeRow (col :: rest) (drop i (contents h row))).
    { intros arr u _ Hu Ht Hd Hn.
      rewrite (take_S_r _ _ _ Hu), Ht, Hd, (drop_S _ _ _ Hv), <- Hn.
      by rewrite <- app_assoc. }
    assert (Hskip : normalizeCell col v = v →
              ∃ h', columnsLoop row (S i) rest h = Ret h' ∧
                ∀ r, contents h' r
                     = if decide (r = row)
                       then take i (contents h row)
                            ++ normalizeRow (col :: rest)
                                 (drop i (contents h row))
                       else contents h r).
    { intros Hn. destruct (IH (S i) h) as (h' & Hrun & Hh'); [lia|].
      exists h'. split; [done|]. intros r. rewrite Hh'.
      case_decide; [|done]. by apply (Hnorm _ v). }
    cbn [columnsLoop]. unfold normalizeCell in Hskip.
    destruct (TableColumn.IsUnsigned col) eqn:Hunsigned; [|by apply Hskip].
    unfold loadCell. rewrite (index_lookup _ _ _ Hv). simpl.
    destruct (unsignedOf v) as [u|] eqn:Hu; [|by apply Hskip].
    destruct row as [p|]; [|done].
    unfold storeCell.
    destruct (Nat.ltb_spec i (length (contents h (Some p)))) as [_|?]; [|lia].
    simpl.
    destruct (IH (S i) (<[p := <[i := u]> (contents h (Some p))]> h))
      as (h' & Hrun & Hh').
    { rewrite contents_insert_eq, length_insert. lia. }
    exists h'. split; [done|]. intros r. rewrite Hh'.
    rewrite contents_insert_eq.
    case_decide as Hr; [|by apply contents_insert_ne].
    apply (Hnorm _ u).
    + by rewrite length_insert.
    + apply list_lookup_insert_eq. lia.
    + by apply take_insert_ge.
    + apply drop_insert_lt. lia.
    + unfold normalizeCell. by rewrite Hunsigned, Hu.
Qed.

Lemma columnsLoop_row (row : RowData) (columns : list TableColumn.t) (h : store) :
  length (contents h row) = length columns →
  ∃ h', columnsLoop row 0 columns h = Ret h' ∧
    ∀ r, contents h' r
         = if decide (r = row) then normalizeRow columns (contents h row)
           else contents h r.
Proof. intros Hlen. by apply (columnsLoop_spec row columns 0 h). Qed.

(** [rowsLoop] never panics; it changes nothing but rows of the event, which
    it normalizes, and keeps the length of every row. *)
Lemma rowsLoop_frame (table : Table.t) (rows : list RowData) (h : store) :
  ∃ err h', rowsLoop table rows h = Ret (err, h') ∧
    (∀ r, contents h' r = contents h r
          ∨ (r ∈ rows ∧ length (contents h r) = length (Table.Columns table)
             ∧ contents h' r = normalizeRow (Table.Columns table) (contents h r))).
Proof.
  revert h. induction rows as [|row rest IH]; intros h.
  - exists None, h. split; [done|]. by left.
  - cbn [rowsLoop]. case_bool_decide as Hlen.
    + eexists _, h. split; [done|]. by left.
    + destruct (columnsLoop_row row _ h Hlen) as (h1 & -> & Hh1). simpl.
      destruct (IH h1) as (err & h' & -> & Hh').
      exists err, h'. split; [done|]. intros r.
      specialize (Hh' r). rewrite !Hh1 in Hh'. clear Hh1.
      destruct (decide (r = row)) as [->|Hr].
      * right. split; [apply list_elem_of_here|]. split; [done|].
        destruct Hh' as [->|(_ & _ & ->)]; [done|].
        apply normalizeRow_idemp.
      * destruct Hh' as [->|(Hin & ? & ->)]; [by left|].
        right. split; [by apply list_elem_of_further|done].
Qed.

Lemma rowsLoop_spec (table : Table.t) (rows : list RowData) (h : store) :
  Forall (λ row, length (contents h row) = length (Table.Columns table)) rows →
  ∃ h', rowsLoop table rows h = Ret (None, h') ∧
    ∀ r, contents h' r
         = if decide (r ∈ rows)
           then normalizeRow (Table.Columns table) (contents h r)
           else contents h r.
Proof.
  revert h. induction rows as [|row rest IH]; intros h Hall.
  - exists h. split; [done|]. intros r. rewrite decide_False; [done|].
    apply not_elem_of_nil.
  - inversion_clear Hall as [|?? Hlen Hrest].
    cbn [rowsLoop]. rewrite bool_decide_false by (by intros []).
    destruct (columnsLoop_row row _ h Hlen) as (h1 & -> & Hh1). simpl.
    destruct (IH h1) as (h' & -> & Hh').
    { eapply Forall_impl; [exact Hrest|]. intros r Hr. simpl in Hr.
      rewrite Hh1. case_decide as E; [|done]. subst r.
      by rewrite normalizeRow_length. }
    exists h'. split; [done|]. intros r. rewrite Hh', !Hh1.
    destruct (decide (r = row)) as [->|Hr].
    + rewrite (decide_True (P := row ∈ row :: rest)) by apply list_elem_of_here.
      case_decide; [apply normalizeRow_idemp|done].
    + destruct (decide (r ∈ rest)) as [Hin|Hin].
      * by rewrite decide_True by (by apply list_elem_of_further).
      * rewrite decide_False; [done|].
        intros [?|?]%elem_of_cons; done.
Qed.

Lemma rowsLoop_mismatch (table : Table.t) (rows : list RowData) (h : store) :
  Exists (λ row, length (contents h row) ≠ length (Table.Columns table)) rows →
  ∃ n h', n ≠ length (Table.Columns table) ∧
    rowsLoop table rows h
    = Ret (Some (ErrColumnCount (Table.Schema table) (Table.Name table)
                   (length (Table.Columns table)) n), h').
Proof.
  revert h. induction rows as [|row rest IH]; intros h Hex.
  - by apply Exists_nil in Hex.
  - cbn [rowsLoop]. case_bool_decide as Hlen; [eauto|].
    destruct (columnsLoop_row row _ h Hlen) as (h1 & -> & Hh1). simpl.
    apply IH. apply Exists_cons in Hex as [?|Hex]; [done|].
    eapply Exists_impl; [exact Hex|]. intros r Hr. simpl in Hr.
    rewrite Hh1. case_decide as E; [|done]. subst r. done.
Qed.

End store_lemmas.

(** ** The constructors of the events *)

Section event_loops.
Local Open Scope nat_scope.

Lemma setIndex_in_range {A : Type} (l : list A) (i : nat) (x : A) :
  i < length l → setIndex l i x = Ret (<[i := x]> l).
Proof.
  intros H. unfold setIndex.
  by destruct (Nat.ltb_spec i (length l)) as [_|?]; [|lia].
Qed.

Lemma setIndex_out_of_range {A : Type} (l : list A) (i : nat) (x : A) :
  length l ≤ i →
  setIndex l i x = Panic (IndexOutOfRange (Z.of_nat i) (length l)).
Proof.
  intros H. unfold setIndex.
  by destruct (Nat.ltb_spec i (length l)) as [?|_]; [lia|].
Qed.

Lemma insertLoop_spec (table : Table.t) (rows : list RowData) (i : nat)
    (events : list (option DMLEvent)) :
  length events = i + length rows →
  insertLoop table i rows events
  = Ret (take i events
         ++ ((λ row, Some (BinlogInsertEvent row (DMLEventBase.mk table)))
               <$> rows)).
Proof.
  revert i events. induction rows as [|row rest IH]; intros i events Hlen.
  - simpl in *. rewrite app_nil_r, take_ge; [done|lia].
  - simpl in Hlen. cbn [insertLoop].
    rewrite setIndex_in_range by lia. go_step.
    rewrite IH by (rewrite length_insert; lia).
    rewrite (take_S_r _ _ (Some (BinlogInsertEvent row (DMLEventBase.mk table))))
      by (apply list_lookup_insert_eq; lia).
    rewrite take_insert_ge by lia. by rewrite <- app_assoc.
Qed.

Lemma NewBinlogInsertEvents_spec (table : Table.t) (rowsEvent : RowsEvent.t) :
  NewBinlogInsertEvents table rowsEvent
  = Ret ((λ row, Some (BinlogInsertEvent row (DMLEventBase.mk table)))
           <$> RowsEvent.Rows rowsEvent, None).
Proof.
  unfold NewBinlogInsertEvents, makeEvents.
  by rewrite insertLoop_spec by (by rewrite length_replicate).
Qed.

Lemma deleteLoop_spec (table : Table.t) (rows : list RowData) (i : nat)
    (events : list (option DMLEvent)) :
  length events = i + length rows →
  deleteLoop table i rows events
  = Ret (take i events
         ++ ((λ row, Some (BinlogDeleteEvent row (DMLEventBase.mk table)))
               <$> rows)).
Proof.
  revert i events. induction rows as [|row rest IH]; intros i events Hlen.
  - simpl in *. rewrite app_nil_r, take_ge; [done|lia].
  - simpl in Hlen. cbn [deleteLoop].
    rewrite setIndex_in_range by lia. go_step.
    rewrite IH by (rewrite length_insert; lia).
    rewrite (take_S_r _ _ (Some (BinlogDeleteEvent row (DMLEventBase.mk table))))
      by (apply list_lookup_insert_eq; lia).
    rewrite take_insert_ge by lia. by rewrite <- app_assoc.
Qed.

Lemma NewBinlogDeleteEvents_spec (table : Table.t) (rowsEvent : RowsEvent.t) :
  NewBinlogDeleteEvents table rowsEvent
  = Ret ((λ row, Some (BinlogDeleteEvent row (DMLEventBase.mk table)))
           <$> RowsEvent.Rows rowsEvent, None).
Proof.
  unfold NewBinlogDeleteEvents, makeEvents.
  by rewrite deleteLoop_spec by (by rewrite length_replicate).
Qed.

(** With an even number of rows, the loop of [NewBinlogUpdateEvents] run
    from index [i] fills the entries [k] with [i ≤ 2 k] from the pair of rows
    [2 k], [2 k + 1], and keeps the entries before. *)
Lemma updateLoop_even (table : Table.t) (rowsEvent : RowsEvent.t)
    (rest : list RowData) (i : nat) (events : list (option DMLEvent)) :
  length (RowsEvent.Rows rowsEvent) mod 2 = 0 →
  drop i (RowsEvent.Rows rowsEvent) = rest →
  length events = length (RowsEvent.Rows rowsEvent) / 2 →
  ∃ events',
    updateLoop table rowsEvent i rest events = Ret events'
    ∧ length events' = length events
    ∧ ∀ k,
        (2 * k < i → events' !! k = events !! k)
        ∧ (i ≤ 2 * k → 2 * k + 1 < length (RowsEvent.Rows rowsEvent) →
           ∃ old new,
             RowsEvent.Rows rowsEvent !! (2 * k) = Some old
             ∧ RowsEvent.Rows rowsEvent !! (2 * k + 1) = Some new
             ∧ events' !! k
               = Some (Some (BinlogUpdateEvent old new (DMLEventBase.mk table)))).
Proof.
  intros Heven. revert i events.
  induction rest as [|row rest IH]; intros i events Hdrop Hlen.
  - exists events. split; [done|]. split; [done|]. intros k. split; [done|].
    intros Hi Hk. apply (f_equal length) in Hdrop.
    rewrite length_drop in Hdrop. simpl in Hdrop. lia.
  - assert (Hrow : RowsEvent.Rows rowsEvent !! i = Some row).
    { rewrite <- (Nat.add_0_r i), <- lookup_drop, Hdrop. done. }
    assert (Hrest : drop (S i) (RowsEvent.Rows rowsEvent) = rest).
    { rewrite (drop_S _ _ _ Hrow) in Hdrop. by inversion Hdrop. }
    pose proof (lookup_lt_Some _ _ _ Hrow) as Hi.
    cbn [updateLoop].
    destruct (Nat.eqb_spec (i mod 2) 1) as [Hodd|Hev].
    + destruct (IH (S i) events Hrest Hlen) as (events' & Hrun & Hlen' & Hk).
      exists events'. split; [done|]. split; [done|]. intros k.
      destruct (Hk k) as [Hk1 Hk2]. split.
      * intros ?. apply Hk1. lia.
      * intros ??. apply Hk2; lia.
    + destruct (lookup_lt_is_Some_2 (RowsEvent.Rows rowsEvent) (i + 1))
        as [new Hnew]; [lia|].
      rewrite (index_lookup _ _ _ Hnew). go_step.
      rewrite setIndex_in_range by lia. go_step.
      destruct (IH (S i)
                  (<[i / 2 := Some (BinlogUpdateEvent row new
                                      (DMLEventBase.mk table))]> events))
        as (events' & Hrun & Hlen' & Hk); [done|by rewrite length_insert|].
      exists events'. split; [done|].
      split; [by rewrite Hlen', length_insert|]. intros k.
      destruct (Hk k) as [Hk1 Hk2]. split.
      * intros ?. rewrite Hk1 by lia.
        apply list_lookup_insert_ne. lia.
      * intros ??. destruct (decide (2 * k = i)) as [E|E].
        -- exists row, new. rewrite E. split; [done|]. split; [done|].
           rewrite Hk1 by lia.
           replace k with (i / 2) by lia.
           apply list_lookup_insert_eq. lia.
        -- apply Hk2; lia.
Qed.

(** With an odd number of rows, the loop run from any index before the end
    stops at the last row, on the read of [rowsEvent.Rows[i+1]]. *)
Lemma updateLoop_odd (table : Table.t) (rowsEvent : RowsEvent.t)
    (rest : list RowData) (i : nat) (events : list (option DMLEvent)) :
  length (RowsEvent.Rows rowsEvent) mod 2 = 1 →
  drop i (RowsEvent.Rows rowsEvent) = rest →
  i < length (RowsEvent.Rows rowsEvent) →
  length events = length (RowsEvent.Rows rowsEvent) / 2 →
  updateLoop table rowsEvent i rest events
  = Panic (IndexOutOfRange (Z.of_nat (length (RowsEvent.Rows rowsEvent)))
             (length (RowsEvent.Rows rowsEvent))).
Proof.
  intros Hodd. revert i events.
  induction rest as [|row rest IH]; intros i events Hdrop Hi Hlen.
  - apply (f_equal length) in Hdrop. rewrite length_drop in Hdrop.
    simpl in Hdrop. lia.
  - assert (Hrow : RowsEvent.Rows rowsEvent !! i = Some row).
    { rewrite <- (Nat.add_0_r i), <- lookup_drop, Hdrop. done. }
    assert (Hrest : drop (S i) (RowsEvent.Rows rowsEvent) = rest).
    { rewrite (drop_S _ _ _ Hrow) in Hdrop. by inversion Hdrop. }
    cbn [updateLoop].
    destruct (Nat.eqb_spec (i mod 2) 1) as [Hiodd|Hiev].
    + apply IH; [done|lia|done].
    + destruct (decide (i + 1 < length (RowsEvent.Rows rowsEvent))) as [Hlt|Hge].
      * destruct (lookup_lt_is_Some_2 (RowsEvent.Rows rowsEvent) (i + 1))
          as [new Hnew]; [lia|].
        rewrite (index_lookup _ _ _ Hnew). go_step.
        rewrite setIndex_in_range by lia. go_step.
        apply IH; [done|lia|by rewrite length_insert].
      * rewrite index_out_of_range by lia. go_step.
        replace (i + 1) with (length (RowsEvent.Rows rowsEvent)) by lia.
        done.
Qed.

End event_loops.

(** ** The dispatch entry point *)

Lemma NewBinlogDMLEvents_rows (table : Table.t) (ev : BinlogEvent.t)
    (rowsEvent : RowsEvent.t) (h : store) :
  BinlogEvent.Event ev = BinlogEvent.IsRowsEvent rowsEvent →
  Forall (λ row, length (contents h row) = length (Table.Columns table))
    (RowsEvent.Rows rowsEvent) →
  ∃ h',
    rowsLoop table (RowsEvent.Rows rowsEvent) h = Ret (None, h')
    ∧ (∀ r, contents h' r
            = if decide (r ∈ RowsEvent.Rows rowsEvent)
              then normalizeRow (Table.Columns table) (contents h r)
              else contents h r)
    ∧ NewBinlogDMLEvents table ev h
      = (r ← dispatchOnEventType table (BinlogEvent.Header_EventType ev)
               rowsEvent;
         Ret (r, h')).
Proof.
  intros Hev Hall.
  destruct (rowsLoop_spec table _ h Hall) as (h' & Hrun & Hh').
  exists h'. split; [done|]. split; [done|].
  unfold NewBinlogDMLEvents. rewrite Hev, Hrun. done.
Qed.

(** ** Unsigned literals *)

Lemma string_of_uint_no_minus (n : N) :
  leadingMinus (NilZero.string_of_uint (N.to_uint n)) = false.
Proof. by destruct (N.to_uint n). Qed.

Lemma literal_unsignedCell (w : width) (u : Z) :
  literal (unsignedCell w u) = NilZero.string_of_uint (N.to_uint (Z.to_N u)).
Proof. by destruct w. Qed.

Lemma unsignedOf_signedCell (w : width) (v : Z) :
  unsignedOf (signedCell w v) = Some (unsignedCell w (v mod 2 ^ bits w)).
Proof. by destruct w. Qed.

Lemma supported_unsignedCell (w : width) (u : Z) : supported (unsignedCell w u).
Proof. by destruct w. Qed.

(** ** The order on binlog positions *)

Lemma ascii_compare_lt (c d : ascii) :
  Ascii.compare c d = Lt ↔ (N_of_ascii c < N_of_ascii d)%N.
Proof. unfold Ascii.compare. apply N.compare_lt_iff. Qed.

Lemma string_compare_refl (s : string) : String.compare s s = Eq.
Proof.
  induction s as [|c s IH]; simpl; [done|].
  unfold Ascii.compare. by rewrite N.compare_refl.
Qed.

Lemma string_compare_lt (s t : string) : String.compare s t = Lt ↔ lexLt s t.
Proof.
  revert t. induction s as [|c s IH]; intros [|d t]; simpl.
  - split; [done|]. inversion 1.
  - split; [constructor|done].
  - split; [done|]. inversion 1.
  - destruct (Ascii.compare c d) eqn:E.
    + apply Ascii.compare_eq_iff in E as ->. rewrite IH. split.
      * by constructor.
      * inversion 1 as [|???? Hlt|]; subst; [lia|done].
    + split; [|done]. intros _. constructor. by apply ascii_compare_lt.
    + split; [done|]. unfold Ascii.compare in E.
      apply N.compare_gt_iff in E.
      inversion 1 as [|???? Hlt|]; subst; lia.
Qed.

Lemma Compare_ge_0 (p q : Position.t) : Compare p q >= 0 ↔ positionLe q p.
Proof.
  unfold Compare, positionLe.
  destruct (String.compare (Position.Name p) (Position.Name q)) eqn:E.
  - apply String.compare_eq_iff in E. rewrite E.
    destruct (Z.gtb_spec (Position.Pos p) (Position.Pos q));
      [|destruct (Z.ltb_spec (Position.Pos p) (Position.Pos q))].
    + split; [intros _; right; split; [done|lia]|lia].
    + split; [lia|]. intros [Hlt|[_ ?]]; [|lia].
      apply string_compare_lt in Hlt. by rewrite string_compare_refl in Hlt.
    + split; [intros _; right; split; [done|lia]|lia].
  - split; [lia|]. intros [Hlt|[Heq _]].
    + apply string_compare_lt in Hlt.
      rewrite String.compare_antisym, E in Hlt. done.
    + rewrite Heq, string_compare_refl in E. done.
  - split; [|lia]. intros _. left. apply string_compare_lt.
    by rewrite String.compare_antisym, E.
Qed.

(** ** The bounded retry loop *)

Lemma retryLoop_success {S : Type} (n : nat) (f : S → option error * S)
    (s s' : S) (last : option error) :
  retryLoop (Datatypes.S n) f s last = (None, s') →
  ∃ s0, f s0 = (None, s').
Proof.
  revert s last. induction n as [|n IH]; intros s last.
  - simpl. destruct (f s) as [[e|] s1] eqn:E; [done|].
    intros [= <-]. eauto.
  - change (retryLoop (Datatypes.S (Datatypes.S n)) f s last)
      with (match f s with
            | (None, s1) => (None, s1)
            | (Some e, s1) => retryLoop (Datatypes.S n) f s1 (Some e)
            end).
    destruct (f s) as [[e|] s1] eqn:E; [apply IH|].
    intros [= <-]. eauto.
Qed.

Lemma retryLoop_first {S : Type} (n : nat) (f : S → option error * S)
    (s s' : S) (last : option error) :
  f s = (None, s') → retryLoop (Datatypes.S n) f s last = (None, s').
Proof. intros H. simpl. by rewrite H. Qed.

(** ** Rendering of the statements *)

Lemma project_cons (i : nat) (rest : list nat) (row : list cell) :
  project (i :: rest) row
  = match row !! i with
    | Some v => v :: project rest row
    | None => project rest row
    end.
Proof. reflexivity. Qed.

Lemma project_length (indices : list nat) (row : list cell) :
  (length (project indices row) ≤ length indices)%nat.
Proof.
  induction indices as [|i rest IH]; [done|].
  rewrite project_cons. destruct (row !! i); simpl; lia.
Qed.

Lemma project_supported (indices : list nat) (row : list cell) :
  Forall supported row → Forall supported (project indices row).
Proof.
  intros Hrow. induction indices as [|i rest IH]; [constructor|].
  rewrite project_cons. destruct (row !! i) as [v|] eqn:Hv; [|done].
  constructor; [|done]. exact (Forall_lookup_1 supported row i v Hrow Hv).
Qed.

Lemma project_lookup (indices : list nat) (row : list cell) (k : nat) :
  Forall (λ i, (i < length row)%nat) indices →
  project indices row !! k = indices !! k ≫= λ i, row !! i.
Proof.
  revert k. induction indices as [|i rest IH]; intros k Hin; [done|].
  inversion_clear Hin as [|?? Hi Hrest]. rewrite project_cons.
  destruct (lookup_lt_is_Some_2 row i Hi) as [v Hv]. rewrite Hv.
  destruct k as [|k]; simpl; [done|]. by apply IH.
Qed.

Lemma AsSQLString_update (h : store) (oldValues newValues : RowData)
    (base : DMLEventBase.t) (intersection : Table.t) :
  let table := DMLEventBase.table base in
  let columns := (matched table intersection).*2 in
  let indices := (matched table intersection).*1 in
  Table.Columns table ≠ [] →
  Table.Columns intersection ≠ [] →
  length (contents h oldValues) = length (Table.Columns table) →
  length (contents h newValues) = length (Table.Columns table) →
  Forall supported (contents h oldValues) →
  Forall supported (contents h newValues) →
  AsSQLString h (BinlogUpdateEvent oldValues newValues base) intersection
  = Ret ("UPDATE " +:+
         QuotedTableNameFromString (Table.Schema intersection)
           (Table.Name intersection) +:+
         " SET " +:+
         String.concat ","
           (zip_with setFragment columns
              (project indices (contents h newValues))) +:+
         " WHERE " +:+
         String.concat " AND "
           (zip_with whereFragment columns
              (project indices (contents h oldValues))), None).
Proof.
  intros table columns indices Ht Hi Hold Hnew Hsold Hsnew.
  unfold AsSQLString. fold table.
  rewrite loadColumnsAndValuesInIntersection_spec
    by (done || by repeat constructor).
  fold columns indices. go_step. cbn [fmap list_fmap].
  rewrite index_1. go_step.
  rewrite buildStringMapForSet_join; cycle 1.
  { unfold columns, indices. rewrite !length_fmap.
    etrans; [apply project_length|]. by rewrite length_fmap. }
  { by apply project_supported. }
  go_step. rewrite index_0. go_step.
  rewrite buildStringMapForWhere_join; cycle 1.
  { unfold columns, indices. rewrite !length_fmap.
    etrans; [apply project_length|]. by rewrite length_fmap. }
  { by apply project_supported. }
  done.
Qed.

Lemma AsSQLString_insert (h : store) (newValues : RowData)
    (base : DMLEventBase.t) (intersection : Table.t) :
  let table := DMLEventBase.table base in
  let columns := (matched table intersection).*2 in
  let indices := (matched table intersection).*1 in
  Table.Columns table ≠ [] →
  Table.Columns intersection ≠ [] →
  length (contents h newValues) = length (Table.Columns table) →
  Forall supported (contents h newValues) →
  AsSQLString h (BinlogInsertEvent newValues base) intersection
  = Ret ("INSERT IGNORE INTO " +:+
         QuotedTableNameFromString (Table.Schema intersection)
           (Table.Name intersection) +:+
         " (" +:+ String.concat "," columns +:+ ")" +:+
         " VALUES (" +:+
         String.concat ","
           (literal <$> project indices (contents h newValues)) +:+
         ")", None).
Proof.
  intros table columns indices Ht Hi Hnew Hsnew.
  unfold AsSQLString. fold table.
  rewrite loadColumnsAndValuesInIntersection_spec
    by (done || by repeat constructor).
  fold columns indices. go_step. cbn [fmap list_fmap].
  rewrite index_0. go_step.
  rewrite buildStringListForValues_join by (by apply project_supported).
  done.
Qed.

(** * Properties of the specification *)

(** ** Primary keys *)

Lemma pkFromEventData_unsigned (base : DMLEventBase.t) (rowData : list cell)
    (pkIndex : Z) (rest : list Z) (w : width) (v : Z) :
  length rowData = length (Table.Columns (DMLEventBase.table base)) →
  Table.PKColumns (DMLEventBase.table base) = pkIndex :: rest →
  0 <= pkIndex →
  rowData !! Z.to_nat pkIndex = Some (unsignedCell w v) →
  pkFromEventData base rowData = Panic (ReflectValueInt (unsignedCell w v)).
Proof.
  intros Hlen Hpk Hnonneg Hcell. unfold pkFromEventData.
  rewrite (verify_same_length _ _ Hlen), Hpk, index_0. go_step.
  unfold GetUint64.
  rewrite <- (Z2Nat.id pkIndex Hnonneg), (index_lookup _ _ _ Hcell). go_step.
  by destruct w.
Qed.

(** C1.  The claim: when the primary-key cell of a DML event is already an
    unsigned integer of any width, [PK()] returns that value widened to
    [uint64], without error.  The code does not: [GetUint64] sends every cell
    that is not a byte slice to [reflect.Value.Int], which panics on a value
    of an unsigned kind.  This holds for every row of the width of the table
    whose cell at [PKColumns[0]] is unsigned, and in particular for the event
    [NewBinlogDMLEvents] itself builds from the row [int64(5)] of an unsigned
    primary-key column, whose cell it has normalized to [uint64(5)]. *)
Theorem PK_panics_on_unsigned_cell :
  (∀ (base : DMLEventBase.t) (rowData : list cell) (pkIndex : Z)
     (rest : list Z) (w : width) (v : Z),
     length rowData = length (Table.Columns (DMLEventBase.table base)) →
     Table.PKColumns (DMLEventBase.table base) = pkIndex :: rest →
     0 <= pkIndex →
     rowData !! Z.to_nat pkIndex = Some (unsignedCell w v) →
     pkFromEventData base rowData = Panic (ReflectValueInt (unsignedCell w v))
     ∧ ∀ h row,
         contents h row = rowData →
         PK h (BinlogInsertEvent row base)
         = Panic (ReflectValueInt (unsignedCell w v)))
  ∧ (∃ e h',
       NewBinlogDMLEvents tableUnsignedId (oneRowEvent WRITE_ROWS_EVENTv2)
         (storeOfId 5)
       = Ret (([Some e], None), h')
       ∧ contents h' (Some 0%nat) = [CUint64 5]
       ∧ PK h' e = Panic (ReflectValueInt (CUint64 5))).
Proof.
  split.
  - intros base rowData pkIndex rest w v Hlen Hpk Hnonneg Hcell.
    pose proof (pkFromEventData_unsigned _ _ _ _ _ _ Hlen Hpk Hnonneg Hcell)
      as Hpanic.
    split; [done|]. intros h row <-. done.
  - eexists _, _. split; [vm_compute; reflexivity|]. by vm_compute.
Qed.

Lemma PK_panics_on_unsigned_cell_witness :
  pkFromEventData (DMLEventBase.mk tableUnsignedId) [CUint64 5]
  = Panic (ReflectValueInt (CUint64 5)).
Proof.
  apply (proj1 PK_panics_on_unsigned_cell
           (DMLEventBase.mk tableUnsignedId) [CUint64 5] 0 [] W64 5);
    [reflexivity|reflexivity|lia|reflexivity].
Defined.

(** ** UPDATE statements *)

(** C2.  An UPDATE statement has its SET list built from the new row image
    and its WHERE list from the old row image, column by column over the
    matched columns; a column whose old value is NULL contributes the
    fragment [c IS NULL].  For columns (id, name), old row (1, NULL) and new
    row (1, 'a') the statement is the one the specification gives. *)
Theorem update_sets_new_where_old :
  (∀ (h : store) (oldValues newValues : RowData) (base : DMLEventBase.t)
     (intersection : Table.t),
     let table := DMLEventBase.table base in
     let columns := (matched table intersection).*2 in
     let indices := (matched table intersection).*1 in
     Table.Columns table ≠ [] →
     Table.Columns intersection ≠ [] →
     length (contents h oldValues) = length (Table.Columns table) →
     length (contents h newValues) = length (Table.Columns table) →
     Forall supported (contents h oldValues) →
     Forall supported (contents h newValues) →
     AsSQLString h (BinlogUpdateEvent oldValues newValues base) intersection
     = Ret ("UPDATE " +:+
            QuotedTableNameFromString (Table.Schema intersection)
              (Table.Name intersection) +:+
            " SET " +:+
            String.concat ","
              (zip_with setFragment columns
                 (project indices (contents h newValues))) +:+
            " WHERE " +:+
            String.concat " AND "
              (zip_with whereFragment columns
                 (project indices (contents h oldValues))), None))
  ∧ (∀ (column : string) (value : cell),
       isNilValue value = true →
       whereFragment column value = column +:+ " IS NULL"
       ∧ ∀ buffer,
           whereLoop [column] 0 [value] buffer
           = Ret (buffer +:+ column +:+ " IS NULL"))
  ∧ AsSQLString storeIdName
      (BinlogUpdateEvent (Some 0%nat) (Some 1%nat)
         (DMLEventBase.mk tableIdName)) tableIdName
    = Ret ("UPDATE `s`.`t` SET `id`=1,`name`='a' WHERE `id`=1 AND `name` IS NULL",
           None).
Proof.
  split; [|split].
  - intros. by apply AsSQLString_update.
  - intros column value Hnil. unfold whereFragment. rewrite Hnil.
    split; [done|]. intros buffer. cbn [whereLoop].
    change (0 <? 0)%nat with false. cbv iota.
    rewrite index_0. go_step. rewrite Hnil. by rewrite append_assoc.
  - by vm_compute.
Qed.

Lemma update_sets_new_where_old_witness :
  AsSQLString storeIdName
    (BinlogUpdateEvent (Some 0%nat) (Some 1%nat) (DMLEventBase.mk tableIdName))
    tableIdName
  = Ret ("UPDATE " +:+ QuotedTableNameFromString "s" "t" +:+
         " SET " +:+
         String.concat ","
           [setFragment "`id`" (CInt64 1); setFragment "`name`" (CString "a")] +:+
         " WHERE " +:+
         String.concat " AND "
           [whereFragment "`id`" (CInt64 1); whereFragment "`name`" CNil],
         None).
Proof.
  apply (proj1 update_sets_new_where_old storeIdName (Some 0%nat) (Some 1%nat)
           (DMLEventBase.mk tableIdName) tableIdName);
    [done|done|reflexivity|reflexivity| |]; vm_compute; repeat constructor.
Defined.

(** ** Intersection projection *)

Lemma matched_elem (table intersection : Table.t) (i : nat) (q : string) :
  (i, q) ∈ matched table intersection
  ↔ ∃ col, Table.Columns table !! i = Some col
      ∧ TableColumn.Name col ∈ TableColumn.Name <$> Table.Columns intersection
      ∧ q = quoteField (TableColumn.Name col).
Proof.
  unfold matched. rewrite list_elem_of_fmap. split.
  - intros ([j col] & [= -> ->] & Hin).
    apply list_elem_of_filter in Hin as [Hname Hin].
    apply elem_of_lookup_imap in Hin as (n & c' & [= -> ->] & Hn).
    by exists c'.
  - intros (col & Hcol & Hname & ->). exists (i, col). split; [done|].
    apply list_elem_of_filter. split; [done|].
    apply elem_of_lookup_imap. by exists i, col.
Qed.

Lemma imap_pair_fst {A : Type} (l : list A) (i : nat) :
  (imap (λ j x, ((i + j)%nat, x)) l).*1 = seq i (length l).
Proof.
  revert i. induction l as [|x l IH]; intros i; [done|].
  rewrite imap_cons. cbn [fmap list_fmap length seq fst].
  rewrite Nat.add_0_r. f_equal. rewrite <- IH. f_equal.
  apply imap_ext. intros j y _. simpl. f_equal. lia.
Qed.

(** The matched indices are a sublist of [0, 1, ..., n-1]: source order. *)
Lemma matched_source_order (table intersection : Table.t) :
  (matched table intersection).*1
    `sublist_of` seq 0 (length (Table.Columns table)).
Proof.
  unfold matched. rewrite <- list_fmap_compose.
  rewrite <- (imap_pair_fst (Table.Columns table) 0).
  apply (fmap_sublist fst), sublist_filter.
Qed.

(** C7.  The projection keeps exactly the source columns whose names appear
    in the intersection schema, in source order, and reduces each row image
    to the cells at their indices; an INSERT statement lists these columns
    and cells.  For source columns (a, b, c), intersection (a, c) and row
    (1, 2, 3) the statement is the one the specification gives. *)
Theorem projection_on_intersection :
  (∀ (table intersection : Table.t) (images : list (list cell)),
     Table.Columns table ≠ [] →
     Table.Columns intersection ≠ [] →
     Forall (λ values, length values = length (Table.Columns table)) images →
     loadColumnsAndValuesInIntersection table intersection images
     = Ret ((matched table intersection).*2,
            project (matched table intersection).*1 <$> images, None)
     ∧ (∀ i q,
          (i, q) ∈ matched table intersection
          ↔ ∃ col, Table.Columns table !! i = Some col
              ∧ TableColumn.Name col
                ∈ TableColumn.Name <$> Table.Columns intersection
              ∧ q = quoteField (TableColumn.Name col))
     ∧ (matched table intersection).*1
         `sublist_of` seq 0 (length (Table.Columns table))
     ∧ (∀ values k,
          values ∈ images →
          project (matched table intersection).*1 values !! k
          = (matched table intersection).*1 !! k ≫= λ i, values !! i))
  ∧ (∀ (h : store) (newValues : RowData) (base : DMLEventBase.t)
       (intersection : Table.t),
       let table := DMLEventBase.table base in
       Table.Columns table ≠ [] →
       Table.Columns intersection ≠ [] →
       length (contents h newValues) = length (Table.Columns table) →
       Forall supported (contents h newValues) →
       AsSQLString h (BinlogInsertEvent newValues base) intersection
       = Ret ("INSERT IGNORE INTO " +:+
              QuotedTableNameFromString (Table.Schema intersection)
                (Table.Name intersection) +:+
              " (" +:+
              String.concat "," (matched table intersection).*2 +:+ ")" +:+
              " VALUES (" +:+
              String.concat ","
                (literal <$> project (matched table intersection).*1
                               (contents h newValues)) +:+
              ")", None))
  ∧ AsSQLString storeABC
      (BinlogInsertEvent (Some 0%nat) (DMLEventBase.mk tableABC)) tableAC
    = Ret ("INSERT IGNORE INTO `s`.`t` (`a`,`c`) VALUES (1,3)", None).
Proof.
  split; [|split].
  - intros table intersection images Ht Hi Hlen.
    split; [by apply loadColumnsAndValuesInIntersection_spec|].
    split; [apply matched_elem|]. split; [apply matched_source_order|].
    intros values k Hin. apply project_lookup.
    rewrite Forall_forall in Hlen. rewrite (Hlen _ Hin).
    apply matched_in_range.
  - intros. by apply AsSQLString_insert.
  - by vm_compute.
Qed.

Lemma projection_on_intersection_witness :
  loadColumnsAndValuesInIntersection tableABC tableAC
    [[CInt64 1; CInt64 2; CInt64 3]]
  = Ret (["`a`"; "`c`"], [[CInt64 1; CInt64 3]], None).
Proof.
  apply (proj1 (proj1 projection_on_intersection tableABC tableAC
                  [[CInt64 1; CInt64 2; CInt64 3]] ltac:(done) ltac:(done)
                  ltac:(by repeat constructor))).
Defined.

(** ** Unsigned columns *)

Lemma literal_no_minus (col : TableColumn.t) (v : cell) :
  TableColumn.IsUnsigned col = true →
  (∀ g, v ≠ CFloat64 g ∧ v ≠ CFloat32 g) →
  leadingMinus (literal (normalizeCell col v)) = false.
Proof.
  intros Hu Hfloat. unfold normalizeCell. rewrite Hu.
  destruct v as [| | | | | | | | | | | |[b|]|[]|g|g| |]; simpl;
    try apply string_of_uint_no_minus; try done;
    unfold literal; simpl;
    unfold AppendUint, appendEscapedString, appendEscapedBuffer;
    rewrite ?append_nil_l; try apply string_of_uint_no_minus;
    try (rewrite <- (append_nil_r "'") at 1;
         by rewrite appendQuoteDoubled_append);
    try (rewrite <- (append_nil_r "_binary'") at 1;
         by rewrite appendQuoteDoubled_append).
  - by destruct (Hfloat g) as [? _].
  - by destruct (Hfloat g) as [_ ?].
Qed.

(** C3, as the specification states it, fails: the type switch of the
    dispatch has cases for the signed integers only, so a float cell of an
    unsigned column is left as it is and rendered with its sign.  The cell
    [float64(-1.5)] renders in the INSERT statement as -1.5. *)
Lemma float_cell_of_unsigned_column_keeps_its_minus :
  ¬ (∀ (table : Table.t) (ev : BinlogEvent.t) (rowsEvent : RowsEvent.t)
       (h h' : store) (events : list (option DMLEvent)) (err : option error)
       (row : RowData) (i : nat) (col : TableColumn.t) (v : cell),
       BinlogEvent.Event ev = BinlogEvent.IsRowsEvent rowsEvent →
       NewBinlogDMLEvents table ev h = Ret ((events, err), h') →
       row ∈ RowsEvent.Rows rowsEvent →
       Table.Columns table !! i = Some col →
       TableColumn.IsUnsigned col = true →
       contents h' row !! i = Some v →
       ∀ buffer lit,
         appendEscapedValue buffer v = Ret (buffer +:+ lit) →
         leadingMinus lit = false)
  ∧ ∃ e h',
      NewBinlogDMLEvents tableUnsignedRatio (oneRowEvent WRITE_ROWS_EVENTv2)
        (storeOfCell (CFloat64 "-1.5"))
      = Ret (([Some e], None), h')
      ∧ contents h' (Some 0%nat) = [CFloat64 "-1.5"]
      ∧ AsSQLString h' e tableUnsignedRatio
        = Ret ("INSERT IGNORE INTO `s`.`t` (`ratio`) VALUES (-1.5)", None).
Proof.
  assert (Hrun : ∃ e h',
            NewBinlogDMLEvents tableUnsignedRatio
              (oneRowEvent WRITE_ROWS_EVENTv2) (storeOfCell (CFloat64 "-1.5"))
            = Ret (([Some e], None), h')
            ∧ contents h' (Some 0%nat) = [CFloat64 "-1.5"]
            ∧ AsSQLString h' e tableUnsignedRatio
              = Ret ("INSERT IGNORE INTO `s`.`t` (`ratio`) VALUES (-1.5)",
                     None)).
  { eexists _, _. split; [vm_compute; reflexivity|]. by vm_compute. }
  split; [|exact Hrun].
  destruct Hrun as (e & h' & Hrun & Hrow & _). intros H.
  specialize (H tableUnsignedRatio (oneRowEvent WRITE_ROWS_EVENTv2)
                (RowsEvent.mk [Some 0%nat]) _ h' _ _ (Some 0%nat) 0%nat
                (TableColumn.mk "ratio" true) (CFloat64 "-1.5")
                eq_refl Hrun).
  rewrite Hrow in H.
  specialize (H ltac:(apply list_elem_of_here) eq_refl eq_refl eq_refl
                EmptyString "-1.5" eq_refl).
  done.
Qed.

(** C3, amended.  In a column flagged unsigned, a signed-integer cell of
    width [w] is replaced, before the dispatch on the event type, by the
    unsigned integer of the same width with the same bits, and its literal
    has no leading minus sign; so has the literal of every cell of such a
    column that is not a float.  A float cell is not reinterpreted: it is
    rendered as its formatted text, sign included.  The cell [int64(-1)] of
    an unsigned BIGINT column renders in the INSERT statement as
    18446744073709551615. *)
Theorem unsigned_columns_render_unsigned :
  (∀ (table : Table.t) (ev : BinlogEvent.t) (rowsEvent : RowsEvent.t)
     (h : store) (row : RowData) (i : nat) (col : TableColumn.t)
     (w : width) (v : Z),
     BinlogEvent.Event ev = BinlogEvent.IsRowsEvent rowsEvent →
     Forall (λ row, length (contents h row) = length (Table.Columns table))
       (RowsEvent.Rows rowsEvent) →
     row ∈ RowsEvent.Rows rowsEvent →
     Table.Columns table !! i = Some col →
     TableColumn.IsUnsigned col = true →
     contents h row !! i = Some (signedCell w v) →
     ∃ h',
       NewBinlogDMLEvents table ev h
       = (r ← dispatchOnEventType table (BinlogEvent.Header_EventType ev)
                rowsEvent;
          Ret (r, h'))
       ∧ contents h' row !! i = Some (unsignedCell w (v mod 2 ^ bits w))
       ∧ 0 <= v mod 2 ^ bits w < 2 ^ bits w
       ∧ (∀ k, 0 <= k < bits w →
               Z.testbit (v mod 2 ^ bits w) k = Z.testbit v k)
       ∧ ∀ buffer, ∃ lit,
           appendEscapedValue buffer (unsignedCell w (v mod 2 ^ bits w))
           = Ret (buffer +:+ lit)
           ∧ leadingMinus lit = false)
  ∧ (∀ (col : TableColumn.t) (v : cell),
       TableColumn.IsUnsigned col = true →
       (∀ g, v ≠ CFloat64 g ∧ v ≠ CFloat32 g) →
       leadingMinus (literal (normalizeCell col v)) = false)
  ∧ (∀ (col : TableColumn.t) (g buffer : string),
       normalizeCell col (CFloat64 g) = CFloat64 g
       ∧ normalizeCell col (CFloat32 g) = CFloat32 g
       ∧ appendEscapedValue buffer (CFloat64 g) = Ret (buffer +:+ g)
       ∧ appendEscapedValue buffer (CFloat32 g) = Ret (buffer +:+ g))
  ∧ (∃ e h',
       NewBinlogDMLEvents tableUnsignedId (oneRowEvent WRITE_ROWS_EVENTv2)
         (storeOfId (-1))
       = Ret (([Some e], None), h')
       ∧ contents h' (Some 0%nat) = [CUint64 18446744073709551615]
       ∧ AsSQLString h' e tableUnsignedId
         = Ret ("INSERT IGNORE INTO `s`.`t` (`id`) VALUES (18446744073709551615)",
                None)).
Proof.
  split; [|split; [|split]].
  - intros table ev rowsEvent h row i col w v Hev Hall Hrow Hcol Hu Hcell.
    destruct (NewBinlogDMLEvents_rows table ev rowsEvent h Hev Hall)
      as (h' & _ & Hh' & Hrun).
    exists h'. split; [done|]. split; [|split; [|split]].
    + rewrite Hh', decide_True by done.
      rewrite (normalizeRow_lookup _ _ _ _ _ Hcol Hcell).
      unfold normalizeCell. by rewrite Hu, unsignedOf_signedCell.
    + apply Z.mod_pos_bound. by destruct w.
    + intros k Hk. apply Z.mod_pow2_bits_low. lia.
    + intros buffer. eexists. split.
      * apply appendEscapedValue_literal, supported_unsignedCell.
      * rewrite literal_unsignedCell. apply string_of_uint_no_minus.
  - apply literal_no_minus.
  - intros col g buffer. unfold normalizeCell.
    by destruct (TableColumn.IsUnsigned col).
  - eexists _, _. split; [vm_compute; reflexivity|]. by vm_compute.
Qed.

Lemma unsigned_columns_render_unsigned_witness :
  ∃ h',
    NewBinlogDMLEvents tableUnsignedId (oneRowEvent WRITE_ROWS_EVENTv2)
      (storeOfId (-1))
    = (r ← dispatchOnEventType tableUnsignedId WRITE_ROWS_EVENTv2
             (RowsEvent.mk [Some 0%nat]);
       Ret (r, h'))
    ∧ contents h' (Some 0%nat) !! 0%nat
      = Some (unsignedCell W64 (-1 mod 2 ^ bits W64)).
Proof.
  destruct (proj1 unsigned_columns_render_unsigned tableUnsignedId
              (oneRowEvent WRITE_ROWS_EVENTv2) (RowsEvent.mk [Some 0%nat])
              (storeOfId (-1)) (Some 0%nat) 0%nat (TableColumn.mk "id" true)
              W64 (-1) eq_refl ltac:(by repeat constructor)
              ltac:(apply list_elem_of_here) eq_refl eq_refl eq_refl)
    as (h' & Hrun & Hcell & _).
  exists h'. by split.
Defined.

(** ** UPDATE rows events *)

Section update_events.
Local Open Scope nat_scope.

Lemma NewBinlogUpdateEvents_even (table : Table.t) (rowsEvent : RowsEvent.t)
    (N : nat) :
  length (RowsEvent.Rows rowsEvent) = 2 * N →
  ∃ events,
    NewBinlogUpdateEvents table rowsEvent = Ret (events, None)
    ∧ length events = N
    ∧ ∀ i, i < N →
        ∃ e old new,
          events !! i = Some (Some e)
          ∧ RowsEvent.Rows rowsEvent !! (2 * i) = Some old
          ∧ RowsEvent.Rows rowsEvent !! (2 * i + 1) = Some new
          ∧ e = BinlogUpdateEvent old new (DMLEventBase.mk table).
Proof.
  intros Hlen. unfold NewBinlogUpdateEvents.
  destruct (updateLoop_even table rowsEvent (RowsEvent.Rows rowsEvent) 0
              (makeEvents (length (RowsEvent.Rows rowsEvent) / 2)))
    as (events & -> & Hlen' & Hk).
  { lia. }
  { done. }
  { unfold makeEvents. by rewrite length_replicate. }
  exists events. split; [done|].
  unfold makeEvents in Hlen'. rewrite length_replicate in Hlen'.
  split; [lia|]. intros i Hi.
  destruct (Hk i) as [_ (old & new & Hold & Hnew & He)]; [lia..|].
  by exists (BinlogUpdateEvent old new (DMLEventBase.mk table)), old, new.
Qed.

Lemma NewBinlogUpdateEvents_odd (table : Table.t) (rowsEvent : RowsEvent.t) :
  length (RowsEvent.Rows rowsEvent) mod 2 = 1 →
  NewBinlogUpdateEvents table rowsEvent
  = Panic (IndexOutOfRange (Z.of_nat (length (RowsEvent.Rows rowsEvent)))
             (length (RowsEvent.Rows rowsEvent))).
Proof.
  intros Hodd. unfold NewBinlogUpdateEvents.
  rewrite (updateLoop_odd table rowsEvent (RowsEvent.Rows rowsEvent) 0);
    [done|done|done|lia|].
  unfold makeEvents. by rewrite length_replicate.
Qed.

(** C4.  For an UPDATE rows event of [2 N] rows, [NewBinlogUpdateEvents]
    returns exactly [N] update statements, without error, in input order:
    statement [i] has row [2 i] as its old values and row [2 i + 1] as its
    new values.  The dispatch entry point returns the same statements for
    the two UPDATE event types. *)
Theorem update_events_pair_the_rows :
  ∀ (table : Table.t) (rowsEvent : RowsEvent.t) (N : nat),
    length (RowsEvent.Rows rowsEvent) = 2 * N →
    ∃ events,
      NewBinlogUpdateEvents table rowsEvent = Ret (events, None)
      ∧ length events = N
      ∧ (∀ i, i < N →
           ∃ e old new,
             events !! i = Some (Some e)
             ∧ RowsEvent.Rows rowsEvent !! (2 * i) = Some old
             ∧ RowsEvent.Rows rowsEvent !! (2 * i + 1) = Some new
             ∧ OldValues e = old
             ∧ NewValues e = new
             ∧ TableSchema e = table)
      ∧ (∀ (ev : BinlogEvent.t) (h : store),
           BinlogEvent.Event ev = BinlogEvent.IsRowsEvent rowsEvent →
           BinlogEvent.Header_EventType ev = UPDATE_ROWS_EVENTv1
           ∨ BinlogEvent.Header_EventType ev = UPDATE_ROWS_EVENTv2 →
           Forall (λ row, length (contents h row)
                          = length (Table.Columns table))
             (RowsEvent.Rows rowsEvent) →
           ∃ h', NewBinlogDMLEvents table ev h = Ret ((events, None), h')).
Proof.
  intros table rowsEvent N Hlen.
  destruct (NewBinlogUpdateEvents_even table rowsEvent N Hlen)
    as (events & Hrun & Hlen' & Hev).
  exists events. split; [done|]. split; [done|]. split.
  - intros i Hi. destruct (Hev i Hi) as (e & old & new & He & Ho & Hn & ->).
    by exists (BinlogUpdateEvent old new (DMLEventBase.mk table)), old, new.
  - intros ev h Hrows Htype Hall.
    destruct (NewBinlogDMLEvents_rows table ev rowsEvent h Hrows Hall)
      as (h' & _ & _ & ->).
    exists h'. by destruct Htype as [-> | ->]; simpl; rewrite Hrun.
Qed.

Lemma update_events_pair_the_rows_witness :
  ∃ events,
    NewBinlogUpdateEvents tableIdName (RowsEvent.mk [Some 0; Some 1])
    = Ret (events, None)
    ∧ length events = 1.
Proof.
  destruct (update_events_pair_the_rows tableIdName
              (RowsEvent.mk [Some 0; Some 1]) 1 eq_refl)
    as (events & Hrun & Hlen & _).
  exists events. by split.
Defined.

(** C10.  For an UPDATE rows event with an odd number of rows,
    [NewBinlogUpdateEvents] returns no error: at the last row it reads
    [rowsEvent.Rows[i+1]] past the end of the rows, and panics; the index
    [i/2] of the store into the output, of length [rows/2], is past its end
    too.  The dispatch entry point panics likewise. *)
Theorem update_events_of_odd_rows_panic :
  ∀ (table : Table.t) (rowsEvent : RowsEvent.t),
    let n := length (RowsEvent.Rows rowsEvent) in
    n mod 2 = 1 →
    NewBinlogUpdateEvents table rowsEvent
    = Panic (IndexOutOfRange (Z.of_nat n) n)
    ∧ (∀ events err,
         NewBinlogUpdateEvents table rowsEvent ≠ Ret (events, err))
    ∧ (∀ e, setIndex (makeEvents (n / 2)) ((n - 1) / 2) e
            = Panic (IndexOutOfRange (Z.of_nat ((n - 1) / 2)) (n / 2)))
    ∧ (∀ (ev : BinlogEvent.t) (h : store),
         BinlogEvent.Event ev = BinlogEvent.IsRowsEvent rowsEvent →
         BinlogEvent.Header_EventType ev = UPDATE_ROWS_EVENTv1
         ∨ BinlogEvent.Header_EventType ev = UPDATE_ROWS_EVENTv2 →
         Forall (λ row, length (contents h row)
                        = length (Table.Columns table))
           (RowsEvent.Rows rowsEvent) →
         NewBinlogDMLEvents table ev h
         = Panic (IndexOutOfRange (Z.of_nat n) n)).
Proof.
  intros table rowsEvent n Hodd.
  pose proof (NewBinlogUpdateEvents_odd table rowsEvent Hodd) as Hpanic.
  fold n in Hpanic. split; [done|]. split; [|split].
  - intros events err. by rewrite Hpanic.
  - intros e. rewrite setIndex_out_of_range.
    + unfold makeEvents. by rewrite length_replicate.
    + unfold makeEvents. rewrite length_replicate. lia.
  - intros ev h Hrows Htype Hall.
    destruct (NewBinlogDMLEvents_rows table ev rowsEvent h Hrows Hall)
      as (h' & _ & _ & ->).
    by destruct Htype as [-> | ->]; simpl; rewrite Hpanic.
Qed.

Lemma update_events_of_odd_rows_panic_witness :
  NewBinlogUpdateEvents tableIdName (RowsEvent.mk [Some 0; Some 1; Some 2])
  = Panic (IndexOutOfRange 3%Z 3).
Proof.
  apply (update_events_of_odd_rows_panic tableIdName
           (RowsEvent.mk [Some 0; Some 1; Some 2]) eq_refl).
Defined.

End update_events.

(** ** NULL cells *)

Lemma appendEscapedValue_nil (buffer : string) (v : cell) :
  isNilValue v = true → appendEscapedValue buffer v = Ret (buffer +:+ "NULL").
Proof. intros H. unfold appendEscapedValue. by rewrite H. Qed.

Lemma appendEscapedValue_nilAlike (buffer : string) (a b : cell) :
  nilAlike a b → appendEscapedValue buffer a = appendEscapedValue buffer b.
Proof.
  intros [->|[Ha Hb]]; [done|]. by rewrite !appendEscapedValue_nil.
Qed.

Lemma isNilValue_nilAlike (a b : cell) :
  nilAlike a b → isNilValue a = isNilValue b.
Proof. intros [->|[Ha Hb]]; [done|]. by rewrite Ha, Hb. Qed.

Lemma valuesLoop_nilAlike (vs ws : list cell) (i : nat) (buffer : string) :
  Forall2 nilAlike vs ws → valuesLoop i vs buffer = valuesLoop i ws buffer.
Proof.
  intros H. revert i buffer.
  induction H as [|a b vs ws Hab _ IH]; intros i buffer; [done|].
  cbn [valuesLoop]. rewrite (appendEscapedValue_nilAlike _ a b Hab).
  destruct (appendEscapedValue _ b); go_step; [apply IH|done].
Qed.

Lemma whereLoop_nilAlike (columns : list string) (vs ws : list cell) (i : nat)
    (buffer : string) :
  Forall2 nilAlike vs ws →
  whereLoop columns i vs buffer = whereLoop columns i ws buffer.
Proof.
  intros H. revert i buffer.
  induction H as [|a b vs ws Hab _ IH]; intros i buffer; [done|].
  cbn [whereLoop]. destruct (index columns (Z.of_nat i)); go_step; [|done].
  rewrite (isNilValue_nilAlike a b Hab).
  destruct (isNilValue b); [apply IH|].
  rewrite (appendEscapedValue_nilAlike _ a b Hab).
  destruct (appendEscapedValue _ b); go_step; [apply IH|done].
Qed.

Lemma setLoop_nilAlike (columns : list string) (vs ws : list cell) (i : nat)
    (buffer : string) :
  Forall2 nilAlike vs ws →
  setLoop columns i vs buffer = setLoop columns i ws buffer.
Proof.
  intros H. revert i buffer.
  induction H as [|a b vs ws Hab _ IH]; intros i buffer; [done|].
  cbn [setLoop]. destruct (index columns (Z.of_nat i)); go_step; [|done].
  rewrite (appendEscapedValue_nilAlike _ a b Hab).
  destruct (appendEscapedValue _ b); go_step; [apply IH|done].
Qed.

(** C5, as the specification states it, fails: an empty byte buffer that is
    not the nil slice is not rendered as NULL. *)
Lemma empty_buffer_is_not_NULL :
  ¬ (∀ v : cell,
       nullOrEmptyBuffer v →
       (∀ buffer, appendEscapedValue buffer v = Ret (buffer +:+ "NULL"))
       ∧ (∀ column,
            buildStringMapForWhere [column] [v]
            = Ret (column +:+ " IS NULL"))).
Proof.
  intros H.
  destruct (H (CBytes (Some EmptyString))) as [Hnull _].
  { right. by exists (Some EmptyString). }
  specialize (Hnull EmptyString). by vm_compute in Hnull.
Qed.

(** C5, amended.  A NULL cell and a nil byte-buffer cell are rendered alike:
    the escape routine emits the literal NULL for both, the WHERE builder
    emits [IS NULL] for both, and replacing the one by the other anywhere in
    a row changes none of the three lists built from it.  An empty byte
    buffer that is not nil is rendered as the binary literal [_binary'']. *)
Theorem nil_cell_and_nil_buffer_render_alike :
  (∀ buffer,
     appendEscapedValue buffer CNil = Ret (buffer +:+ "NULL")
     ∧ appendEscapedValue buffer (CBytes None) = Ret (buffer +:+ "NULL"))
  ∧ (∀ column,
       buildStringMapForWhere [column] [CNil] = Ret (column +:+ " IS NULL")
       ∧ buildStringMapForWhere [column] [CBytes None]
         = Ret (column +:+ " IS NULL"))
  ∧ (∀ (columns : list string) (vs ws : list cell),
       Forall2 nilAlike vs ws →
       buildStringListForValues vs = buildStringListForValues ws
       ∧ buildStringMapForSet columns vs = buildStringMapForSet columns ws
       ∧ buildStringMapForWhere columns vs = buildStringMapForWhere columns ws)
  ∧ (∀ buffer,
       appendEscapedValue buffer (CBytes (Some EmptyString))
       = Ret (buffer +:+ "_binary''"))
  ∧ (∀ column,
       buildStringMapForWhere [column] [CBytes (Some EmptyString)]
       = Ret (column +:+ "=_binary''")).
Proof.
  split; [|split; [|split; [|split]]].
  - intros buffer. by rewrite !appendEscapedValue_nil.
  - intros column. unfold buildStringMapForWhere. cbn [whereLoop].
    change (0 <? 0)%nat with false. cbv iota. rewrite index_0. go_step.
    cbn [isNilValue whereLoop]. by rewrite append_nil_l.
  - intros columns vs ws H. split; [|split].
    + by apply valuesLoop_nilAlike.
    + by apply setLoop_nilAlike.
    + by apply whereLoop_nilAlike.
  - intros buffer. unfold appendEscapedValue. cbn.
    unfold appendEscapedBuffer. cbn. by rewrite append_assoc.
  - intros column. unfold buildStringMapForWhere. cbn [whereLoop].
    change (0 <? 0)%nat with false. cbv iota. rewrite index_0. go_step.
    cbn [isNilValue]. unfold appendEscapedValue. cbn.
    unfold appendEscapedBuffer. cbn. go_step. cbn [whereLoop].
    by rewrite append_nil_l, !append_assoc.
Qed.

Lemma nil_cell_and_nil_buffer_render_alike_witness :
  buildStringMapForWhere ["`id`"; "`name`"] [CInt64 1; CNil]
  = buildStringMapForWhere ["`id`"; "`name`"] [CInt64 1; CBytes None].
Proof.
  apply (proj1 (proj2 (proj2 nil_cell_and_nil_buffer_render_alike))
           ["`id`"; "`name`"] [CInt64 1; CNil] [CInt64 1; CBytes None]).
  constructor; [by left|]. constructor; [|constructor]. right. by split.
Defined.

(** ** Schema mismatches *)

Lemma AsSQLString_load (h : store) (e : DMLEvent) (intersection : Table.t) :
  (∀ p, loadColumnsAndValuesInIntersection (TableSchema e) intersection
          (rowImages h e) = Panic p →
        AsSQLString h e intersection = Panic p)
  ∧ (∀ columns values err,
       loadColumnsAndValuesInIntersection (TableSchema e) intersection
         (rowImages h e) = Ret (columns, values, Some err) →
       AsSQLString h e intersection = Ret (EmptyString, Some err)).
Proof.
  split.
  - intros p Hload. destruct e; unfold AsSQLString;
      unfold TableSchema, rowImages in Hload; simpl in Hload;
      by rewrite Hload.
  - intros columns values err Hload. destruct e; unfold AsSQLString;
      unfold TableSchema, rowImages in Hload; simpl in Hload;
      by rewrite Hload.
Qed.

Ltac go_cases :=
  repeat match goal with
    | |- context [mbind _ ?m] =>
        lazymatch m with
        | mbind _ _ => fail
        | _ => destruct m; go_step
        end
    end.

Lemma AsSQLString_error_only (h : store) (e : DMLEvent)
    (intersection : Table.t) (s : string) (err : error) :
  AsSQLString h e intersection = Ret (s, Some err) → s = EmptyString.
Proof.
  destruct e; unfold AsSQLString;
    (destruct (loadColumnsAndValuesInIntersection _ _ _)
       as [[[columns values] [er|]]|p]; go_step;
     [by intros [= <- _]| |done]);
    go_cases; done.
Qed.

Lemma NewBinlogDMLEvents_error_only (table : Table.t) (ev : BinlogEvent.t)
    (h h' : store) (events : list (option DMLEvent)) (err : error) :
  NewBinlogDMLEvents table ev h = Ret ((events, Some err), h') → events = [].
Proof.
  unfold NewBinlogDMLEvents.
  destruct (BinlogEvent.Event ev) as [rowsEvent|]; [|done].
  destruct (rowsLoop_frame table (RowsEvent.Rows rowsEvent) h)
    as (er & h1 & -> & _).
  go_step. destruct er as [e|]; [by intros [= <- _ _]|].
  unfold dispatchOnEventType.
  destruct (BinlogEvent.Header_EventType ev);
    rewrite ?NewBinlogInsertEvents_spec, ?NewBinlogDeleteEvents_spec;
    go_step; try done; try (by intros [= <- _ _]).
  all: unfold NewBinlogUpdateEvents; go_cases; done.
Qed.

(** C6, as the specification states it, fails: with an empty column list of
    the intersection, rendering returns no error to the caller. *)
Lemma zero_columns_is_not_an_error :
  ¬ (∀ (h : store) (e : DMLEvent) (intersection : Table.t),
       Table.Columns intersection = [] →
       ∃ s err, AsSQLString h e intersection = Ret (s, Some err)).
Proof.
  intros H.
  destruct (H storeABC
              (BinlogInsertEvent (Some 0%nat) (DMLEventBase.mk tableABC))
              (Table.mk "s" "t" [] []) eq_refl) as (s & err & Hs).
  by vm_compute in Hs.
Qed.

(** C6, amended.  A row whose cell count differs from the column count of
    the table is surfaced as a structured error, by the dispatch entry point
    for the rows of the event and by rendering for the row images of a
    statement, and the error comes alone: with the nil list of statements,
    with the empty string.  An empty column list of the source or of the
    intersection is not an error: rendering panics. *)
Theorem schema_mismatch_is_an_error_alone :
  (∀ (table : Table.t) (ev : BinlogEvent.t) (rowsEvent : RowsEvent.t)
     (h : store),
     BinlogEvent.Event ev = BinlogEvent.IsRowsEvent rowsEvent →
     Exists (λ row, length (contents h row) ≠ length (Table.Columns table))
       (RowsEvent.Rows rowsEvent) →
     ∃ n h', n ≠ length (Table.Columns table) ∧
       NewBinlogDMLEvents table ev h
       = Ret (([], Some (ErrColumnCount (Table.Schema table) (Table.Name table)
                           (length (Table.Columns table)) n)), h'))
  ∧ (∀ (table : Table.t) (ev : BinlogEvent.t) (h h' : store)
       (events : list (option DMLEvent)) (err : error),
       NewBinlogDMLEvents table ev h = Ret ((events, Some err), h') →
       events = [])
  ∧ (∀ (h : store) (e : DMLEvent) (intersection : Table.t),
       Table.Columns (TableSchema e) ≠ [] →
       Table.Columns intersection ≠ [] →
       Exists (λ values, length values
                         ≠ length (Table.Columns (TableSchema e)))
         (rowImages h e) →
       ∃ n, n ≠ length (Table.Columns (TableSchema e)) ∧
         AsSQLString h e intersection
         = Ret (EmptyString,
                Some (ErrColumnCount (Table.Schema (TableSchema e))
                        (Table.Name (TableSchema e))
                        (length (Table.Columns (TableSchema e))) n)))
  ∧ (∀ (h : store) (e : DMLEvent) (intersection : Table.t) (s : string)
       (err : error),
       AsSQLString h e intersection = Ret (s, Some err) → s = EmptyString)
  ∧ (∀ (h : store) (e : DMLEvent) (intersection : Table.t),
       Table.Columns (TableSchema e) = [] ∨ Table.Columns intersection = [] →
       AsSQLString h e intersection
       = Panic (ZeroColumns (length (Table.Columns (TableSchema e)))
                  (length (Table.Columns intersection)))).
Proof.
  split; [|split; [|split; [|split]]].
  - intros table ev rowsEvent h Hev Hex.
    destruct (rowsLoop_mismatch table _ h Hex) as (n & h' & Hn & Hrun).
    exists n, h'. split; [done|].
    unfold NewBinlogDMLEvents. by rewrite Hev, Hrun.
  - apply NewBinlogDMLEvents_error_only.
  - intros h e intersection Ht Hi Hex.
    destruct (loadColumnsAndValuesInIntersection_mismatch _ intersection _
                Ht Hi Hex) as (n & Hn & Hload).
    exists n. split; [done|].
    by apply (proj2 (AsSQLString_load h e intersection) _ _ _ Hload).
  - apply AsSQLString_error_only.
  - intros h e intersection Hzero.
    apply (proj1 (AsSQLString_load h e intersection)).
    by apply loadColumnsAndValuesInIntersection_zero.
Qed.

Lemma schema_mismatch_is_an_error_alone_witness :
  ∃ n h', n ≠ 3%nat ∧
    NewBinlogDMLEvents tableABC (oneRowEvent WRITE_ROWS_EVENTv2) (storeOfId 1)
    = Ret (([], Some (ErrColumnCount "s" "t" 3 n)), h').
Proof.
  apply (proj1 schema_mismatch_is_an_error_alone tableABC
           (oneRowEvent WRITE_ROWS_EVENTv2) (RowsEvent.mk [Some 0%nat])
           (storeOfId 1) eq_refl).
  apply Exists_cons_hd. vm_compute. lia.
Defined.

(** ** The row buffers and the statements *)

Lemma rowsLoop_no_error (table : Table.t) (rows : list RowData) (h h' : store) :
  rowsLoop table rows h = Ret (None, h') →
  Forall (λ row, length (contents h row) = length (Table.Columns table)) rows.
Proof.
  intros Hrun.
  destruct (decide (Forall (λ row, length (contents h row)
                                   = length (Table.Columns table)) rows))
    as [Hall|Hnot]; [done|].
  apply not_Forall_Exists in Hnot; [|apply _].
  destruct (rowsLoop_mismatch table rows h) as (n & h1 & _ & Hmis).
  { eapply Exists_impl; [exact Hnot|]. by intros r Hr. }
  by rewrite Hmis in Hrun.
Qed.

Lemma dispatch_events_hold_rows (table : Table.t) (eventType : EventType)
    (rowsEvent : RowsEvent.t) (events : list (option DMLEvent))
    (err : option error) (e : DMLEvent) :
  dispatchOnEventType table eventType rowsEvent = Ret (events, err) →
  Some e ∈ events →
  (OldValues e = None ∨ OldValues e ∈ RowsEvent.Rows rowsEvent)
  ∧ (NewValues e = None ∨ NewValues e ∈ RowsEvent.Rows rowsEvent).
Proof.
  assert (Hupdate :
    NewBinlogUpdateEvents table rowsEvent = Ret (events, err) →
    Some e ∈ events →
    (OldValues e = None ∨ OldValues e ∈ RowsEvent.Rows rowsEvent)
    ∧ (NewValues e = None ∨ NewValues e ∈ RowsEvent.Rows rowsEvent)).
  { intros Hrun Hin.
    destruct (Nat.eq_dec (length (RowsEvent.Rows rowsEvent) mod 2) 1)%nat
      as [Hodd|Heven].
    { by rewrite (NewBinlogUpdateEvents_odd _ _ Hodd) in Hrun. }
    destruct (NewBinlogUpdateEvents_even table rowsEvent
                (length (RowsEvent.Rows rowsEvent) / 2)%nat)
      as (events' & Hrun' & Hlen & Hev); [lia|].
    rewrite Hrun' in Hrun. injection Hrun as <- <-.
    apply list_elem_of_lookup in Hin as [i Hi].
    destruct (Hev i) as (e' & old & new & He' & Hold & Hnew & ->).
    { rewrite <- Hlen. by eapply lookup_lt_Some. }
    rewrite He' in Hi. injection Hi as <-. simpl.
    split; right; by eapply list_elem_of_lookup_2. }
  unfold dispatchOnEventType.
  destruct eventType; try done;
    rewrite ?NewBinlogInsertEvents_spec, ?NewBinlogDeleteEvents_spec;
    intros [= <- <-] Hin; try (by apply elem_of_nil in Hin);
    apply list_elem_of_fmap in Hin as (row & [= ->] & Hrow); simpl;
    split; (by left) || (by right).
Qed.

(** C9, as the specification states it, fails on both counts: the dispatch
    entry point rewrites a row buffer of the event, and the statement it
    returns holds the row slice of the event. *)
Lemma dispatch_rewrites_and_shares_the_rows :
  ¬ (∀ (table : Table.t) (ev : BinlogEvent.t) (h h' : store)
       (r : list (option DMLEvent) * option error),
       NewBinlogDMLEvents table ev h = Ret (r, h') →
       ∀ row, contents h' row = contents h row)
  ∧ ¬ (∀ (table : Table.t) (ev : BinlogEvent.t) (rowsEvent : RowsEvent.t)
         (h h' : store) (events : list (option DMLEvent))
         (err : option error) (e : DMLEvent) (p : nat),
         BinlogEvent.Event ev = BinlogEvent.IsRowsEvent rowsEvent →
         NewBinlogDMLEvents table ev h = Ret ((events, err), h') →
         Some e ∈ events →
         Some p ∈ RowsEvent.Rows rowsEvent →
         OldValues e ≠ Some p ∧ NewValues e ≠ Some p).
Proof.
  assert (Hrun : ∃ e h',
            NewBinlogDMLEvents tableUnsignedId (oneRowEvent WRITE_ROWS_EVENTv2)
              (storeOfId (-1))
            = Ret (([Some e], None), h')
            ∧ contents h' (Some 0%nat) = [CUint64 18446744073709551615]
            ∧ NewValues e = Some 0%nat).
  { eexists _, _. split; [vm_compute; reflexivity|]. by vm_compute. }
  destruct Hrun as (e & h' & Hrun & Hrow & Hnew).
  split.
  - intros H. specialize (H _ _ _ _ _ Hrun (Some 0%nat)).
    rewrite Hrow in H. by vm_compute in H.
  - intros H.
    destruct (H tableUnsignedId (oneRowEvent WRITE_ROWS_EVENTv2)
                (RowsEvent.mk [Some 0%nat]) _ _ _ _ e 0%nat eq_refl Hrun)
      as [_ Hne]; [apply list_elem_of_here..|done].
Qed.

(** C9, amended.  The dispatch entry point rewrites the row buffers of the
    event in place: after the call every buffer is unchanged or is a row of
    the event, of the width of the table, holding its normalized cells, and
    after a call without error every row of the event is normalized; a cell
    that is not a signed integer of an unsigned column is unchanged.  The
    statements returned hold as old and new values the row slices of the
    event themselves, hence share their backing storage; for the WRITE and
    DELETE event types they are the rows of the event, one statement each. *)
Theorem dispatch_normalizes_in_place :
  ∀ (table : Table.t) (ev : BinlogEvent.t) (rowsEvent : RowsEvent.t)
    (h h' : store) (events : list (option DMLEvent)) (err : option error),
    BinlogEvent.Event ev = BinlogEvent.IsRowsEvent rowsEvent →
    NewBinlogDMLEvents table ev h = Ret ((events, err), h') →
    (∀ row,
       contents h' row = contents h row
       ∨ (row ∈ RowsEvent.Rows rowsEvent
          ∧ length (contents h row) = length (Table.Columns table)
          ∧ contents h' row
            = normalizeRow (Table.Columns table) (contents h row)))
    ∧ (err = None →
       ∀ row, row ∈ RowsEvent.Rows rowsEvent →
         contents h' row = normalizeRow (Table.Columns table) (contents h row))
    ∧ (∀ row i v,
         contents h row !! i = Some v →
         (∀ col, Table.Columns table !! i = Some col →
                 TableColumn.IsUnsigned col = false ∨ unsignedOf v = None) →
         contents h' row !! i = Some v)
    ∧ (∀ e, Some e ∈ events →
         (OldValues e = None ∨ OldValues e ∈ RowsEvent.Rows rowsEvent)
         ∧ (NewValues e = None ∨ NewValues e ∈ RowsEvent.Rows rowsEvent))
    ∧ (BinlogEvent.Header_EventType ev = WRITE_ROWS_EVENTv1
       ∨ BinlogEvent.Header_EventType ev = WRITE_ROWS_EVENTv2 →
       err = None →
       events = (λ row, Some (BinlogInsertEvent row (DMLEventBase.mk table)))
                  <$> RowsEvent.Rows rowsEvent)
    ∧ (BinlogEvent.Header_EventType ev = DELETE_ROWS_EVENTv1
       ∨ BinlogEvent.Header_EventType ev = DELETE_ROWS_EVENTv2 →
       err = None →
       events = (λ row, Some (BinlogDeleteEvent row (DMLEventBase.mk table)))
                  <$> RowsEvent.Rows rowsEvent).
Proof.
  intros table ev rowsEvent h h' events err Hev Hrun.
  unfold NewBinlogDMLEvents in Hrun. rewrite Hev in Hrun.
  destruct (rowsLoop_frame table (RowsEvent.Rows rowsEvent) h)
    as (er & h1 & Hloop & Hframe).
  rewrite Hloop in Hrun. revert Hrun. go_step.
  assert (Hcells : ∀ row i v,
            contents h row !! i = Some v →
            (∀ col, Table.Columns table !! i = Some col →
                    TableColumn.IsUnsigned col = false ∨ unsignedOf v = None) →
            contents h1 row !! i = Some v).
  { intros row i v Hv Hcol.
    destruct (Hframe row) as [->|(_ & Hlen & ->)]; [done|].
    destruct (lookup_lt_is_Some_2 (Table.Columns table) i) as [col Hc].
    { rewrite <- Hlen. by eapply lookup_lt_Some. }
    rewrite (normalizeRow_lookup _ _ _ _ _ Hc Hv). f_equal.
    unfold normalizeCell. destruct (Hcol col Hc) as [-> | ->]; [done|].
    by destruct (TableColumn.IsUnsigned col). }
  destruct er as [e|].
  - intros [= <- <- <-]. split; [done|]. split; [done|]. split; [done|].
    split; [|done]. intros e' Hin. by apply elem_of_nil in Hin.
  - destruct (dispatchOnEventType table (BinlogEvent.Header_EventType ev)
                rowsEvent) as [[events' err']|p] eqn:Hdispatch; [|done].
    go_step. intros [= <- <- <-]. split; [done|].
    split; [|split; [done|split; [|split]]].
    + intros _ row Hrow.
      destruct (rowsLoop_spec table _ h (rowsLoop_no_error _ _ _ _ Hloop))
        as (h2 & Hloop2 & Hh2).
      rewrite Hloop in Hloop2. injection Hloop2 as <-.
      by rewrite Hh2, decide_True.
    + intros e Hin. by eapply dispatch_events_hold_rows.
    + intros Htype _. unfold dispatchOnEventType in Hdispatch.
      destruct Htype as [Ht|Ht]; rewrite Ht in Hdispatch;
        rewrite NewBinlogInsertEvents_spec in Hdispatch;
        by injection Hdispatch as <- _.
    + intros Htype _. unfold dispatchOnEventType in Hdispatch.
      destruct Htype as [Ht|Ht]; rewrite Ht in Hdispatch;
        rewrite NewBinlogDeleteEvents_spec in Hdispatch;
        by injection Hdispatch as <- _.
Qed.

Lemma dispatch_normalizes_in_place_witness :
  ∃ e h',
    NewBinlogDMLEvents tableUnsignedId (oneRowEvent WRITE_ROWS_EVENTv2)
      (storeOfId (-1))
    = Ret (([Some e], None), h')
    ∧ contents h' (Some 0%nat)
      = normalizeRow (Table.Columns tableUnsignedId) [CInt64 (-1)]
    ∧ (NewValues e = None ∨ NewValues e ∈ [Some 0%nat]).
Proof.
  assert (Hrun : ∃ e h',
            NewBinlogDMLEvents tableUnsignedId (oneRowEvent WRITE_ROWS_EVENTv2)
              (storeOfId (-1))
            = Ret (([Some e], None), h')).
  { eexists _, _. vm_compute. reflexivity. }
  destruct Hrun as (e & h' & Hrun). exists e, h'. split; [exact Hrun|].
  destruct (dispatch_normalizes_in_place tableUnsignedId
              (oneRowEvent WRITE_ROWS_EVENTv2) (RowsEvent.mk [Some 0%nat])
              (storeOfId (-1)) h' [Some e] None eq_refl Hrun)
    as (_ & Hrows & _ & Hevents & _).
  split.
  - apply (Hrows eq_refl (Some 0%nat)), list_elem_of_here.
  - apply (Hevents e), list_elem_of_here.
Defined.

(** ** The replica catch-up coordinator *)

Lemma IsCaughtUp_result {World : Type}
    (w : WaitUntilReplicaIsCaughtUpToMaster.t World) (world : World) :
  IsCaughtUp w world
  = match WithRetries 100 (fetchAttempt w) (Position.mk EmptyString 0, world) with
    | (Some e, (_, world')) => ((false, Some e), world')
    | (None, (pos, world')) =>
        ((bool_decide
            (Compare pos (WaitUntilReplicaIsCaughtUpToMaster.targetMasterPos w)
             >= 0), None), world')
    end.
Proof.
  unfold IsCaughtUp.
  destruct (WithRetries _ _ _) as [[e|] [pos world']]; [done|].
  destruct (Z.geb_spec (Compare pos
              (WaitUntilReplicaIsCaughtUpToMaster.targetMasterPos w)) 0).
  - by rewrite bool_decide_true by lia.
  - by rewrite bool_decide_false by lia.
Qed.

(** C8.  Whenever [IsCaughtUp] returns without error, the replica position
    it compared is the one returned by a fetch without error, and the result
    is true exactly when that position is greater than or equal to the
    recorded target, lexicographically on the file name, then numerically on
    the offset.  A first fetch without error makes [IsCaughtUp] return
    without error. *)
Theorem IsCaughtUp_iff_target_reached :
  ∀ (World : Type) (w : WaitUntilReplicaIsCaughtUpToMaster.t World)
    (world : World),
    (∀ (caughtUp : bool) (world' : World),
       IsCaughtUp w world = ((caughtUp, None), world') →
       ∃ world0 replicaPos,
         WaitUntilReplicaIsCaughtUpToMaster.ReplicatedMasterPositionFetcher
           w world0 = ((replicaPos, None), world')
         ∧ (caughtUp = true
            ↔ positionLe (WaitUntilReplicaIsCaughtUpToMaster.targetMasterPos w)
                replicaPos))
    ∧ (∀ (replicaPos : Position.t) (world' : World),
         WaitUntilReplicaIsCaughtUpToMaster.ReplicatedMasterPositionFetcher
           w world = ((replicaPos, None), world') →
         ∃ caughtUp,
           IsCaughtUp w world = ((caughtUp, None), world')
           ∧ (caughtUp = true
              ↔ positionLe
                  (WaitUntilReplicaIsCaughtUpToMaster.targetMasterPos w)
                  replicaPos)).
Proof.
  intros World w world. split.
  - intros caughtUp world'. rewrite IsCaughtUp_result.
    destruct (WithRetries _ _ _) as [[e|] [pos world1]] eqn:Hretry; [done|].
    intros [= <- <-].
    unfold WithRetries in Hretry.
    apply (retryLoop_success 99) in Hretry as [[pos0 world0] Hfetch].
    unfold fetchAttempt in Hfetch. simpl in Hfetch.
    destruct (WaitUntilReplicaIsCaughtUpToMaster.ReplicatedMasterPositionFetcher
                w world0) as [[pos1 err1] world2] eqn:Hcur.
    injection Hfetch as -> -> ->.
    exists world0, pos. split; [done|].
    by rewrite bool_decide_eq_true, Compare_ge_0.
  - intros replicaPos world' Hfetch. rewrite IsCaughtUp_result.
    unfold WithRetries.
    rewrite (retryLoop_first 99 _ _ (replicaPos, world')).
    + eexists. split; [done|].
      by rewrite bool_decide_eq_true, Compare_ge_0.
    + unfold fetchAttempt. simpl. by rewrite Hfetch.
Qed.

Lemma IsCaughtUp_iff_target_reached_witness :
  ∃ world0 replicaPos,
    (if world0 is O
     then ((Position.mk "mysql-bin.000007" 4000, Some (ErrSQL "bad connection")),
           1%nat)
     else ((Position.mk "mysql-bin.000007" 5000, None), 2%nat))
    = ((replicaPos, None), 2%nat)
    ∧ (true = true
       ↔ positionLe (Position.mk "mysql-bin.000007" 4096) replicaPos).
Proof.
  apply (proj1 (IsCaughtUp_iff_target_reached nat
                  (WaitUntilReplicaIsCaughtUpToMaster.mk nat
                     (λ world,
                        if world is O
                        then ((Position.mk "mysql-bin.000007" 4000,
                               Some (ErrSQL "bad connection")), 1%nat)
                        else ((Position.mk "mysql-bin.000007" 5000, None),
                              2%nat))
                     (Position.mk "mysql-bin.000007" 4096))
                  0%nat) true 2%nat).
  reflexivity.
Defined.

(** * Further properties of the code *)

(** ** [GetUint64] on byte slices and signed integers *)

Lemma digitValue_range (c : ascii) (d : Z) :
  digitValue c = Some d → 0 <= d <= 9.
Proof.
  unfold digitValue.
  destruct (Z.leb_spec 48 (Z.of_N (N_of_ascii c)));
    destruct (Z.leb_spec (Z.of_N (N_of_ascii c)) 57); simpl; [|done..].
  intros [= <-]. lia.
Qed.

Lemma digitsValue_ge (s : string) (acc v : Z) :
  0 <= acc → digitsValue acc s = Some v → acc <= v.
Proof.
  revert acc. induction s as [|c rest IH]; intros acc Hacc; simpl.
  - intros [= <-]. lia.
  - destruct (digitValue c) as [d|] eqn:Hd; [|done].
    apply digitValue_range in Hd. intros Hv. apply IH in Hv; lia.
Qed.

(** The loop of [ParseUint] returns the value of the digits when there are
    only digits and the value fits 64 bits, and an error otherwise. *)
Lemma parseUintLoop_spec (s0 s : string) (n : Z) :
  0 <= n <= maxUint64 →
  match digitsValue n s with
  | Some v =>
      if v <=? maxUint64 then parseUintLoop s0 n s = (v, None)
      else ∃ x e, parseUintLoop s0 n s = (x, Some e)
  | None => ∃ x e, parseUintLoop s0 n s = (x, Some e)
  end.
Proof.
  revert n. induction s as [|c rest IH]; intros n Hn.
  - simpl. destruct (Z.leb_spec n maxUint64); [done|lia].
  - cbn [digitsValue parseUintLoop].
    destruct (digitValue c) as [d|] eqn:Hd; [|eauto].
    pose proof (digitValue_range _ _ Hd) as Hrange.
    assert (Hover : n * 10 + d > maxUint64 →
              match digitsValue (n * 10 + d) rest with
              | Some v => (v <=? maxUint64) = false
              | None => True
              end).
    { intros Hgt. destruct (digitsValue _ rest) as [v|] eqn:Hv; [|done].
      apply digitsValue_ge in Hv; [|lia]. apply Z.leb_gt. lia. }
    unfold maxUint64 in *.
    destruct (Z.geb_spec n ((2 ^ 64 - 1) / 10 + 1)) as [Hcut|Hcut].
    { specialize (Hover ltac:(lia)).
      destruct (digitsValue _ rest); [rewrite Hover|]; eauto. }
    rewrite (Z.mod_small (n * 10)) by lia.
    destruct (Z_lt_ge_dec (n * 10 + d) (2 ^ 64)) as [Hfit|Hbig].
    + rewrite (Z.mod_small (n * 10 + d)) by lia.
      destruct (Z.ltb_spec (n * 10 + d) (n * 10)); [lia|].
      destruct (Z.gtb_spec (n * 10 + d) (2 ^ 64 - 1)); [lia|]. simpl.
      apply IH. lia.
    + specialize (Hover ltac:(lia)).
      replace ((n * 10 + d) mod 2 ^ 64) with (n * 10 + d - 2 ^ 64).
      2:{ apply Z.mod_unique with 1; lia. }
      destruct (Z.ltb_spec (n * 10 + d - 2 ^ 64) (n * 10)); [|lia]. simpl.
      destruct (digitsValue _ rest); [rewrite Hover|]; eauto.
Qed.

Lemma ParseUint_spec (s : string) :
  match decimalValue s with
  | Some v =>
      if v <=? maxUint64 then ParseUint s = (v, None)
      else ∃ x e, ParseUint s = (x, Some e)
  | None => ∃ x e, ParseUint s = (x, Some e)
  end.
Proof.
  destruct s as [|c rest]; [simpl; eauto|].
  apply (parseUintLoop_spec _ (String c rest) 0). unfold maxUint64. lia.
Qed.

Lemma digitsValue_of_uint_acc (d : Decimal.uint) (acc : positive) :
  digitsValue (Z.pos acc) (NilEmpty.string_of_uint d)
  = Some (Z.pos (Pos.of_uint_acc d acc)).
Proof.
  revert acc. induction d; intros acc; simpl; [done|..];
    rewrite <- IHd; f_equal; lia.
Qed.

Lemma digitsValue_of_uint (d : Decimal.uint) :
  digitsValue 0 (NilEmpty.string_of_uint d) = Some (Z.of_N (Pos.of_uint d)).
Proof.
  induction d; simpl; try done;
    rewrite <- digitsValue_of_uint_acc; f_equal; lia.
Qed.

Lemma decimalValue_to_uint (n : N) :
  decimalValue (NilZero.string_of_uint (N.to_uint n)) = Some (Z.of_N n).
Proof.
  rewrite <- (DecimalN.Unsigned.of_to n) at 2. unfold N.of_uint.
  rewrite <- digitsValue_of_uint.
  by destruct (N.to_uint n).
Qed.

Lemma index_nonneg {A : Type} (l : list A) (i : Z) (x : A) :
  0 <= i → l !! Z.to_nat i = Some x → index l i = Ret x.
Proof.
  intros Hi Hx. rewrite <- (Z2Nat.id i Hi). by apply index_lookup.
Qed.

(** X1.  On a byte-slice cell [GetUint64] never panics: it returns the number
    the bytes denote, without error, when they are a non-empty string of
    decimal digits whose value fits 64 bits, and the value 0 with an error in
    every other case (nil or empty slice, a sign or any other character that
    is not a digit, a value of [2^64] or more). *)
Theorem GetUint64_on_byte_slice :
  ∀ (r : list cell) (colIdx : Z) (b : option string),
    0 <= colIdx →
    r !! Z.to_nat colIdx = Some (CBytes b) →
    match decimalValue (stringOfBytes b) with
    | Some n =>
        if n <=? maxUint64 then GetUint64 r colIdx = Ret (n, None)
        else ∃ e, GetUint64 r colIdx = Ret (0, Some e)
    | None => ∃ e, GetUint64 r colIdx = Ret (0, Some e)
    end.
Proof.
  intros r colIdx b Hidx Hcell. unfold GetUint64.
  rewrite (index_nonneg _ _ _ Hidx Hcell). go_step.
  pose proof (ParseUint_spec (stringOfBytes b)) as Hparse.
  destruct (decimalValue (stringOfBytes b)) as [n|].
  - destruct (n <=? maxUint64); [by rewrite Hparse|].
    destruct Hparse as (x & e & ->). eauto.
  - destruct Hparse as (x & e & ->). eauto.
Qed.

Lemma GetUint64_on_byte_slice_witness :
  GetUint64 [CString "x"; CBytes (Some "12345")] 1 = Ret (12345, None).
Proof.
  apply (GetUint64_on_byte_slice [CString "x"; CBytes (Some "12345")] 1
           (Some "12345")); [lia|reflexivity].
Defined.

Lemma literal_nonneg_integer (w : width) (n : Z) :
  0 <= n →
  literal (unsignedCell w n) = NilZero.string_of_uint (N.to_uint (Z.to_N n))
  ∧ literal (signedCell w n) = NilZero.string_of_uint (N.to_uint (Z.to_N n)).
Proof.
  intros Hn. split; [apply literal_unsignedCell|].
  destruct n as [|p|p]; [by destruct w|by destruct w|lia].
Qed.

(** X2.  Round trip between rendering and reading: the literal the escape
    routine renders for a non-negative integer cell of any width, signed or
    unsigned, with a value below [2^64], is read back by [GetUint64] from a
    byte slice as the same number, without error. *)
Theorem GetUint64_reads_back_integer_literal :
  ∀ (r : list cell) (colIdx : Z) (w : width) (n : Z) (v : cell),
    0 <= colIdx →
    0 <= n <= maxUint64 →
    v = unsignedCell w n ∨ v = signedCell w n →
    r !! Z.to_nat colIdx = Some (CBytes (Some (literal v))) →
    (∀ buffer, appendEscapedValue buffer v = Ret (buffer +:+ literal v))
    ∧ GetUint64 r colIdx = Ret (n, None).
Proof.
  intros r colIdx w n v Hidx Hn Hv Hcell. split.
  - intros buffer. apply appendEscapedValue_literal.
    by destruct Hv as [-> | ->], w.
  - pose proof (GetUint64_on_byte_slice r colIdx _ Hidx Hcell) as Hget.
    assert (Hlit : literal v
                   = NilZero.string_of_uint (N.to_uint (Z.to_N n))).
    { destruct (literal_nonneg_integer w n) as [Hu Hs]; [lia|].
      by destruct Hv as [-> | ->]. }
    cbn [stringOfBytes] in Hget.
    rewrite Hlit, decimalValue_to_uint, Z2N.id in Hget by lia.
    by destruct (Z.leb_spec n maxUint64); [|lia].
Qed.

Lemma GetUint64_reads_back_integer_literal_witness :
  GetUint64 [CBytes (Some (literal (CUint64 18446744073709551615)))] 0
  = Ret (18446744073709551615, None).
Proof.
  apply (GetUint64_reads_back_integer_literal
           [CBytes (Some (literal (CUint64 18446744073709551615)))] 0 W64
           18446744073709551615 (CUint64 18446744073709551615));
    [lia|unfold maxUint64; lia|by left|reflexivity].
Defined.

Lemma GetUint64_signed (r : list cell) (colIdx : Z) (w : width) (v : Z) :
  0 <= colIdx →
  v < 2 ^ 64 →
  r !! Z.to_nat colIdx = Some (signedCell w v) →
  (0 <= v → GetUint64 r colIdx = Ret (v, None))
  ∧ (v < 0 → GetUint64 r colIdx = Ret (0, Some (ErrNotUnsigned colIdx))).
Proof.
  intros Hidx Hv Hcell. unfold GetUint64.
  rewrite (index_nonneg _ _ _ Hidx Hcell). go_step.
  split; intros Hsign; destruct w; simpl;
    destruct (Z.ltb_spec v 0); try lia; try done;
    by rewrite Z.mod_small by lia.
Qed.

(** X3.  On a signed-integer cell of any width [GetUint64] returns the value
    without error when it is not negative, and the value 0 with the error
    "expected position ... to contain an unsigned number" when it is. *)
Theorem GetUint64_on_signed_integer :
  ∀ (r : list cell) (colIdx : Z) (w : width) (v : Z),
    0 <= colIdx →
    v < 2 ^ 64 →
    r !! Z.to_nat colIdx = Some (signedCell w v) →
    (0 <= v → GetUint64 r colIdx = Ret (v, None))
    ∧ (v < 0 → GetUint64 r colIdx = Ret (0, Some (ErrNotUnsigned colIdx))).
Proof. intros r colIdx w v. apply GetUint64_signed. Qed.

Lemma GetUint64_on_signed_integer_witness :
  GetUint64 [CInt32 (-7)] 0 = Ret (0, Some (ErrNotUnsigned 0)).
Proof.
  apply (GetUint64_on_signed_integer [CInt32 (-7)] 0 W32 (-7));
    [lia|lia|reflexivity|lia].
Defined.

Lemma GetUint64_out_of_range (r : list cell) (colIdx : Z) :
  colIdx < 0 ∨ Z.of_nat (length r) <= colIdx →
  GetUint64 r colIdx = Panic (IndexOutOfRange colIdx (length r)).
Proof.
  intros Hout. unfold GetUint64, index.
  destruct (Z.ltb_spec colIdx 0); [done|].
  rewrite lookup_ge_None_2 by lia. done.
Qed.

Lemma GetUint64_signed_kind (r : list cell) (colIdx : Z) (t : string) (v : Z) :
  0 <= colIdx →
  v < 2 ^ 64 →
  r !! Z.to_nat colIdx = Some (COther t (Some v)) →
  (0 <= v → GetUint64 r colIdx = Ret (v, None))
  ∧ (v < 0 → GetUint64 r colIdx = Ret (0, Some (ErrNotUnsigned colIdx))).
Proof.
  intros Hidx Hv Hcell. unfold GetUint64.
  rewrite (index_nonneg _ _ _ Hidx Hcell). go_step.
  split; intros Hsign; simpl;
    destruct (Z.ltb_spec v 0); try lia; try done;
    by rewrite Z.mod_small by lia.
Qed.

(** X4.  [GetUint64] reads a cell that is not a byte slice through
    [reflect.Value.Int], which goes by the kind of the value.  On a cell
    whose kind is not a signed integer - the nil interface (a NULL read as
    nil), a string, a bool, a float, a decimal, an unsigned integer, a value
    of another type of such a kind - it panics there; it returns no error.
    A value of a named type whose kind is a signed integer (time.Duration)
    is read as a signed integer is: its value when it is not negative, the
    error "expected position ... to contain an unsigned number" with the
    value 0 when it is.  An index outside the row panics too. *)
Theorem GetUint64_panics_on_other_kinds :
  ∀ (r : list cell) (colIdx : Z),
    (∀ x,
       0 <= colIdx →
       r !! Z.to_nat colIdx = Some x →
       (∀ b, x ≠ CBytes b) →
       (∀ w v, x ≠ signedCell w v) →
       (∀ t v, x ≠ COther t (Some v)) →
       GetUint64 r colIdx = Panic (ReflectValueInt x))
    ∧ (∀ t v,
         0 <= colIdx →
         v < 2 ^ 64 →
         r !! Z.to_nat colIdx = Some (COther t (Some v)) →
         (0 <= v → GetUint64 r colIdx = Ret (v, None))
         ∧ (v < 0 →
            GetUint64 r colIdx = Ret (0, Some (ErrNotUnsigned colIdx))))
    ∧ (colIdx < 0 ∨ Z.of_nat (length r) <= colIdx →
       GetUint64 r colIdx = Panic (IndexOutOfRange colIdx (length r))).
Proof.
  intros r colIdx. split; [|split].
  - intros x Hidx Hcell Hbytes Hsigned Hkind. unfold GetUint64.
    rewrite (index_nonneg _ _ _ Hidx Hcell). go_step.
    destruct x as [| v | v | v | v | v | | | | | | | b | | | | | t [v|]];
      try done.
    + by destruct (Hsigned W64 v).
    + by destruct (Hsigned W32 v).
    + by destruct (Hsigned W16 v).
    + by destruct (Hsigned W8 v).
    + by destruct (Hsigned Wint v).
    + by destruct (Hbytes b).
    + by destruct (Hkind t v).
  - intros t v. apply GetUint64_signed_kind.
  - apply GetUint64_out_of_range.
Qed.

Lemma GetUint64_panics_on_other_kinds_witness :
  GetUint64 [CNil] 0 = Panic (ReflectValueInt CNil)
  ∧ GetUint64 [COther "time.Duration" (Some 5)] 0 = Ret (5, None)
  ∧ GetUint64 [COther "time.Time" None] 0
    = Panic (ReflectValueInt (COther "time.Time" None)).
Proof.
  split; [|split].
  - apply (proj1 (GetUint64_panics_on_other_kinds [CNil] 0) CNil);
      [lia|reflexivity|done|by intros []|done].
  - apply (proj1 (proj2 (GetUint64_panics_on_other_kinds
                           [COther "time.Duration" (Some 5)] 0))
             "time.Duration" 5); [lia|lia|reflexivity|lia].
  - apply (proj1 (GetUint64_panics_on_other_kinds [COther "time.Time" None] 0)
             (COther "time.Time" None));
      [lia|reflexivity|done|by intros []|done].
Defined.

(** ** [pkFromEventData] and [PK] *)

(** X5.  [pkFromEventData] checks the width of the row first: a row whose
    width is not the column count gives the column-count error and the value
    0, whatever the primary-key columns are.  With a row of the right width,
    a table without primary-key column makes it panic on [PKColumns[0]], and
    so does a primary-key index outside the row on [r[colIdx]]. *)
Theorem pkFromEventData_edges :
  ∀ (base : DMLEventBase.t) (rowData : list cell),
    let table := DMLEventBase.table base in
    (length rowData ≠ length (Table.Columns table) →
     pkFromEventData base rowData
     = Ret (0, Some (ErrColumnCount (Table.Schema table) (Table.Name table)
                       (length (Table.Columns table)) (length rowData))))
    ∧ (length rowData = length (Table.Columns table) →
       Table.PKColumns table = [] →
       pkFromEventData base rowData = Panic (IndexOutOfRange 0 0))
    ∧ (∀ pkIndex rest,
         length rowData = length (Table.Columns table) →
         Table.PKColumns table = pkIndex :: rest →
         pkIndex < 0 ∨ Z.of_nat (length rowData) <= pkIndex →
         pkFromEventData base rowData
         = Panic (IndexOutOfRange pkIndex (length rowData))).
Proof.
  intros base rowData table. unfold pkFromEventData. fold table.
  split; [|split].
  - intros Hlen. by rewrite verify_other_length.
  - intros Hlen Hpk. by rewrite verify_same_length, Hpk.
  - intros pkIndex rest Hlen Hpk Hout.
    rewrite verify_same_length, Hpk, index_0 by done. go_step.
    by apply GetUint64_out_of_range.
Qed.

Lemma pkFromEventData_edges_witness :
  pkFromEventData (DMLEventBase.mk tableABC) [CInt64 1]
  = Ret (0, Some (ErrColumnCount "s" "t" 3 1)).
Proof.
  apply (proj1 (pkFromEventData_edges (DMLEventBase.mk tableABC) [CInt64 1])).
  vm_compute. lia.
Defined.

(** ** The statements of INSERT and DELETE rows events *)

Section more_events.
Local Open Scope nat_scope.

(** X6.  For a rows event of [N] rows [NewBinlogInsertEvents] and
    [NewBinlogDeleteEvents] return [N] statements without error, in row
    order: the statement at index [i] holds row [i], as its new values with
    no old values for an INSERT, as its old values with no new values for a
    DELETE.  An event without rows gives the empty list. *)
Theorem insert_and_delete_events_follow_the_rows :
  ∀ (table : Table.t) (rowsEvent : RowsEvent.t),
    (∃ events,
       NewBinlogInsertEvents table rowsEvent = Ret (events, None)
       ∧ length events = length (RowsEvent.Rows rowsEvent)
       ∧ ∀ i row,
           RowsEvent.Rows rowsEvent !! i = Some row →
           ∃ e, events !! i = Some (Some e)
                ∧ NewValues e = row ∧ OldValues e = None
                ∧ TableSchema e = table)
    ∧ (∃ events,
         NewBinlogDeleteEvents table rowsEvent = Ret (events, None)
         ∧ length events = length (RowsEvent.Rows rowsEvent)
         ∧ ∀ i row,
             RowsEvent.Rows rowsEvent !! i = Some row →
             ∃ e, events !! i = Some (Some e)
                  ∧ OldValues e = row ∧ NewValues e = None
                  ∧ TableSchema e = table).
Proof.
  intros table rowsEvent. split.
  - rewrite NewBinlogInsertEvents_spec. eexists. split; [done|].
    split; [by rewrite length_fmap|]. intros i row Hrow.
    eexists. rewrite list_lookup_fmap, Hrow. done.
  - rewrite NewBinlogDeleteEvents_spec. eexists. split; [done|].
    split; [by rewrite length_fmap|]. intros i row Hrow.
    eexists. rewrite list_lookup_fmap, Hrow. done.
Qed.

Lemma insert_and_delete_events_follow_the_rows_witness :
  ∃ events,
    NewBinlogDeleteEvents tableIdName (RowsEvent.mk [Some 4; None; Some 2])
    = Ret (events, None)
    ∧ length events = 3
    ∧ ∃ e, events !! 2 = Some (Some e) ∧ OldValues e = Some 2.
Proof.
  destruct (proj2 (insert_and_delete_events_follow_the_rows tableIdName
                     (RowsEvent.mk [Some 4; None; Some 2])))
    as (events & Hrun & Hlen & Hrows).
  exists events. split; [exact Hrun|]. split; [exact Hlen|].
  destruct (Hrows 2 (Some 2) eq_refl) as (e & He & Hold & _).
  exists e. by split.
Defined.

(** The row images of the statements a dispatch returns are rows of the
    event, and the statements carry the table. *)
Lemma dispatch_events_images (table : Table.t) (eventType : EventType)
    (rowsEvent : RowsEvent.t) (events : list (option DMLEvent))
    (err : option error) (e : DMLEvent) :
  dispatchOnEventType table eventType rowsEvent = Ret (events, err) →
  Some e ∈ events →
  TableSchema e = table
  ∧ match e with
    | BinlogInsertEvent newValues _ => newValues ∈ RowsEvent.Rows rowsEvent
    | BinlogUpdateEvent oldValues newValues _ =>
        oldValues ∈ RowsEvent.Rows rowsEvent
        ∧ newValues ∈ RowsEvent.Rows rowsEvent
    | BinlogDeleteEvent oldValues _ => oldValues ∈ RowsEvent.Rows rowsEvent
    end.
Proof.
  assert (Hupdate :
    NewBinlogUpdateEvents table rowsEvent = Ret (events, err) →
    Some e ∈ events →
    TableSchema e = table
    ∧ match e with
      | BinlogInsertEvent newValues _ => newValues ∈ RowsEvent.Rows rowsEvent
      | BinlogUpdateEvent oldValues newValues _ =>
          oldValues ∈ RowsEvent.Rows rowsEvent
          ∧ newValues ∈ RowsEvent.Rows rowsEvent
      | BinlogDeleteEvent oldValues _ => oldValues ∈ RowsEvent.Rows rowsEvent
      end).
  { intros Hrun Hin.
    destruct (Nat.eq_dec (length (RowsEvent.Rows rowsEvent) mod 2) 1)
      as [Hodd|Heven].
    { by rewrite (NewBinlogUpdateEvents_odd _ _ Hodd) in Hrun. }
    destruct (NewBinlogUpdateEvents_even table rowsEvent
                (length (RowsEvent.Rows rowsEvent) / 2))
      as (events' & Hrun' & Hlen & Hev); [lia|].
    rewrite Hrun' in Hrun. injection Hrun as <- <-.
    apply list_elem_of_lookup in Hin as [i Hi].
    destruct (Hev i) as (e' & old & new & He' & Hold & Hnew & ->).
    { rewrite <- Hlen. by eapply lookup_lt_Some. }
    rewrite He' in Hi. injection Hi as <-. split; [done|].
    split; by eapply list_elem_of_lookup_2. }
  unfold dispatchOnEventType.
  destruct eventType; try done;
    rewrite ?NewBinlogInsertEvents_spec, ?NewBinlogDeleteEvents_spec;
    intros [= <- <-] Hin; try (by apply elem_of_nil in Hin);
    by apply list_elem_of_fmap in Hin as (row & [= ->] & Hrow).
Qed.

End more_events.

Lemma NewBinlogDMLEvents_inv (table : Table.t) (ev : BinlogEvent.t)
    (rowsEvent : RowsEvent.t) (h h' : store)
    (events : list (option DMLEvent)) (err : option error) :
  BinlogEvent.Event ev = BinlogEvent.IsRowsEvent rowsEvent →
  NewBinlogDMLEvents table ev h = Ret ((events, err), h') →
  (∃ e, rowsLoop table (RowsEvent.Rows rowsEvent) h = Ret (Some e, h')
        ∧ events = [] ∧ err = Some e)
  ∨ (rowsLoop table (RowsEvent.Rows rowsEvent) h = Ret (None, h')
     ∧ dispatchOnEventType table (BinlogEvent.Header_EventType ev) rowsEvent
       = Ret (events, err)).
Proof.
  intros Hev. unfold NewBinlogDMLEvents. rewrite Hev.
  destruct (rowsLoop_frame table (RowsEvent.Rows rowsEvent) h)
    as (er & h1 & -> & _).
  go_step. destruct er as [e|].
  - intros [= <- <- <-]. left. by exists e.
  - destruct (dispatchOnEventType _ _ _) as [[events' err']|p]; [|done].
    go_step. intros [= <- <- <-]. by right.
Qed.

(** X7.  Every statement the dispatch entry point returns carries the table
    it was given: [TableSchema()] is that table, [Database()] its schema name
    and [Table()] its table name, for the three kinds of rows events. *)
Theorem dispatched_statements_carry_the_table :
  ∀ (table : Table.t) (ev : BinlogEvent.t) (rowsEvent : RowsEvent.t)
    (h h' : store) (events : list (option DMLEvent)) (err : option error)
    (e : DMLEvent),
    BinlogEvent.Event ev = BinlogEvent.IsRowsEvent rowsEvent →
    NewBinlogDMLEvents table ev h = Ret ((events, err), h') →
    Some e ∈ events →
    TableSchema e = table
    ∧ Database e = Table.Schema table
    ∧ Table e = Table.Name table.
Proof.
  intros table ev rowsEvent h h' events err e Hev Hrun Hin.
  destruct (NewBinlogDMLEvents_inv _ _ _ _ _ _ _ Hev Hrun)
    as [(er & _ & -> & _)|[_ Hdispatch]].
  { by apply elem_of_nil in Hin. }
  destruct (dispatch_events_images _ _ _ _ _ _ Hdispatch Hin) as [Ht _].
  unfold Database, Table. unfold TableSchema in Ht. by rewrite Ht.
Qed.

Lemma dispatched_statements_carry_the_table_witness :
  ∃ e h',
    NewBinlogDMLEvents tableUnsignedId (oneRowEvent DELETE_ROWS_EVENTv1)
      (storeOfId 3)
    = Ret (([Some e], None), h')
    ∧ TableSchema e = tableUnsignedId
    ∧ Database e = "s" ∧ Table e = "t".
Proof.
  assert (Hrun : ∃ e h',
            NewBinlogDMLEvents tableUnsignedId (oneRowEvent DELETE_ROWS_EVENTv1)
              (storeOfId 3)
            = Ret (([Some e], None), h')).
  { eexists _, _. vm_compute. reflexivity. }
  destruct Hrun as (e & h' & Hrun). exists e, h'. split; [exact Hrun|].
  apply (dispatched_statements_carry_the_table tableUnsignedId
           (oneRowEvent DELETE_ROWS_EVENTv1) (RowsEvent.mk [Some 0%nat])
           (storeOfId 3) h' [Some e] None e eq_refl Hrun).
  apply list_elem_of_here.
Defined.

(** ** The dispatch entry point and the store *)

Lemma rowsLoop_prefix (table : Table.t) (pre : list RowData) (h : store) :
  Forall (λ row, length (contents h row) = length (Table.Columns table)) pre →
  ∃ h1,
    (∀ r, contents h1 r
          = if decide (r ∈ pre)
            then normalizeRow (Table.Columns table) (contents h r)
            else contents h r)
    ∧ ∀ rest, rowsLoop table (pre ++ rest) h = rowsLoop table rest h1.
Proof.
  revert h. induction pre as [|row pre IH]; intros h Hall.
  - exists h. split; [|done]. intros r. rewrite decide_False; [done|].
    apply not_elem_of_nil.
  - inversion_clear Hall as [|?? Hlen Hrest].
    destruct (columnsLoop_row row _ h Hlen) as (h0 & Hrun & Hh0).
    destruct (IH h0) as (h1 & Hh1 & Hloop).
    { eapply Forall_impl; [exact Hrest|]. intros r Hr. simpl in Hr.
      rewrite Hh0. case_decide as E; [|done]. subst r.
      by rewrite normalizeRow_length. }
    exists h1. split.
    + intros r. rewrite Hh1, !Hh0.
      destruct (decide (r = row)) as [->|Hr].
      * rewrite (decide_True (P := row ∈ row :: pre)) by apply list_elem_of_here.
        case_decide; [apply normalizeRow_idemp|done].
      * destruct (decide (r ∈ pre)) as [Hin|Hin].
        -- by rewrite decide_True by (by apply list_elem_of_further).
        -- rewrite decide_False; [done|].
           intros [?|?]%elem_of_cons; done.
    + intros rest. cbn [app rowsLoop].
      rewrite bool_decide_false by (by intros []).
      rewrite Hrun. go_step. apply Hloop.
Qed.

Lemma first_mismatch (table : Table.t) (rows : list RowData) (h : store) :
  ¬ Forall (λ row, length (contents h row) = length (Table.Columns table))
      rows →
  ∃ pre bad post,
    rows = pre ++ bad :: post
    ∧ Forall (λ row, length (contents h row) = length (Table.Columns table))
        pre
    ∧ length (contents h bad) ≠ length (Table.Columns table).
Proof.
  induction rows as [|row rows IH]; intros Hnot.
  - by destruct Hnot.
  - destruct (decide (length (contents h row)
                      = length (Table.Columns table))) as [Hok|Hbad].
    + destruct IH as (pre & bad & post & -> & Hpre & Hbad).
      { intros Hall. apply Hnot. by constructor. }
      exists (row :: pre), bad, post. split; [done|]. split; [|done].
      by constructor.
    + exists [], row, rows. by split; [|split].
Qed.

Lemma rowsLoop_first_mismatch (table : Table.t) (pre post : list RowData)
    (bad : RowData) (h : store) :
  Forall (λ row, length (contents h row) = length (Table.Columns table)) pre →
  length (contents h bad) ≠ length (Table.Columns table) →
  ∃ h',
    rowsLoop table (pre ++ bad :: post) h
    = Ret (Some (ErrColumnCount (Table.Schema table) (Table.Name table)
                   (length (Table.Columns table)) (length (contents h bad))),
           h')
    ∧ ∀ r, contents h' r
           = if decide (r ∈ pre)
             then normalizeRow (Table.Columns table) (contents h r)
             else contents h r.
Proof.
  intros Hpre Hbad.
  destruct (rowsLoop_prefix table pre h Hpre) as (h1 & Hh1 & ->).
  exists h1. split; [|done].
  assert (Hsame : contents h1 bad = contents h bad).
  { rewrite Hh1. rewrite decide_False; [done|]. intros Hin.
    rewrite Forall_forall in Hpre. by apply Hbad, Hpre. }
  cbn [rowsLoop]. rewrite Hsame. by rewrite bool_decide_true.
Qed.

(** X8.  A binlog event that is not a rows event makes the dispatch entry
    point panic on its type assertion.  A rows event of a type other than
    the six WRITE, UPDATE and DELETE types gives the error "unrecognized rows
    event" with the nil list - but only after the rows have been checked and
    normalized: the store returned holds the normalized rows. *)
Theorem unrecognized_events :
  (∀ (table : Table.t) (ev : BinlogEvent.t) (h : store),
     BinlogEvent.Event ev = BinlogEvent.IsOtherEvent →
     NewBinlogDMLEvents table ev h = Panic InterfaceConversion)
  ∧ (∀ (table : Table.t) (ev : BinlogEvent.t) (rowsEvent : RowsEvent.t)
       (h : store) (code : Z),
       BinlogEvent.Event ev = BinlogEvent.IsRowsEvent rowsEvent →
       BinlogEvent.Header_EventType ev = OTHER_EVENT code →
       Forall (λ row, length (contents h row) = length (Table.Columns table))
         (RowsEvent.Rows rowsEvent) →
       ∃ h',
         NewBinlogDMLEvents table ev h
         = Ret (([], Some (ErrUnrecognizedRowsEvent (OTHER_EVENT code))), h')
         ∧ ∀ r, contents h' r
                = if decide (r ∈ RowsEvent.Rows rowsEvent)
                  then normalizeRow (Table.Columns table) (contents h r)
                  else contents h r).
Proof.
  split.
  - intros table ev h Hev. unfold NewBinlogDMLEvents. by rewrite Hev.
  - intros table ev rowsEvent h code Hev Htype Hall.
    destruct (NewBinlogDMLEvents_rows table ev rowsEvent h Hev Hall)
      as (h' & _ & Hh' & ->).
    exists h'. split; [|done]. by rewrite Htype.
Qed.

Lemma unrecognized_events_witness :
  ∃ h',
    NewBinlogDMLEvents tableUnsignedId (oneRowEvent (OTHER_EVENT 20))
      (storeOfId (-1))
    = Ret (([], Some (ErrUnrecognizedRowsEvent (OTHER_EVENT 20))), h')
    ∧ contents h' (Some 0%nat)
      = normalizeRow (Table.Columns tableUnsignedId) [CInt64 (-1)].
Proof.
  destruct (proj2 unrecognized_events tableUnsignedId
              (oneRowEvent (OTHER_EVENT 20)) (RowsEvent.mk [Some 0%nat])
              (storeOfId (-1)) 20 eq_refl eq_refl
              ltac:(by repeat constructor)) as (h' & Hrun & Hh').
  exists h'. split; [exact Hrun|]. apply (Hh' (Some 0%nat)).
Defined.

(** X9.  A width error is not atomic.  When the rows before the first row of
    a wrong width all have the width of the table, the dispatch entry point
    returns the column-count error for that first row, reporting its width -
    and the rows before it have been normalized in place all the same; every
    other buffer, the rows after it included, is left as it was. *)
Theorem width_error_leaves_earlier_rows_normalized :
  ∀ (table : Table.t) (ev : BinlogEvent.t) (rowsEvent : RowsEvent.t)
    (h : store) (pre post : list RowData) (bad : RowData),
    BinlogEvent.Event ev = BinlogEvent.IsRowsEvent rowsEvent →
    RowsEvent.Rows rowsEvent = pre ++ bad :: post →
    Forall (λ row, length (contents h row) = length (Table.Columns table))
      pre →
    length (contents h bad) ≠ length (Table.Columns table) →
    ∃ h',
      NewBinlogDMLEvents table ev h
      = Ret (([], Some (ErrColumnCount (Table.Schema table) (Table.Name table)
                          (length (Table.Columns table))
                          (length (contents h bad)))), h')
      ∧ ∀ r, contents h' r
             = if decide (r ∈ pre)
               then normalizeRow (Table.Columns table) (contents h r)
               else contents h r.
Proof.
  intros table ev rowsEvent h pre post bad Hev Hrows Hpre Hbad.
  destruct (rowsLoop_first_mismatch table pre post bad h Hpre Hbad)
    as (h' & Hrun & Hh').
  exists h'. split; [|done].
  unfold NewBinlogDMLEvents. by rewrite Hev, Hrows, Hrun.
Qed.

Lemma width_error_leaves_earlier_rows_normalized_witness :
  ∃ h',
    NewBinlogDMLEvents tableUnsignedId
      (BinlogEvent.mk WRITE_ROWS_EVENTv2
         (BinlogEvent.IsRowsEvent (RowsEvent.mk [Some 0%nat; Some 1%nat])))
      (<[1%nat := [CInt64 2; CInt64 3]]> (storeOfId (-1)))
    = Ret (([], Some (ErrColumnCount "s" "t" 1 2)), h')
    ∧ contents h' (Some 0%nat)
      = normalizeRow (Table.Columns tableUnsignedId) [CInt64 (-1)].
Proof.
  destruct (width_error_leaves_earlier_rows_normalized tableUnsignedId
              (BinlogEvent.mk WRITE_ROWS_EVENTv2
                 (BinlogEvent.IsRowsEvent
                    (RowsEvent.mk [Some 0%nat; Some 1%nat])))
              (RowsEvent.mk [Some 0%nat; Some 1%nat])
              (<[1%nat := [CInt64 2; CInt64 3]]> (storeOfId (-1)))
              [Some 0%nat] [] (Some 1%nat) eq_refl eq_refl
              ltac:(by repeat constructor) ltac:(by vm_compute))
    as (h' & Hrun & Hh').
  exists h'. split; [exact Hrun|]. apply (Hh' (Some 0%nat)).
Defined.

(** X10.  The normalization is idempotent: running the dispatch entry point
    again on the store it returned gives the same statements and the same
    error, and leaves the contents of every buffer as they are. *)
Theorem dispatch_is_idempotent :
  ∀ (table : Table.t) (ev : BinlogEvent.t) (h h' : store)
    (events : list (option DMLEvent)) (err : option error),
    NewBinlogDMLEvents table ev h = Ret ((events, err), h') →
    ∃ h'',
      NewBinlogDMLEvents table ev h' = Ret ((events, err), h'')
      ∧ ∀ r, contents h'' r = contents h' r.
Proof.
  intros table ev h h' events err Hrun.
  destruct (BinlogEvent.Event ev) as [rowsEvent|] eqn:Hev; cycle 1.
  { unfold NewBinlogDMLEvents in Hrun. by rewrite Hev in Hrun. }
  destruct (NewBinlogDMLEvents_inv _ _ _ _ _ _ _ Hev Hrun)
    as [(e & Hloop & -> & ->)|[Hloop Hdispatch]].
  - destruct (decide (Forall (λ row, length (contents h row)
                                     = length (Table.Columns table))
                        (RowsEvent.Rows rowsEvent))) as [Hall|Hnot].
    { destruct (rowsLoop_spec table _ h Hall) as (h1 & Hloop1 & _).
      by rewrite Hloop1 in Hloop. }
    destruct (first_mismatch _ _ _ Hnot) as (pre & bad & post & Hrows & Hpre & Hbad).
    destruct (rowsLoop_first_mismatch table pre post bad h Hpre Hbad)
      as (h1 & Hloop1 & Hh1).
    rewrite Hrows, Hloop1 in Hloop. injection Hloop as <- <-.
    assert (Hsame : contents h1 bad = contents h bad).
    { rewrite Hh1. rewrite decide_False; [done|]. intros Hin.
      rewrite Forall_forall in Hpre. by apply Hbad, Hpre. }
    destruct (rowsLoop_first_mismatch table pre post bad h1)
      as (h2 & Hloop2 & Hh2).
    { apply Forall_forall. intros r Hr. rewrite Hh1, decide_True by done.
      rewrite Forall_forall in Hpre. by rewrite normalizeRow_length; apply Hpre. }
    { by rewrite Hsame. }
    exists h2. split.
    + unfold NewBinlogDMLEvents. by rewrite Hev, Hrows, Hloop2, Hsame.
    + intros r. rewrite Hh2, !Hh1. case_decide; [|done].
      apply normalizeRow_idemp.
  - pose proof (rowsLoop_no_error _ _ _ _ Hloop) as Hall.
    destruct (rowsLoop_spec table _ h Hall) as (h1 & Hloop1 & Hh1).
    rewrite Hloop in Hloop1. injection Hloop1 as <-.
    destruct (NewBinlogDMLEvents_rows table ev rowsEvent h' Hev)
      as (h2 & _ & Hh2 & ->).
    { apply Forall_forall. intros r Hr. rewrite Hh1, decide_True by done.
      rewrite Forall_forall in Hall. by rewrite normalizeRow_length; apply Hall. }
    exists h2. split; [by rewrite Hdispatch|].
    intros r. rewrite Hh2, !Hh1. case_decide; [|done].
    apply normalizeRow_idemp.
Qed.

Lemma dispatch_is_idempotent_witness :
  ∃ e h' h'',
    NewBinlogDMLEvents tableUnsignedId (oneRowEvent WRITE_ROWS_EVENTv2)
      (storeOfId (-1))
    = Ret (([Some e], None), h')
    ∧ NewBinlogDMLEvents tableUnsignedId (oneRowEvent WRITE_ROWS_EVENTv2) h'
      = Ret (([Some e], None), h'')
    ∧ contents h'' (Some 0%nat) = contents h' (Some 0%nat).
Proof.
  assert (Hrun : ∃ e h',
            NewBinlogDMLEvents tableUnsignedId (oneRowEvent WRITE_ROWS_EVENTv2)
              (storeOfId (-1))
            = Ret (([Some e], None), h')).
  { eexists _, _. vm_compute. reflexivity. }
  destruct Hrun as (e & h' & Hrun).
  destruct (dispatch_is_idempotent _ _ _ _ _ _ Hrun) as (h'' & Hagain & Hsame).
  exists e, h', h''. split; [exact Hrun|]. split; [exact Hagain|].
  apply Hsame.
Defined.

(** ** More on projection and rendering *)

Lemma AsSQLString_of_images (h1 h2 : store) (e : DMLEvent)
    (intersection : Table.t) :
  loadColumnsAndValuesInIntersection (TableSchema e) intersection
    (rowImages h1 e)
  = loadColumnsAndValuesInIntersection (TableSchema e) intersection
      (rowImages h2 e) →
  AsSQLString h1 e intersection = AsSQLString h2 e intersection.
Proof.
  destruct e; unfold AsSQLString, TableSchema, rowImages; simpl;
    by intros ->.
Qed.

Lemma AsSQLString_no_error (h : store) (e : DMLEvent) (intersection : Table.t)
    (s : string) (err : error) :
  Forall (λ values, length values = length (Table.Columns (TableSchema e)))
    (rowImages h e) →
  AsSQLString h e intersection ≠ Ret (s, Some err).
Proof.
  intros Hall.
  destruct (decide (Table.Columns (TableSchema e) = [])) as [Hz|Ht].
  { rewrite (proj1 (AsSQLString_load h e intersection) _
               (loadColumnsAndValuesInIntersection_zero _ _ _ (or_introl Hz))).
    done. }
  destruct (decide (Table.Columns intersection = [])) as [Hz|Hi].
  { rewrite (proj1 (AsSQLString_load h e intersection) _
               (loadColumnsAndValuesInIntersection_zero _ _ _ (or_intror Hz))).
    done. }
  pose proof (loadColumnsAndValuesInIntersection_spec _ intersection _
                Ht Hi Hall) as Hload.
  destruct e; unfold AsSQLString; unfold TableSchema, rowImages in Hload;
    simpl in Hload; rewrite Hload; go_step; go_cases; done.
Qed.

(** X11.  After a dispatch, every row image of every statement returned has
    the width of the table in the store returned: the width checks of
    [AsSQLString] and [PK] pass on it, and [AsSQLString] returns no error on
    any intersection. *)
Theorem dispatched_statements_have_the_table_width :
  ∀ (table : Table.t) (ev : BinlogEvent.t) (rowsEvent : RowsEvent.t)
    (h h' : store) (events : list (option DMLEvent)) (err : option error)
    (e : DMLEvent),
    BinlogEvent.Event ev = BinlogEvent.IsRowsEvent rowsEvent →
    NewBinlogDMLEvents table ev h = Ret ((events, err), h') →
    Some e ∈ events →
    Forall (λ values,
              verifyValuesHasTheSameLengthAsColumns (TableSchema e) values
              = None)
      (rowImages h' e)
    ∧ ∀ intersection s er,
        AsSQLString h' e intersection ≠ Ret (s, Some er).
Proof.
  intros table ev rowsEvent h h' events err e Hev Hrun Hin.
  destruct (NewBinlogDMLEvents_inv _ _ _ _ _ _ _ Hev Hrun)
    as [(er & _ & -> & _)|[Hloop Hdispatch]].
  { by apply elem_of_nil in Hin. }
  destruct (dispatch_events_images _ _ _ _ _ _ Hdispatch Hin) as [Ht Himg].
  pose proof (rowsLoop_no_error _ _ _ _ Hloop) as Hall.
  destruct (rowsLoop_spec table _ h Hall) as (h1 & Hloop1 & Hh1).
  rewrite Hloop in Hloop1. injection Hloop1 as <-.
  assert (Hwidth : ∀ row, row ∈ RowsEvent.Rows rowsEvent →
            length (contents h' row) = length (Table.Columns table)).
  { intros row Hrow. rewrite Hh1, decide_True by done.
    rewrite Forall_forall in Hall. by rewrite normalizeRow_length; apply Hall. }
  assert (Hok : Forall (λ values, length values
                                  = length (Table.Columns (TableSchema e)))
                  (rowImages h' e)).
  { rewrite Ht. destruct e; simpl; repeat constructor;
      apply Hwidth; tauto. }
  split.
  - eapply Forall_impl; [exact Hok|]. intros values Hv.
    by apply verify_same_length.
  - intros intersection s er. by apply AsSQLString_no_error.
Qed.

Lemma dispatched_statements_have_the_table_width_witness :
  ∃ e h',
    NewBinlogDMLEvents tableUnsignedId (oneRowEvent WRITE_ROWS_EVENTv2)
      (storeOfId (-1))
    = Ret (([Some e], None), h')
    ∧ Forall (λ values,
                verifyValuesHasTheSameLengthAsColumns (TableSchema e) values
                = None)
        (rowImages h' e).
Proof.
  assert (Hrun : ∃ e h',
            NewBinlogDMLEvents tableUnsignedId (oneRowEvent WRITE_ROWS_EVENTv2)
              (storeOfId (-1))
            = Ret (([Some e], None), h')).
  { eexists _, _. vm_compute. reflexivity. }
  destruct Hrun as (e & h' & Hrun). exists e, h'. split; [exact Hrun|].
  apply (dispatched_statements_have_the_table_width tableUnsignedId
           (oneRowEvent WRITE_ROWS_EVENTv2) (RowsEvent.mk [Some 0%nat])
           (storeOfId (-1)) h' [Some e] None e eq_refl Hrun).
  apply list_elem_of_here.
Defined.

Lemma matched_nil (table intersection : Table.t) :
  (∀ col, col ∈ Table.Columns table →
          TableColumn.Name col
          ∉ TableColumn.Name <$> Table.Columns intersection) →
  matched table intersection = [].
Proof.
  intros Hnone. destruct (matched table intersection) as [|[i q] rest] eqn:E;
    [done|].
  assert (Hin : (i, q) ∈ matched table intersection).
  { rewrite E. apply list_elem_of_here. }
  apply matched_elem in Hin as (col & Hcol & Hname & _).
  destruct (Hnone col); [by eapply list_elem_of_lookup_2|done].
Qed.

(** X12.  When no source column has its name in the intersection - both
    column lists being non-empty and the rows of the right width - rendering
    returns no error: it returns a statement with empty lists, [INSERT
    IGNORE INTO q () VALUES ()], [UPDATE q SET  WHERE ], [DELETE FROM q
    WHERE ]. *)
Theorem no_common_column_renders_empty_lists :
  ∀ (h : store) (e : DMLEvent) (intersection : Table.t),
    Table.Columns (TableSchema e) ≠ [] →
    Table.Columns intersection ≠ [] →
    Forall (λ values, length values = length (Table.Columns (TableSchema e)))
      (rowImages h e) →
    (∀ col, col ∈ Table.Columns (TableSchema e) →
            TableColumn.Name col
            ∉ TableColumn.Name <$> Table.Columns intersection) →
    AsSQLString h e intersection
    = Ret (match e with
           | BinlogInsertEvent _ _ =>
               "INSERT IGNORE INTO " +:+
               QuotedTableNameFromString (Table.Schema intersection)
                 (Table.Name intersection) +:+ " () VALUES ()"
           | BinlogUpdateEvent _ _ _ =>
               "UPDATE " +:+
               QuotedTableNameFromString (Table.Schema intersection)
                 (Table.Name intersection) +:+ " SET  WHERE "
           | BinlogDeleteEvent _ _ =>
               "DELETE FROM " +:+
               QuotedTableNameFromString (Table.Schema intersection)
                 (Table.Name intersection) +:+ " WHERE "
           end, None).
Proof.
  intros h e intersection Ht Hi Hall Hnone.
  pose proof (loadColumnsAndValuesInIntersection_spec _ intersection _
                Ht Hi Hall) as Hload.
  rewrite (matched_nil _ _ Hnone) in Hload.
  destruct e; unfold AsSQLString; unfold TableSchema, rowImages in Hload;
    simpl in Hload; rewrite Hload; reflexivity.
Qed.

Lemma no_common_column_renders_empty_lists_witness :
  AsSQLString storeABC
    (BinlogInsertEvent (Some 0%nat) (DMLEventBase.mk tableABC)) tableIdName
  = Ret ("INSERT IGNORE INTO " +:+ QuotedTableNameFromString "s" "t" +:+
         " () VALUES ()", None).
Proof.
  apply (no_common_column_renders_empty_lists storeABC
           (BinlogInsertEvent (Some 0%nat) (DMLEventBase.mk tableABC))
           tableIdName); [done|done|by repeat constructor|].
  intros col Hcol. vm_compute in Hcol.
  repeat (apply elem_of_cons in Hcol as [->|Hcol];
          [vm_compute; intros H;
           repeat (apply elem_of_cons in H as [H|H]; [discriminate|]);
           by apply elem_of_nil in H|]).
  by apply elem_of_nil in Hcol.
Defined.

Lemma filter_all {A : Type} (P : A → Prop) `{∀ x, Decision (P x)}
    (l : list A) :
  Forall P l → filter P l = l.
Proof.
  induction 1 as [|x l Hx _ IH]; [done|].
  by rewrite filter_cons_True, IH.
Qed.

Lemma imap_pair_snd {A : Type} (l : list A) (i : nat) :
  (imap (λ j x, ((i + j)%nat, x)) l).*2 = l.
Proof.
  revert i. induction l as [|x l IH]; intros i; [done|].
  rewrite imap_cons. cbn [fmap list_fmap snd]. f_equal.
  rewrite <- (IH (S i)) at 2. f_equal.
  apply imap_ext. intros j y _. simpl. f_equal. lia.
Qed.

Lemma project_seq (row : list cell) (i k : nat) :
  (i + k ≤ length row)%nat → project (seq i k) row = take k (drop i row).
Proof.
  revert i. induction k as [|k IH]; intros i Hlen; [done|].
  cbn [seq]. rewrite project_cons.
  destruct (lookup_lt_is_Some_2 row i) as [v Hv]; [lia|].
  rewrite Hv, (drop_S _ _ _ Hv). cbn [take]. f_equal. apply IH. lia.
Qed.

Lemma matched_all (table intersection : Table.t) :
  (∀ col, col ∈ Table.Columns table →
          TableColumn.Name col
          ∈ TableColumn.Name <$> Table.Columns intersection) →
  (matched table intersection).*1 = seq 0 (length (Table.Columns table))
  ∧ (matched table intersection).*2
    = (λ col, quoteField (TableColumn.Name col)) <$> Table.Columns table.
Proof.
  intros Hall. unfold matched. rewrite filter_all.
  - rewrite <- !list_fmap_compose. split.
    + apply (imap_pair_fst (Table.Columns table) 0).
    + change (snd ∘ _) with
        ((λ col, quoteField (TableColumn.Name col)) ∘ (@snd nat TableColumn.t)).
      rewrite list_fmap_compose. f_equal.
      exact (imap_pair_snd (Table.Columns table) 0).
  - apply Forall_forall. intros [i col] Hin.
    apply elem_of_lookup_imap in Hin as (n & c' & [= -> ->] & Hn).
    apply Hall. by eapply list_elem_of_lookup_2.
Qed.

(** X13.  When every source column has its name in the intersection - in
    particular when the intersection is the source table itself - the
    projection keeps everything: it returns the quoted names of all the
    source columns, in order, and every row image as it is. *)
Theorem projection_on_a_superset_keeps_the_rows :
  ∀ (table intersection : Table.t) (images : list (list cell)),
    Table.Columns table ≠ [] →
    Table.Columns intersection ≠ [] →
    Forall (λ values, length values = length (Table.Columns table)) images →
    (∀ col, col ∈ Table.Columns table →
            TableColumn.Name col
            ∈ TableColumn.Name <$> Table.Columns intersection) →
    loadColumnsAndValuesInIntersection table intersection images
    = Ret ((λ col, quoteField (TableColumn.Name col)) <$> Table.Columns table,
           images, None)
    ∧ loadColumnsAndValuesInIntersection table table images
      = Ret ((λ col, quoteField (TableColumn.Name col)) <$> Table.Columns table,
             images, None).
Proof.
  assert (Hgen : ∀ (table intersection : Table.t) (images : list (list cell)),
    Table.Columns table ≠ [] →
    Table.Columns intersection ≠ [] →
    Forall (λ values, length values = length (Table.Columns table)) images →
    (∀ col, col ∈ Table.Columns table →
            TableColumn.Name col
            ∈ TableColumn.Name <$> Table.Columns intersection) →
    loadColumnsAndValuesInIntersection table intersection images
    = Ret ((λ col, quoteField (TableColumn.Name col)) <$> Table.Columns table,
           images, None)).
  { intros table intersection images Ht Hi Hlen Hall.
    rewrite loadColumnsAndValuesInIntersection_spec by done.
    destruct (matched_all _ _ Hall) as [-> ->]. do 3 f_equal.
    rewrite <- (list_fmap_id images) at 2. apply Forall_fmap_ext.
    eapply Forall_impl; [exact Hlen|]. intros values Hv. simpl in Hv.
    unfold id. rewrite project_seq by lia. rewrite drop_0. apply take_ge. lia. }
  intros table intersection images Ht Hi Hlen Hall.
  split; [by apply Hgen|]. apply Hgen; try done.
  intros col Hcol. by apply list_elem_of_fmap_2.
Qed.

Lemma projection_on_a_superset_keeps_the_rows_witness :
  loadColumnsAndValuesInIntersection tableAC tableABC [[CInt64 1; CNil]]
  = Ret (["`a`"; "`c`"], [[CInt64 1; CNil]], None).
Proof.
  apply (proj1 (projection_on_a_superset_keeps_the_rows tableAC tableABC
                  [[CInt64 1; CNil]] ltac:(done) ltac:(done)
                  ltac:(by repeat constructor)
                  ltac:(intros col Hcol; vm_compute in Hcol;
                        repeat (apply elem_of_cons in Hcol as [->|Hcol];
                                [cbn; rewrite !elem_of_cons; tauto|]);
                        by apply elem_of_nil in Hcol))).
Defined.

(** X14.  Rendering reads the cells of the matched columns only.  When the
    row images of a statement have the width of the table in two stores and
    agree on the cells of the matched columns, [AsSQLString] gives the same
    result in both - a statement, or the same panic - whatever the other
    cells are, cells of an unsupported type included. *)
Theorem rendering_reads_matched_cells_only :
  ∀ (h1 h2 : store) (e : DMLEvent) (intersection : Table.t),
    Forall (λ values, length values = length (Table.Columns (TableSchema e)))
      (rowImages h1 e) →
    Forall (λ values, length values = length (Table.Columns (TableSchema e)))
      (rowImages h2 e) →
    project (matched (TableSchema e) intersection).*1 <$> rowImages h1 e
    = project (matched (TableSchema e) intersection).*1 <$> rowImages h2 e →
    AsSQLString h1 e intersection = AsSQLString h2 e intersection.
Proof.
  intros h1 h2 e intersection Hall1 Hall2 Hsame.
  apply AsSQLString_of_images.
  destruct (decide (Table.Columns (TableSchema e) = [])) as [Hz|Ht].
  { by rewrite !loadColumnsAndValuesInIntersection_zero by (by left). }
  destruct (decide (Table.Columns intersection = [])) as [Hz|Hi].
  { by rewrite !loadColumnsAndValuesInIntersection_zero by (by right). }
  rewrite !loadColumnsAndValuesInIntersection_spec by done.
  by rewrite Hsame.
Qed.

Lemma rendering_reads_matched_cells_only_witness :
  AsSQLString storeABC
    (BinlogInsertEvent (Some 0%nat) (DMLEventBase.mk tableABC)) tableAC
  = AsSQLString {[0%nat := [CInt64 1; COther "time.Time" None; CInt64 3]]}
      (BinlogInsertEvent (Some 0%nat) (DMLEventBase.mk tableABC)) tableAC.
Proof.
  apply rendering_reads_matched_cells_only;
    [by repeat constructor|by repeat constructor|reflexivity].
Defined.

Lemma names_empty (t1 t2 : Table.t) :
  (∀ x, x ∈ TableColumn.Name <$> Table.Columns t1
        ↔ x ∈ TableColumn.Name <$> Table.Columns t2) →
  Table.Columns t1 = [] → Table.Columns t2 = [].
Proof.
  intros Hnames H1. destruct (Table.Columns t2) as [|c rest] eqn:E; [done|].
  destruct (Hnames (TableColumn.Name c)) as [_ Hin].
  rewrite H1 in Hin. destruct (not_elem_of_nil (TableColumn.Name c)).
  apply Hin. apply list_elem_of_here.
Qed.

(** X15.  The intersection schema matters to rendering through its schema
    and table names and through the set of its column names only: two
    intersections with the same names and the same set of column names - in
    another order, with repeated columns - give the same projection and the
    same statement.  A source column is matched at most once. *)
Theorem intersection_matters_as_a_set_of_names :
  ∀ (table i1 i2 : Table.t),
    (∀ x, x ∈ TableColumn.Name <$> Table.Columns i1
          ↔ x ∈ TableColumn.Name <$> Table.Columns i2) →
    (∀ images,
       Table.Columns table ≠ [] →
       Table.Columns i1 ≠ [] →
       loadColumnsAndValuesInIntersection table i1 images
       = loadColumnsAndValuesInIntersection table i2 images)
    ∧ (∀ h e,
         TableSchema e = table →
         Table.Columns table ≠ [] →
         Table.Columns i1 ≠ [] →
         Table.Schema i1 = Table.Schema i2 →
         Table.Name i1 = Table.Name i2 →
         AsSQLString h e i1 = AsSQLString h e i2)
    ∧ NoDup (matched table i1).*1
    ∧ (length (matched table i1) ≤ length (Table.Columns table))%nat.
Proof.
  intros table i1 i2 Hnames.
  assert (Hmatched : matched table i1 = matched table i2).
  { unfold matched. f_equal. apply list_filter_iff. intros ic. apply Hnames. }
  assert (Hload : ∀ images,
            Table.Columns table ≠ [] →
            Table.Columns i1 ≠ [] →
            loadColumnsAndValuesInIntersection table i1 images
            = loadColumnsAndValuesInIntersection table i2 images).
  { intros images Ht H1.
    assert (H2 : Table.Columns i2 ≠ []).
    { intros H2. apply H1. apply (names_empty i2 i1); [|done].
      intros x. by rewrite Hnames. }
    unfold loadColumnsAndValuesInIntersection.
    rewrite !bool_decide_false by (by rewrite length_zero_iff_nil).
    simpl. by rewrite !sourceLoop_matched, Hmatched. }
  split; [done|]. split; [|split].
  - intros h e <- Ht H1 Hs Hn.
    destruct e; unfold AsSQLString; unfold TableSchema in Hload, Ht;
      simpl in Hload, Ht; by rewrite Hload, Hs, Hn.
  - eapply sublist_NoDup; [apply NoDup_seq|apply matched_source_order].
  - rewrite <- (length_fmap fst).
    pose proof (sublist_length _ _ (matched_source_order table i1)) as Hlen.
    by rewrite length_seq in Hlen.
Qed.

Lemma intersection_matters_as_a_set_of_names_witness :
  AsSQLString storeABC
    (BinlogInsertEvent (Some 0%nat) (DMLEventBase.mk tableABC)) tableAC
  = AsSQLString storeABC
      (BinlogInsertEvent (Some 0%nat) (DMLEventBase.mk tableABC))
      (Table.mk "s" "t"
         [TableColumn.mk "c" true; TableColumn.mk "a" false;
          TableColumn.mk "c" false] []).
Proof.
  apply (proj1 (proj2 (intersection_matters_as_a_set_of_names tableABC tableAC
                         (Table.mk "s" "t"
                            [TableColumn.mk "c" true; TableColumn.mk "a" false;
                             TableColumn.mk "c" false] [])
                         ltac:(intros x; cbn; rewrite !elem_of_cons, !elem_of_nil; tauto))));
    done.
Defined.

(** X16.  A DELETE statement is [DELETE FROM q WHERE ...] with the WHERE list
    built from the old row image over the matched columns, a NULL giving
    [c IS NULL]: the very WHERE list of the UPDATE statement with the same
    old image. *)
Theorem delete_where_old :
  ∀ (h : store) (oldValues : RowData) (base : DMLEventBase.t)
    (intersection : Table.t),
    let table := DMLEventBase.table base in
    let whereList :=
      String.concat " AND "
        (zip_with whereFragment (matched table intersection).*2
           (project (matched table intersection).*1 (contents h oldValues))) in
    Table.Columns table ≠ [] →
    Table.Columns intersection ≠ [] →
    length (contents h oldValues) = length (Table.Columns table) →
    Forall supported (contents h oldValues) →
    AsSQLString h (BinlogDeleteEvent oldValues base) intersection
    = Ret ("DELETE FROM " +:+
           QuotedTableNameFromString (Table.Schema intersection)
             (Table.Name intersection) +:+
           " WHERE " +:+ whereList, None)
    ∧ ∀ newValues,
        length (contents h newValues) = length (Table.Columns table) →
        Forall supported (contents h newValues) →
        ∃ setList,
          AsSQLString h (BinlogUpdateEvent oldValues newValues base)
            intersection
          = Ret ("UPDATE " +:+
                 QuotedTableNameFromString (Table.Schema intersection)
                   (Table.Name intersection) +:+
                 " SET " +:+ setList +:+ " WHERE " +:+ whereList, None).
Proof.
  intros h oldValues base intersection table whereList Ht Hi Hold Hsold.
  split.
  - unfold AsSQLString. fold table.
    rewrite loadColumnsAndValuesInIntersection_spec
      by (done || by repeat constructor).
    go_step. cbn [fmap list_fmap]. rewrite index_0. go_step.
    rewrite buildStringMapForWhere_join; [done| |by apply project_supported].
    rewrite !length_fmap. etrans; [apply project_length|].
    by rewrite length_fmap.
  - intros newValues Hnew Hsnew. eexists.
    by apply AsSQLString_update.
Qed.

Lemma delete_where_old_witness :
  AsSQLString storeIdName
    (BinlogDeleteEvent (Some 0%nat) (DMLEventBase.mk tableIdName)) tableIdName
  = Ret ("DELETE FROM `s`.`t` WHERE `id`=1 AND `name` IS NULL", None).
Proof.
  apply (proj1 (delete_where_old storeIdName (Some 0%nat)
                  (DMLEventBase.mk tableIdName) tableIdName
                  ltac:(done) ltac:(done) eq_refl
                  ltac:(by repeat constructor))).
Defined.

(** ** Escaping *)

Lemma appendQuoteDoubled_cons (c : ascii) (rest : string) :
  appendQuoteDoubled EmptyString (String c rest)
  = if Ascii.eqb c "'"
    then String "'" (String "'" (appendQuoteDoubled EmptyString rest))
    else String c (appendQuoteDoubled EmptyString rest).
Proof.
  cbn [appendQuoteDoubled]. rewrite !append_nil_l.
  destruct (Ascii.eqb c "'").
  - rewrite <- (append_nil_r "''") at 1.
    by rewrite appendQuoteDoubled_append.
  - rewrite <- (append_nil_r (String c EmptyString)) at 1.
    by rewrite appendQuoteDoubled_append.
Qed.

Lemma undoubleQuotes_doubled (s : string) :
  undoubleQuotes (appendQuoteDoubled EmptyString s) = s.
Proof.
  induction s as [|c rest IH]; [done|].
  rewrite appendQuoteDoubled_cons.
  destruct (Ascii.eqb c "'") eqn:Hc.
  - apply Ascii.eqb_eq in Hc as ->. cbn. by rewrite IH.
  - cbn [undoubleQuotes]. rewrite Hc.
    destruct (appendQuoteDoubled EmptyString rest) eqn:E.
    + by rewrite <- IH.
    + cbn [andb]. by rewrite IH.
Qed.

Lemma append_quote_inj (a b : string) : a +:+ "'" = b +:+ "'" → a = b.
Proof.
  revert b. induction a as [|x a IH]; intros [|y b]; try done.
  - rewrite append_nil_l, append_cons. intros [= _ H]. by destruct b.
  - rewrite append_nil_l, append_cons. intros [= _ H]. by destruct a.
  - rewrite !append_cons. intros [= -> H]. f_equal. by apply IH.
Qed.

(** X17.  The escaping of strings and byte slices loses nothing and lets no
    quote out: the literal is the buffer, the opening ['] (or [_binary']), a
    body and a closing ['], where un-doubling the single quotes of the body
    gives back the value; hence two values with the same literal are
    equal.  No other character, the backslash included, is changed. *)
Theorem escaping_round_trip :
  (∀ value, ∃ body,
     undoubleQuotes body = value
     ∧ ∀ buffer,
         appendEscapedString buffer value = buffer +:+ "'" +:+ body +:+ "'"
         ∧ appendEscapedBuffer buffer value
           = buffer +:+ "_binary'" +:+ body +:+ "'")
  ∧ (∀ buffer v1 v2,
       appendEscapedString buffer v1 = appendEscapedString buffer v2 →
       v1 = v2)
  ∧ (∀ buffer v1 v2,
       appendEscapedBuffer buffer v1 = appendEscapedBuffer buffer v2 →
       v1 = v2).
Proof.
  assert (Hstring : ∀ buffer value,
            appendEscapedString buffer value
            = buffer +:+ "'" +:+ appendQuoteDoubled EmptyString value +:+ "'").
  { intros. unfold appendEscapedString.
    rewrite <- (append_nil_r "'") at 1.
    by rewrite <- append_assoc, !appendQuoteDoubled_append, !append_assoc. }
  assert (Hbuffer : ∀ buffer value,
            appendEscapedBuffer buffer value
            = buffer +:+ "_binary'" +:+ appendQuoteDoubled EmptyString value
              +:+ "'").
  { intros. unfold appendEscapedBuffer.
    rewrite <- (append_nil_r "_binary'") at 1.
    by rewrite <- append_assoc, !appendQuoteDoubled_append, !append_assoc. }
  split; [|split].
  - intros value. exists (appendQuoteDoubled EmptyString value).
    split; [apply undoubleQuotes_doubled|]. by intros buffer.
  - intros buffer v1 v2. rewrite !Hstring. intros H.
    apply String.app_inj, String.app_inj, append_quote_inj in H.
    by rewrite <- (undoubleQuotes_doubled v1), H, undoubleQuotes_doubled.
  - intros buffer v1 v2. rewrite !Hbuffer. intros H.
    apply String.app_inj, String.app_inj, append_quote_inj in H.
    by rewrite <- (undoubleQuotes_doubled v1), H, undoubleQuotes_doubled.
Qed.

Lemma escaping_round_trip_witness :
  (∃ body,
     undoubleQuotes body = "O'Brien"
     ∧ appendEscapedString "name=" "O'Brien" = "name=" +:+ "'" +:+ body +:+ "'")
  ∧ "it's" = "it's".
Proof.
  split.
  - destruct (proj1 escaping_round_trip "O'Brien") as (body & Hbody & Hlit).
    exists body. split; [exact Hbody|apply Hlit].
  - apply (proj1 (proj2 escaping_round_trip) "note=" "it's" "it's").
    reflexivity.
Defined.

(** ** The panics of rendering *)

Lemma appendEscapedValue_cases (buffer : string) (v : cell) :
  (supported v ∧ appendEscapedValue buffer v = Ret (buffer +:+ literal v))
  ∨ (¬ supported v ∧ appendEscapedValue buffer v = Panic (UnsupportedType v)).
Proof.
  assert (Hs : supported v ∨ ∃ t k, v = COther t k).
  { destruct v; try (by left). right. by eexists _, _. }
  destruct Hs as [Hs|(t & k & ->)].
  - left. split; [done|]. by apply appendEscapedValue_literal.
  - right. split; [by intros []|done].
Qed.

Lemma valuesLoop_panic (values : list cell) (i : nat) (buffer : string)
    (p : panic) :
  valuesLoop i values buffer = Panic p →
  ∃ v, v ∈ values ∧ ¬ supported v ∧ p = UnsupportedType v.
Proof.
  revert i buffer. induction values as [|v rest IH]; intros i buffer; [done|].
  cbn [valuesLoop].
  destruct (appendEscapedValue_cases
              (if (0 <? i)%nat then buffer +:+ "," else buffer) v)
    as [[_ ->]|[Hv ->]]; go_step.
  - intros (u & Hu & Hrest)%IH. exists u. split; [|done].
    by apply list_elem_of_further.
  - intros [= <-]. exists v. split; [apply list_elem_of_here|done].
Qed.

Lemma whereLoop_panic (columns : list string) (values : list cell) (i : nat)
    (buffer : string) (p : panic) :
  (i + length values ≤ length columns)%nat →
  whereLoop columns i values buffer = Panic p →
  ∃ v, v ∈ values ∧ ¬ supported v ∧ p = UnsupportedType v.
Proof.
  revert i buffer. induction values as [|v rest IH]; intros i buffer Hlen;
    [done|].
  simpl in Hlen. cbn [whereLoop].
  destruct (lookup_lt_is_Some_2 columns i) as [c Hc]; [lia|].
  rewrite (index_lookup _ _ _ Hc). go_step.
  assert (Hnext : ∀ b, whereLoop columns (S i) rest b = Panic p →
            ∃ u, u ∈ v :: rest ∧ ¬ supported u ∧ p = UnsupportedType u).
  { intros b (u & Hu & Hrest)%IH; [|lia]. exists u. split; [|done].
    by apply list_elem_of_further. }
  destruct (isNilValue v); [apply Hnext|].
  destruct (appendEscapedValue_cases
              (((if (0 <? i)%nat then buffer +:+ " AND " else buffer) +:+ c)
               +:+ "=") v) as [[_ ->]|[Hv ->]]; go_step; [apply Hnext|].
  intros [= <-]. exists v. split; [apply list_elem_of_here|done].
Qed.

Lemma setLoop_panic (columns : list string) (values : list cell) (i : nat)
    (buffer : string) (p : panic) :
  (i + length values ≤ length columns)%nat →
  setLoop columns i values buffer = Panic p →
  ∃ v, v ∈ values ∧ ¬ supported v ∧ p = UnsupportedType v.
Proof.
  revert i buffer. induction values as [|v rest IH]; intros i buffer Hlen;
    [done|].
  simpl in Hlen. cbn [setLoop].
  destruct (lookup_lt_is_Some_2 columns i) as [c Hc]; [lia|].
  rewrite (index_lookup _ _ _ Hc). go_step.
  destruct (appendEscapedValue_cases
              (((if (0 <? i)%nat then buffer +:+ "," else buffer) +:+ c)
               +:+ "=") v) as [[_ ->]|[Hv ->]]; go_step.
  - intros (u & Hu & Hrest)%IH; [|lia]. exists u. split; [|done].
    by apply list_elem_of_further.
  - intros [= <-]. exists v. split; [apply list_elem_of_here|done].
Qed.

Lemma project_fits (table intersection : Table.t) (values : list cell) :
  (0 + length (project (matched table intersection).*1 values)
   ≤ length (matched table intersection).*2)%nat.
Proof.
  rewrite length_fmap. etrans; [apply project_length|].
  by rewrite length_fmap.
Qed.

(** X18.  [AsSQLString] panics on two occasions only: an empty column list
    of the source or of the intersection ("zero columns"), and a cell of an
    unsupported type in a matched column of one of its row images
    ("unsupported type").  It never panics on an index: the builders read
    [columns[i]] within the matched columns. *)
Theorem rendering_panics :
  ∀ (h : store) (e : DMLEvent) (intersection : Table.t) (p : panic),
    AsSQLString h e intersection = Panic p →
    (p = ZeroColumns (length (Table.Columns (TableSchema e)))
           (length (Table.Columns intersection))
     ∧ (Table.Columns (TableSchema e) = []
        ∨ Table.Columns intersection = []))
    ∨ (∃ values v,
         values ∈ rowImages h e
         ∧ v ∈ project (matched (TableSchema e) intersection).*1 values
         ∧ ¬ supported v
         ∧ p = UnsupportedType v).
Proof.
  intros h e intersection p Hpanic.
  destruct (decide (Table.Columns (TableSchema e) = []
                    ∨ Table.Columns intersection = [])) as [Hz|Hnz].
  { left. split; [|done].
    rewrite (proj1 (AsSQLString_load h e intersection) _
               (loadColumnsAndValuesInIntersection_zero _ _ _ Hz)) in Hpanic.
    by injection Hpanic as <-. }
  assert (Ht : Table.Columns (TableSchema e) ≠ []) by tauto.
  assert (Hi : Table.Columns intersection ≠ []) by tauto.
  destruct (decide (Forall (λ values, length values
                              = length (Table.Columns (TableSchema e)))
                      (rowImages h e))) as [Hall|Hnot].
  2:{ apply not_Forall_Exists in Hnot; [|apply _].
      destruct (loadColumnsAndValuesInIntersection_mismatch _ intersection
                  (rowImages h e) Ht Hi) as (n & _ & Hload).
      { eapply Exists_impl; [exact Hnot|]. by intros values Hv. }
      by rewrite (proj2 (AsSQLString_load h e intersection) _ _ _ Hload)
        in Hpanic. }
  right.
  pose proof (loadColumnsAndValuesInIntersection_spec _ intersection _
                Ht Hi Hall) as Hload.
  destruct e as [newValues base|oldValues newValues base|oldValues base];
    unfold AsSQLString in Hpanic; unfold TableSchema, rowImages in *;
    simpl in *; rewrite Hload in Hpanic; revert Hpanic; go_step;
    cbn [fmap list_fmap]; rewrite ?index_0, ?index_1; go_step.
  - destruct (buildStringListForValues _) as [s|q] eqn:Hvalues; [done|].
    go_step. intros [= <-].
    apply valuesLoop_panic in Hvalues as (v & Hv & Hns & ->).
    exists (contents h newValues), v. split; [apply list_elem_of_here|done].
  - destruct (buildStringMapForSet _ _) as [s|q] eqn:Hset; go_step.
    + rewrite ?index_0. go_step.
      destruct (buildStringMapForWhere _ _) as [s'|q] eqn:Hwhere; [done|].
      go_step. intros [= <-].
      apply whereLoop_panic in Hwhere as (v & Hv & Hns & ->);
        [|apply project_fits].
      exists (contents h oldValues), v.
      split; [apply list_elem_of_here|done].
    + intros [= <-].
      apply setLoop_panic in Hset as (v & Hv & Hns & ->);
        [|apply project_fits].
      exists (contents h newValues), v.
      split; [apply list_elem_of_further, list_elem_of_here|done].
  - destruct (buildStringMapForWhere _ _) as [s|q] eqn:Hwhere; [done|].
    go_step. intros [= <-].
    apply whereLoop_panic in Hwhere as (v & Hv & Hns & ->);
      [|apply project_fits].
    exists (contents h oldValues), v. split; [apply list_elem_of_here|done].
Qed.

Lemma rendering_panics_witness :
  (ZeroColumns 3 0 = ZeroColumns 3 0 ∧ (Table.Columns tableABC = [] ∨ @nil TableColumn.t = []))
  ∨ (∃ values v,
       values ∈ [[CInt64 1; CInt64 2; CInt64 3]]
       ∧ v ∈ project [] values ∧ ¬ supported v
       ∧ ZeroColumns 3 0 = UnsupportedType v).
Proof.
  apply (rendering_panics storeABC
           (BinlogInsertEvent (Some 0%nat) (DMLEventBase.mk tableABC))
           (Table.mk "s" "t" [] []) (ZeroColumns 3 0)).
  reflexivity.
Defined.

(** ** Marking the target and waiting *)

Lemma retryLoop_invariant {S : Type} (I : S → Prop) (n : nat)
    (f : S → option error * S) (s : S) (last : option error) :
  (∀ s, I s → I (f s).2) → I s → I (retryLoop n f s last).2.
Proof.
  intros Hf. revert s last. induction n as [|n IH]; intros s last Hs; [done|].
  simpl. pose proof (Hf s Hs) as Hs'.
  destruct (f s) as [[e|] s']; [by apply IH|done].
Qed.

Lemma IsCaughtUp_true {World : Type}
    (w : WaitUntilReplicaIsCaughtUpToMaster.t World) (world world' : World) :
  IsCaughtUp w world = ((true, None), world') →
  ∃ world0 replicaPos,
    WaitUntilReplicaIsCaughtUpToMaster.ReplicatedMasterPositionFetcher w world0
    = ((replicaPos, None), world')
    ∧ positionLe (WaitUntilReplicaIsCaughtUpToMaster.targetMasterPos w)
        replicaPos.
Proof.
  rewrite IsCaughtUp_result.
  destruct (WithRetries _ _ _) as [[e|] [pos world1]] eqn:Hretry; [done|].
  intros [= Hge <-]. unfold WithRetries in Hretry.
  apply (retryLoop_success 99) in Hretry as [[pos0 world0] Hfetch].
  unfold fetchAttempt in Hfetch. simpl in Hfetch.
  destruct (WaitUntilReplicaIsCaughtUpToMaster.ReplicatedMasterPositionFetcher
              w world0) as [[pos1 err1] world2] eqn:Hcur.
  injection Hfetch as -> -> ->.
  exists world0, pos. split; [done|].
  apply bool_decide_eq_true in Hge. by apply Compare_ge_0.
Qed.

Lemma waitLoop_nil {World : Type} (polls : nat)
    (w : WaitUntilReplicaIsCaughtUpToMaster.t World) (world world' : World) :
  waitLoop polls w world = Some (None, world') →
  ∃ world1, IsCaughtUp w world1 = ((true, None), world').
Proof.
  revert world. induction polls as [|polls IH]; intros world; [done|].
  cbn [waitLoop].
  destruct (IsCaughtUp w world) as [[[] [e|]] world1] eqn:Hpoll; try done.
  - intros [= <-]. eauto.
  - apply IH.
Qed.

Lemma waitLoop_more {World : Type} (polls more : nat)
    (w : WaitUntilReplicaIsCaughtUpToMaster.t World) (world : World)
    (r : option error * World) :
  waitLoop polls w world = Some r →
  waitLoop (polls + more) w world = Some r.
Proof.
  revert world. induction polls as [|polls IH]; intros world; [done|].
  cbn [waitLoop Nat.add].
  destruct (IsCaughtUp w world) as [[[] [e|]] world1]; try done. apply IH.
Qed.

Lemma MarkTargetMasterPosition_success {World : Type}
    (showMasterStatus : World → (Position.t * option error) * World)
    (w w' : WaitUntilReplicaIsCaughtUpToMaster.t World) (world world' : World) :
  MarkTargetMasterPosition showMasterStatus w world = (None, (w', world')) →
  ∃ world0,
    showMasterStatus world0
    = ((WaitUntilReplicaIsCaughtUpToMaster.targetMasterPos w', None), world')
    ∧ WaitUntilReplicaIsCaughtUpToMaster.ReplicatedMasterPositionFetcher w'
      = WaitUntilReplicaIsCaughtUpToMaster.ReplicatedMasterPositionFetcher w.
Proof.
  intros Hmark. unfold MarkTargetMasterPosition, WithRetries in Hmark.
  pose proof (retryLoop_invariant
                (λ s : WaitUntilReplicaIsCaughtUpToMaster.t World * World,
                   WaitUntilReplicaIsCaughtUpToMaster.ReplicatedMasterPositionFetcher
                     s.1
                   = WaitUntilReplicaIsCaughtUpToMaster.ReplicatedMasterPositionFetcher
                       w)
                100 (markAttempt showMasterStatus) (w, world) None) as Hinv.
  rewrite Hmark in Hinv. simpl in Hinv.
  apply (retryLoop_success 99) in Hmark as [[w0 world0] Hattempt].
  unfold markAttempt in Hattempt. simpl in Hattempt.
  destruct (showMasterStatus world0) as [[pos err] world1] eqn:Hshow.
  injection Hattempt as -> <- ->.
  exists world0. split; [done|]. apply Hinv; [|done].
  intros [w1 world1] Hw1. unfold markAttempt. simpl.
  by destruct (showMasterStatus world1) as [[pos1 err1] world2].
Qed.

(** X19.  [MarkTargetMasterPosition] returning without error has recorded, as
    the target, the position a query of the master returned without error,
    and has left the fetcher of the coordinator as it was.  One query without
    error is enough: no second query is made.  ([WithRetries] as the model
    has it: a bounded loop that stops at the first attempt without error.) *)
Theorem MarkTargetMasterPosition_records_the_master_position :
  ∀ (World : Type)
    (showMasterStatus : World → (Position.t * option error) * World)
    (w : WaitUntilReplicaIsCaughtUpToMaster.t World) (world : World),
    (∀ w' world',
       MarkTargetMasterPosition showMasterStatus w world
       = (None, (w', world')) →
       ∃ world0,
         showMasterStatus world0
         = ((WaitUntilReplicaIsCaughtUpToMaster.targetMasterPos w', None),
            world')
         ∧ WaitUntilReplicaIsCaughtUpToMaster.ReplicatedMasterPositionFetcher w'
           = WaitUntilReplicaIsCaughtUpToMaster.ReplicatedMasterPositionFetcher
               w)
    ∧ (∀ pos world',
         showMasterStatus world = ((pos, None), world') →
         MarkTargetMasterPosition showMasterStatus w world
         = (None,
            (WaitUntilReplicaIsCaughtUpToMaster.mk World
               (WaitUntilReplicaIsCaughtUpToMaster.ReplicatedMasterPositionFetcher
                  w) pos,
             world'))).
Proof.
  intros World showMasterStatus w world. split.
  - intros w' world'. apply MarkTargetMasterPosition_success.
  - intros pos world' Hshow. unfold MarkTargetMasterPosition, WithRetries.
    apply (retryLoop_first 99). unfold markAttempt. simpl. by rewrite Hshow.
Qed.

Lemma MarkTargetMasterPosition_records_the_master_position_witness :
  MarkTargetMasterPosition
    (λ world : nat, ((Position.mk "mysql-bin.000007" 4096, None), S world))
    (WaitUntilReplicaIsCaughtUpToMaster.mk nat
       (λ world, ((Position.mk "mysql-bin.000007" 4000, None), world))
       (Position.mk EmptyString 0))
    0%nat
  = (None,
     (WaitUntilReplicaIsCaughtUpToMaster.mk nat
        (λ world, ((Position.mk "mysql-bin.000007" 4000, None), world))
        (Position.mk "mysql-bin.000007" 4096),
      1%nat)).
Proof.
  apply (proj2 (MarkTargetMasterPosition_records_the_master_position nat
                  (λ world : nat,
                     ((Position.mk "mysql-bin.000007" 4096, None), S world))
                  (WaitUntilReplicaIsCaughtUpToMaster.mk nat
                     (λ world,
                        ((Position.mk "mysql-bin.000007" 4000, None), world))
                     (Position.mk EmptyString 0))
                  0%nat)).
  reflexivity.
Defined.

(** X20.  [Wait] returns nil only after a poll that found the replica caught
    up: the target was recorded from a query of the master without error,
    and the last position fetched from the replica, without error, has
    reached it.  When marking the target fails, [Wait] returns that error
    and never polls the replica.  A result reached within some number of
    polls is the result for every larger number.  ([WithRetries] and
    [Compare] as the model has them.) *)
Theorem Wait_returns_nil_when_the_target_is_reached :
  ∀ (World : Type)
    (showMasterStatus : World → (Position.t * option error) * World)
    (w : WaitUntilReplicaIsCaughtUpToMaster.t World) (world : World),
    (∀ polls w' world',
       Wait polls showMasterStatus w world = Some (None, (w', world')) →
       ∃ worldM worldM' worldR replicaPos,
         showMasterStatus worldM
         = ((WaitUntilReplicaIsCaughtUpToMaster.targetMasterPos w', None),
            worldM')
         ∧ WaitUntilReplicaIsCaughtUpToMaster.ReplicatedMasterPositionFetcher
             w worldR = ((replicaPos, None), world')
         ∧ positionLe (WaitUntilReplicaIsCaughtUpToMaster.targetMasterPos w')
             replicaPos)
    ∧ (∀ polls e w' world',
         MarkTargetMasterPosition showMasterStatus w world
         = (Some e, (w', world')) →
         Wait polls showMasterStatus w world = Some (Some e, (w', world')))
    ∧ (∀ polls more r,
         Wait polls showMasterStatus w world = Some r →
         Wait (polls + more) showMasterStatus w world = Some r).
Proof.
  intros World showMasterStatus w world. split; [|split].
  - intros polls w' world'. unfold Wait.
    destruct (MarkTargetMasterPosition showMasterStatus w world)
      as [[e|] [w1 world1]] eqn:Hmark; [done|].
    destruct (waitLoop polls w1 world1) as [[err world2]|] eqn:Hloop; [|done].
    intros [= -> -> ->].
    destruct (MarkTargetMasterPosition_success _ _ _ _ _ Hmark)
      as (worldM & Hshow & Hfetcher).
    destruct (waitLoop_nil _ _ _ _ Hloop) as (worldP & Hpoll).
    destruct (IsCaughtUp_true _ _ _ Hpoll) as (worldR & replicaPos & Hfetch & Hle).
    exists worldM, world1, worldR, replicaPos.
    split; [done|]. split; [by rewrite <- Hfetcher|done].
  - intros polls e w' world' Hmark. unfold Wait. by rewrite Hmark.
  - intros polls more r. unfold Wait.
    destruct (MarkTargetMasterPosition showMasterStatus w world)
      as [[e|] [w1 world1]]; [done|].
    destruct (waitLoop polls w1 world1) as [r1|] eqn:Hloop; [|done].
    by rewrite (waitLoop_more _ more _ _ _ Hloop).
Qed.

Lemma Wait_returns_nil_when_the_target_is_reached_witness :
  ∃ w' world',
    Wait 2 (λ world : nat, ((Position.mk "mysql-bin.000007" 4096, None), world))
      (WaitUntilReplicaIsCaughtUpToMaster.mk nat
         (λ world,
            if world is O
            then ((Position.mk "mysql-bin.000007" 4000, None), 1%nat)
            else ((Position.mk "mysql-bin.000007" 5000, None), 2%nat))
         (Position.mk EmptyString 0))
      0%nat
    = Some (None, (w', world'))
    ∧ ∃ worldR replicaPos,
        (if worldR is O
         then ((Position.mk "mysql-bin.000007" 4000, @None error), 1%nat)
         else ((Position.mk "mysql-bin.000007" 5000, @None error), 2%nat))
        = ((replicaPos, None), world')
        ∧ positionLe (WaitUntilReplicaIsCaughtUpToMaster.targetMasterPos w')
            replicaPos.
Proof.
  eexists _, _. split; [reflexivity|].
  destruct (proj1 (Wait_returns_nil_when_the_target_is_reached nat
                     (λ world : nat,
                        ((Position.mk "mysql-bin.000007" 4096, None), world))
                     (WaitUntilReplicaIsCaughtUpToMaster.mk nat
                        (λ world,
                           if world is O
                           then ((Position.mk "mysql-bin.000007" 4000, None),
                                 1%nat)
                           else ((Position.mk "mysql-bin.000007" 5000, None),
                                 2%nat))
                        (Position.mk EmptyString 0))
                     0%nat) 2%nat _ _ eq_refl)
    as (worldM & worldM' & worldR & replicaPos & _ & Hfetch & Hle).
  by exists worldR, replicaPos.
Defined.

(** ** [PK] of the statements of a dispatch *)

(** X21.  For a WRITE or DELETE rows event of a table whose primary-key
    column is not flagged unsigned, the statement the dispatch entry point
    builds from a row with a signed-integer primary-key cell [v] has
    [PK() = v] without error when [v] is not negative, and the error
    "expected ... an unsigned number" when it is. *)
Theorem PK_of_dispatched_statements :
  ∀ (table : Table.t) (ev : BinlogEvent.t) (rowsEvent : RowsEvent.t)
    (h h' : store) (events : list (option DMLEvent)) (i : nat)
    (row : RowData) (pkIndex : Z) (rest : list Z) (col : TableColumn.t)
    (w : width) (v : Z),
    BinlogEvent.Event ev = BinlogEvent.IsRowsEvent rowsEvent →
    BinlogEvent.Header_EventType ev
    ∈ [WRITE_ROWS_EVENTv1; WRITE_ROWS_EVENTv2;
       DELETE_ROWS_EVENTv1; DELETE_ROWS_EVENTv2] →
    NewBinlogDMLEvents table ev h = Ret ((events, None), h') →
    RowsEvent.Rows rowsEvent !! i = Some row →
    Table.PKColumns table = pkIndex :: rest →
    0 <= pkIndex →
    Table.Columns table !! Z.to_nat pkIndex = Some col →
    TableColumn.IsUnsigned col = false →
    contents h row !! Z.to_nat pkIndex = Some (signedCell w v) →
    v < 2 ^ 64 →
    ∃ e,
      events !! i = Some (Some e)
      ∧ (0 <= v → PK h' e = Ret (v, None))
      ∧ (v < 0 → PK h' e = Ret (0, Some (ErrNotUnsigned pkIndex))).
Proof.
  intros table ev rowsEvent h h' events i row pkIndex rest col w v
    Hev Htype Hrun Hrow Hpk Hidx Hcol Hsigned Hcell Hv.
  destruct (NewBinlogDMLEvents_inv _ _ _ _ _ _ _ Hev Hrun)
    as [(er & _ & _ & ?)|[Hloop Hdispatch]]; [done|].
  pose proof (rowsLoop_no_error _ _ _ _ Hloop) as Hall.
  destruct (rowsLoop_spec table _ h Hall) as (h1 & Hloop1 & Hh1).
  rewrite Hloop in Hloop1. injection Hloop1 as <-.
  assert (Hin : row ∈ RowsEvent.Rows rowsEvent)
    by (by eapply list_elem_of_lookup_2).
  assert (Hcontents : contents h' row
                      = normalizeRow (Table.Columns table) (contents h row))
    by (by rewrite Hh1, decide_True).
  assert (Hlen : length (contents h' row) = length (Table.Columns table)).
  { rewrite Forall_forall in Hall.
    by rewrite Hcontents, normalizeRow_length; apply Hall. }
  assert (Hcell' : contents h' row !! Z.to_nat pkIndex = Some (signedCell w v)).
  { rewrite Hcontents, (normalizeRow_lookup _ _ _ _ _ Hcol Hcell).
    unfold normalizeCell. by rewrite Hsigned. }
  assert (Hpkrow : pkFromEventData (DMLEventBase.mk table) (contents h' row)
                   = GetUint64 (contents h' row) pkIndex).
  { unfold pkFromEventData. simpl.
    by rewrite (verify_same_length _ _ Hlen), Hpk, index_0. }
  destruct (GetUint64_signed _ _ _ _ Hidx Hv Hcell') as [Hpos Hneg].
  unfold dispatchOnEventType in Hdispatch.
  repeat (apply elem_of_cons in Htype as [Htype|Htype]);
    [..|by apply elem_of_nil in Htype];
    rewrite Htype in Hdispatch;
    rewrite ?NewBinlogInsertEvents_spec, ?NewBinlogDeleteEvents_spec
      in Hdispatch;
    injection Hdispatch as <-;
    eexists; (split; [by rewrite list_lookup_fmap, Hrow|]);
    cbn [PK]; rewrite Hpkrow; by split.
Qed.

Lemma PK_of_dispatched_statements_witness :
  ∃ e h',
    NewBinlogDMLEvents tableIdName
      (BinlogEvent.mk WRITE_ROWS_EVENTv2
         (BinlogEvent.IsRowsEvent (RowsEvent.mk [Some 1%nat])))
      storeIdName
    = Ret (([Some e], None), h')
    ∧ PK h' e = Ret (1, None).
Proof.
  assert (Hrun : ∃ e h',
            NewBinlogDMLEvents tableIdName
              (BinlogEvent.mk WRITE_ROWS_EVENTv2
                 (BinlogEvent.IsRowsEvent (RowsEvent.mk [Some 1%nat])))
              storeIdName
            = Ret (([Some e], None), h')).
  { eexists _, _. vm_compute. reflexivity. }
  destruct Hrun as (e & h' & Hrun). exists e, h'. split; [exact Hrun|].
  destruct (PK_of_dispatched_statements tableIdName
              (BinlogEvent.mk WRITE_ROWS_EVENTv2
                 (BinlogEvent.IsRowsEvent (RowsEvent.mk [Some 1%nat])))
              (RowsEvent.mk [Some 1%nat]) storeIdName h' [Some e] 0%nat
              (Some 1%nat) 0 [] (TableColumn.mk "id" false) W64 1
              eq_refl ltac:(apply list_elem_of_further, list_elem_of_here)
              Hrun eq_refl eq_refl ltac:(lia) eq_refl eq_refl eq_refl
              ltac:(lia))
    as (e' & He' & Hpos & _).
  injection He' as <-. apply Hpos. lia.
Defined.
